(** * nvitop: the key lexer, the key tries and the key buffer

    A shallow embedding of [nvitop/ui/keybinding.py] and of the key
    dispatch of [nvitop/ui/top.py], with the properties of the design
    document checked against it. *)

From Stdlib Require Import ZArith Lia Bool List Ascii String DecimalString DecimalPos.
From stdpp Require Import base tactics option list strings gmap.

Set Warnings "-clear-no-such-hyp".

Open Scope Z_scope.

(** ** Python values shared by the whole development *)

(** The exceptions the modelled code can raise.  [OtherError] stands for
    whatever a bound action raises on its own. *)
Inductive exn : Type :=
| KeyError
| TypeError
| ValueError
| IndexError
| BreakLoop
| OtherError (n : nat).

(** The outcome of a call: a value, or a raised exception. *)
Inductive res (A : Type) : Type :=
| Ok (a : A)
| Raise (e : exn).
Arguments Ok {A} a.
Arguments Raise {A} e.

Module Lexer.

(** ** Characters and strings

    A [str] is a [string]; its characters are the code points 0..255
    (Latin-1), which is the alphabet [KeyMaps._clean_input] hands to the
    lexer. *)

Definition ord (c : ascii) : Z := Z.of_nat (nat_of_ascii c).
Definition chr (k : Z) : ascii := ascii_of_nat (Z.to_nat k).

(** [str.lower] on one Latin-1 character: A-Z and the accented capitals
    (0xC0-0xDE except the multiplication sign 0xD7) move up by 32. *)
Definition lower_char (c : ascii) : ascii :=
  let n := ord c in
  if ((65 <=? n) && (n <=? 90)) || ((192 <=? n) && (n <=? 222) && negb (n =? 215))
  then chr (n + 32) else c.

Definition lower (s : list ascii) : list ascii := map lower_char s.

Definition is_ascii_digit (c : ascii) : bool := (48 <=? ord c) && (ord c <=? 57).

(** [str.isdigit] on one character: the decimal digits and the three
    superscript digits of Latin-1 (0xB2, 0xB3, 0xB9). *)
Definition isdigit_char (c : ascii) : bool :=
  is_ascii_digit c || (ord c =? 178) || (ord c =? 179) || (ord c =? 185).

(** [str.isdigit]: false on the empty string. *)
Definition isdigit (s : list ascii) : bool :=
  match s with
  | [] => false
  | _ => forallb isdigit_char s
  end.

(** [int(string)] for a string that passed [isdigit]: the superscript
    digits are digits for [isdigit] but not for [int], which raises
    [ValueError] on them. *)
Definition int (s : list ascii) : res Z :=
  if forallb is_ascii_digit s
  then Ok (fold_left (fun acc c => acc * 10 + (ord c - 48)) s 0)
  else Raise ValueError.

Definition startswith (p s : list ascii) : bool :=
  bool_decide (firstn (length p) s = p).

(** [str(key)] for an integer. *)
Definition str_of_int (k : Z) : list ascii :=
  list_ascii_of_string (DecimalString.NilZero.string_of_int (Z.to_int k)).

(** ** The key tables *)

Definition DIGITS : list Z := map ord (list_ascii_of_string "0123456789").

Definition ANYKEY : Z := 9001.
Definition PASSIVE_ACTION : Z := 9002.
Definition ALT_KEY : Z := 9003.
Definition QUANT_KEY : Z := 9004.

(** The key codes of the [curses] module (ncurses' values; the doctest of
    [parse_keybinding] shows 260 for [KEY_LEFT]). *)
Module curses.
Definition KEY_DOWN : Z := 258.
Definition KEY_UP : Z := 259.
Definition KEY_LEFT : Z := 260.
Definition KEY_RIGHT : Z := 261.
Definition KEY_HOME : Z := 262.
Definition KEY_BACKSPACE : Z := 263.
Definition KEY_F0 : Z := 264.
Definition KEY_DC : Z := 330.
Definition KEY_IC : Z := 331.
Definition KEY_NPAGE : Z := 338.
Definition KEY_PPAGE : Z := 339.
Definition KEY_BTAB : Z := 353.
Definition KEY_END : Z := 360.
Definition KEY_SDC : Z := 383.
Definition DEL : Z := 127.
Definition ESC : Z := 27.
End curses.

(** A value of [SPECIAL_KEYS]: an integer, or the pair [(ALT_KEY, val)]. *)
Inductive keyval : Type :=
| KInt (k : Z)
| KPair (a b : Z).

Global Instance keyval_eq_dec : EqDecision keyval.
Proof. solve_decision. Defined.

(** A [dict] whose order matters, as an association list in insertion
    order: assigning to a present key keeps its place. *)
Fixpoint dict_set {K V} `{EqDecision K} (d : list (K * V)) (k : K) (v : V) : list (K * V) :=
  match d with
  | [] => [(k, v)]
  | (k', v') :: d' => if decide (k' = k) then (k, v) :: d' else (k', v') :: dict_set d' k v
  end.

Fixpoint dict_get {K V} `{EqDecision K} (d : list (K * V)) (k : K) : option V :=
  match d with
  | [] => None
  | (k', v') :: d' => if decide (k' = k) then Some v' else dict_get d' k
  end.

Definition s (x : string) : list ascii := list_ascii_of_string x.

Definition SPECIAL_KEYS_literal : list (list ascii * keyval) :=
  [ (s "bs", KInt curses.KEY_BACKSPACE);
    (s "backspace", KInt curses.KEY_BACKSPACE);
    (s "backspace2", KInt curses.DEL);
    (s "delete", KInt curses.KEY_DC);
    (s "s-delete", KInt curses.KEY_SDC);
    (s "insert", KInt curses.KEY_IC);
    (s "cr", KInt 10);
    (s "enter", KInt 10);
    (s "return", KInt 10);
    (s "space", KInt 32);
    (s "esc", KInt curses.ESC);
    (s "escape", KInt curses.ESC);
    (s "down", KInt curses.KEY_DOWN);
    (s "up", KInt curses.KEY_UP);
    (s "left", KInt curses.KEY_LEFT);
    (s "right", KInt curses.KEY_RIGHT);
    (s "pagedown", KInt curses.KEY_NPAGE);
    (s "pageup", KInt curses.KEY_PPAGE);
    (s "home", KInt curses.KEY_HOME);
    (s "end", KInt curses.KEY_END);
    (s "tab", KInt 9);
    (s "s-tab", KInt curses.KEY_BTAB);
    (s "lt", KInt 60);
    (s "gt", KInt 62) ].

Definition VERY_SPECIAL_KEYS : list (list ascii * keyval) :=
  [ (s "any", KInt ANYKEY);
    (s "alt", KInt ALT_KEY);
    (s "bg", KInt PASSIVE_ACTION);
    (s "allow_quantifiers", KInt QUANT_KEY) ].

(** [special_keys_init]: the four loops, in order.  The first loop runs
    over the literal table, whose values are all integers. *)
Definition special_keys_init (d0 : list (list ascii * keyval)) : list (list ascii * keyval) :=
  let d1 := fold_left (fun d kv =>
              match snd kv with
              | KInt val => dict_set d (s "a-" ++ fst kv) (KPair ALT_KEY val)
              | KPair _ _ => d
              end) d0 d0 in
  let d2 := fold_left (fun d c => dict_set d (s "a-" ++ [c]) (KPair ALT_KEY (ord c)))
              (s "abcdefghijklmnopqrstuvwxyzABCDEFGHIJKLMNOPQRSTUVWXYZ0123456789_!{}[],./") d1 in
  let d3 := fold_left (fun d c => dict_set d (s "c-" ++ [c]) (KInt (ord c - 96)))
              (s "abcdefghijklmnopqrstuvwxyz_") d2 in
  let d4 := dict_set d3 (s "c-space") (KInt 0) in
  fold_left (fun d n => dict_set d (s "f" ++ str_of_int (Z.of_nat n)) (KInt (curses.KEY_F0 + Z.of_nat n)))
    (seq 0 64) d4.

(** [SPECIAL_KEYS] after [special_keys_init()] and
    [SPECIAL_KEYS.update(VERY_SPECIAL_KEYS)]. *)
Definition SPECIAL_KEYS : list (list ascii * keyval) :=
  Eval vm_compute in
    fold_left (fun d kv => dict_set d (fst kv) (snd kv)) VERY_SPECIAL_KEYS
      (special_keys_init SPECIAL_KEYS_literal).

(** [{v: k for k, v in SPECIAL_KEYS.items()}]: a later name replaces an
    earlier one with the same value. *)
Definition REVERSED_SPECIAL_KEYS : list (keyval * list ascii) :=
  Eval vm_compute in
    fold_left (fun d kv => dict_set d (snd kv) (fst kv)) SPECIAL_KEYS [].

(** ** [parse_keybinding] on a [str]

    The generator is run to its end, as every caller does
    ([list(...)], [tuple(...)]); its yields are collected in order. *)

(** What one closed bracket [<...>] yields. *)
Definition parse_bracket (bracket_content : list ascii) : res (list Z) :=
  let string := bracket_content in
  let string_lower := lower string in
  let string :=
    if (length string =? 3)%nat &&
       (startswith (s "a-") string_lower || startswith (s "c-") string_lower)
    then firstn 1 string_lower ++ s "-" ++ skipn 2 string
    else string_lower in
  match dict_get SPECIAL_KEYS string with
  | Some (KPair a b) => Ok [a; b]
  | Some (KInt keys) => Ok [keys]
  | None =>
      if isdigit string
      then match int string with
           | Ok n => Ok [n]
           | Raise e => Raise e
           end
      else Ok ([ord "<"%char] ++ map ord bracket_content ++ [ord ">"%char])
  end.

Fixpoint parse_loop (obj : list ascii) (in_brackets : bool) (bracket_content : list ascii)
  : res (list Z) :=
  match obj with
  | [] =>
      if in_brackets then Ok (ord "<"%char :: map ord bracket_content) else Ok []
  | char :: obj' =>
      if in_brackets then
        if Ascii.eqb char ">"%char then
          match parse_bracket bracket_content with
          | Ok ys =>
              match parse_loop obj' false bracket_content with
              | Ok zs => Ok (ys ++ zs)
              | Raise e => Raise e
              end
          | Raise e => Raise e
          end
        else parse_loop obj' true (bracket_content ++ [char])
      else
        if Ascii.eqb char "<"%char then parse_loop obj' true []
        else
          match parse_loop obj' false bracket_content with
          | Ok zs => Ok (ord char :: zs)
          | Raise e => Raise e
          end
  end.

Definition parse_keybinding (obj : string) : res (list Z) :=
  parse_loop (list_ascii_of_string obj) false [].

(** ** [key_to_string] and [construct_keybinding] *)

Definition key_to_string (key : Z) : list ascii :=
  if (33 <=? key) && (key <? 127) then [chr key]
  else match dict_get REVERSED_SPECIAL_KEYS (KInt key) with
       | Some name => s "<" ++ name ++ s ">"
       | None => s "<" ++ str_of_int key ++ s ">"
       end.

Definition construct_keybinding (iterable : list Z) : string :=
  string_of_list_ascii (concat (map key_to_string iterable)).

(** ** Round trips *)

(** [unparse(parse(text))] *)
Definition unparse_parse (text : string) : res string :=
  match parse_keybinding text with
  | Ok ks => Ok (construct_keybinding ks)
  | Raise e => Raise e
  end.

(** [parse(unparse(parse(x)))] *)
Definition parse_unparse_parse (x : string) : res (list Z) :=
  match unparse_parse x with
  | Ok text => parse_keybinding text
  | Raise e => Raise e
  end.

Definition is_ascii (c : ascii) : bool := ord c <? 128.
Definition is_bracket (c : ascii) : bool := Ascii.eqb c "<"%char || Ascii.eqb c ">"%char.

(** The characters [key_to_string] gives back as themselves. *)
Definition is_graphic (c : ascii) : bool := (33 <=? ord c) && (ord c <? 127).

Definition ascii_without_brackets (text : string) : bool :=
  forallb (fun c => is_ascii c && negb (is_bracket c)) (list_ascii_of_string text).

Definition graphic_without_brackets (text : string) : bool :=
  forallb (fun c => is_graphic c && negb (is_bracket c)) (list_ascii_of_string text).

End Lexer.


(** ** The object store

    Tries are Python [dict]s that hold references to other [dict]s: a
    node is an object in a store, a reference is its location, and a
    mutation of a node is seen through every reference to it. *)

Module Store.

Import Lexer.

Definition loc : Type := positive.

(** A leaf of a trie: a callable (the bound action, named by a number)
    or a [str] (the value ['false'] of the quantifier switch).  A leaf is
    never [None]. *)
Inductive leaf : Type :=
| Action (f : nat)
| Str (x : string).

(** What a slot of a [dict], or a variable, holds: a reference to a
    [dict], or a leaf. *)
Inductive value : Type :=
| VDict (l : loc)
| VLeaf (x : leaf).

Global Instance leaf_eq_dec : EqDecision leaf.
Proof. solve_decision. Defined.
Global Instance value_eq_dec : EqDecision value.
Proof. solve_decision. Defined.

Abbreviation dict := (gmap Z value).
Abbreviation heap := (gmap loc (gmap Z value)).

(** [dict()]: a new object, at a location not in use. *)
Definition new_loc (h : heap) : loc := fresh (dom h).
Definition alloc (h : heap) : loc * heap := (new_loc h, <[new_loc h := ∅]> h).

(** [pointer[key] = v] *)
Definition setitem (pointer : loc) (key : Z) (v : value) (h : heap) : heap :=
  <[pointer := <[key := v]> (h !!! pointer)]> h.

(** [del pointer[key]] (of a present key). *)
Definition delitem (pointer : loc) (key : Z) (h : heap) : heap :=
  <[pointer := delete key (h !!! pointer)]> h.

(** The truth value of an object: a [dict] or a [str] is true when it is
    not empty, a function always. *)
Definition truthy (h : heap) (v : value) : bool :=
  match v with
  | VDict l => negb (bool_decide (h !!! l = (∅ : dict)))
  | VLeaf (Action _) => true
  | VLeaf (Str x) => negb (bool_decide (x = ""%string))
  end.

(** [x[key]] for a [str] [x] and an integer [key]: the character at that
    index, counted from the end when negative. *)
Definition str_getitem (x : string) (key : Z) : res value :=
  let n := Z.of_nat (String.length x) in
  let i := if key <? 0 then key + n else key in
  if (0 <=? i) && (i <? n)
  then match String.get (Z.to_nat i) x with
       | Some c => Ok (VLeaf (Str (String c EmptyString)))
       | None => Raise IndexError
       end
  else Raise IndexError.

(** One round of the loop of [deepcopy] over the items of a [dict]:
    [y[key] = deepcopy(value, memo)], where [rec] copies a value. *)
Definition deepcopy_item
    (rec : value -> gmap loc loc -> heap -> option (value * gmap loc loc * heap))
    (y : loc) (acc : option (gmap loc loc * heap)) (kv : Z * value)
  : option (gmap loc loc * heap) :=
  match acc with
  | None => None
  | Some (memo, h) =>
      match rec (snd kv) memo h with
      | None => None
      | Some (v, memo', h') => Some (memo', setitem y (fst kv) v h')
      end
  end.

(** [copy.deepcopy(x)], with its memo of the objects already copied.  A
    function or a [str] is copied as itself.  [fuel] bounds the nesting
    of the recursion; [None] when it runs out. *)
Fixpoint deepcopy (fuel : nat) (x : value) (memo : gmap loc loc) (h : heap)
  : option (value * gmap loc loc * heap) :=
  match x with
  | VLeaf _ => Some (x, memo, h)
  | VDict l =>
      match memo !! l with
      | Some y => Some (VDict y, memo, h)
      | None =>
          match fuel with
          | O => None
          | S fuel' =>
              let y := new_loc h in
              match fold_left (deepcopy_item (deepcopy fuel') y) (map_to_list (h !!! l))
                      (Some (<[l := y]> memo, <[y := ∅]> h)) with
              | None => None
              | Some (memo', h') => Some (VDict y, memo', h')
              end
          end
      end
  end.

(** ** The shape of a trie in the store *)

(** The value that the keys [ks] lead to from [v]. *)
Fixpoint lookup_path (h : heap) (v : value) (ks : list Z) : option value :=
  match ks with
  | [] => Some v
  | k :: ks' =>
      match v with
      | VDict l =>
          match (h !!! l : dict) !! k with
          | Some v' => lookup_path h v' ks'
          | None => None
          end
      | VLeaf _ => None
      end
  end.

(** [owns h v F]: the nodes under [v] form a tree that lies within the
    locations [F]: every node is in the store, the subtrees under the
    slots of a node lie in disjoint sets of locations (no node is shared)
    that do not hold the node itself (no cycle). *)
Inductive owns (h : heap) : value -> gset loc -> Prop :=
| owns_leaf x F : owns h (VLeaf x) F
| owns_dict l d (Fs : Z -> gset loc) F :
    h !! l = Some d ->
    l ∈ F ->
    (forall k v, d !! k = Some v -> owns h v (Fs k)) ->
    (forall k v, d !! k = Some v -> Fs k ⊆ F ∖ {[l]}) ->
    (forall k1 k2 v1 v2,
        k1 <> k2 -> d !! k1 = Some v1 -> d !! k2 = Some v2 -> Fs k1 ## Fs k2) ->
    owns h (VDict l) F.

(** Two key sequences that part at some position: neither is a prefix of
    the other. *)
Fixpoint diverge (m q : list Z) : bool :=
  match m, q with
  | a :: m', b :: q' => if bool_decide (a = b) then diverge m' q' else true
  | _, _ => false
  end.

End Store.

(** ** The key maps and the key buffer *)

Module KeyBinding.

Import Lexer Store.

(** The attributes of a [KeyBuffer]. *)
Record KeyBuffer : Type := mkKeyBuffer {
  keymap : option loc;
  keys : list Z;
  wildcards : list Z;
  pointer : option value;
  result : option value;
  quantifier : option Z;
  finished_parsing_quantifier : bool;
  finished_parsing : bool;
  parse_error : bool
}.

(** The objects of a session: the store, the [KeyMaps] dict (context name
    to trie root) with its [used_keymap], and the [KeyBuffer] the
    [KeyMaps] was built with. *)
Record state : Type := mkState {
  heap_of : heap;
  contexts : gmap string loc;
  used_keymap : option string;
  keybuffer : KeyBuffer
}.

Definition any_key : Z := ANYKEY.
Definition passive_key : Z := PASSIVE_ACTION.
Definition quantifier_key : Z := QUANT_KEY.
Definition exclude_from_anykey : list Z := [curses.ESC].

(** [KeyBuffer.__init__(keymap)] *)
Definition KeyBuffer_init (h : heap) (keymap : option loc) : KeyBuffer :=
  {| keymap := keymap;
     keys := [];
     wildcards := [];
     pointer := VDict <$> keymap;
     result := None;
     quantifier := None;
     finished_parsing_quantifier :=
       match keymap with
       | Some l =>
           truthy h (VDict l) &&
           match (h !!! l : dict) !! quantifier_key with
           | Some v => bool_decide (v = VLeaf (Str "false"))
           | None => false
           end
       | None => false
       end;
     finished_parsing := false;
     parse_error := false |}.

(** [KeyBuffer.clear] *)
Definition clear (h : heap) (kb : KeyBuffer) : KeyBuffer :=
  KeyBuffer_init h (keymap kb).

(** The tail of [KeyBuffer.add] once the pointer has moved to [v]. *)
Definition add_moved (h : heap) (v : value) (kb : KeyBuffer) : KeyBuffer :=
  match v with
  | VDict l =>
      {| keymap := keymap kb; keys := keys kb; wildcards := wildcards kb;
         pointer := Some v;
         result := match (h !!! l : dict) !! passive_key with
                   | Some r => Some r
                   | None => result kb
                   end;
         quantifier := quantifier kb;
         finished_parsing_quantifier := finished_parsing_quantifier kb;
         finished_parsing := finished_parsing kb;
         parse_error := parse_error kb |}
  | VLeaf _ =>
      {| keymap := keymap kb; keys := keys kb; wildcards := wildcards kb;
         pointer := Some v;
         result := Some v;
         quantifier := quantifier kb;
         finished_parsing_quantifier := finished_parsing_quantifier kb;
         finished_parsing := true;
         parse_error := parse_error kb |}
  end.

(** The tail of [KeyBuffer.add] when the pointer could not move. *)
Definition add_stuck (kb : KeyBuffer) : KeyBuffer :=
  {| keymap := keymap kb; keys := keys kb; wildcards := wildcards kb;
     pointer := pointer kb; result := result kb; quantifier := quantifier kb;
     finished_parsing_quantifier := finished_parsing_quantifier kb;
     finished_parsing := true;
     parse_error := true |}.

(** [KeyBuffer.add(key)].  The attributes assigned before a raise keep
    their new values. *)
Definition add (h : heap) (key : Z) (kb : KeyBuffer) : res unit * KeyBuffer :=
  let kb1 :=
    {| keymap := keymap kb; keys := keys kb ++ [key]; wildcards := wildcards kb;
       pointer := pointer kb; result := None; quantifier := quantifier kb;
       finished_parsing_quantifier := finished_parsing_quantifier kb;
       finished_parsing := finished_parsing kb;
       parse_error := parse_error kb |} in
  if negb (finished_parsing_quantifier kb1) && bool_decide (key ∈ DIGITS) then
    let q := match quantifier kb1 with None => 0 | Some q => q end in
    (Ok tt,
     {| keymap := keymap kb1; keys := keys kb1; wildcards := wildcards kb1;
        pointer := pointer kb1; result := result kb1;
        quantifier := Some (q * 10 + key - 48);
        finished_parsing_quantifier := finished_parsing_quantifier kb1;
        finished_parsing := finished_parsing kb1;
        parse_error := parse_error kb1 |})
  else
    let kb2 :=
      {| keymap := keymap kb1; keys := keys kb1; wildcards := wildcards kb1;
         pointer := pointer kb1; result := result kb1; quantifier := quantifier kb1;
         finished_parsing_quantifier := true;
         finished_parsing := finished_parsing kb1;
         parse_error := parse_error kb1 |} in
    match pointer kb2 with
    | Some (VDict l) =>
        let d : dict := h !!! l in
        match d !! key with
        | Some v => (Ok tt, add_moved h v kb2)
        | None =>
            match d !! any_key with
            | Some v =>
                if bool_decide (key ∉ exclude_from_anykey) then
                  (Ok tt,
                   add_moved h v
                     {| keymap := keymap kb2; keys := keys kb2;
                        wildcards := wildcards kb2 ++ [key];
                        pointer := pointer kb2; result := result kb2;
                        quantifier := quantifier kb2;
                        finished_parsing_quantifier := finished_parsing_quantifier kb2;
                        finished_parsing := finished_parsing kb2;
                        parse_error := parse_error kb2 |})
                else (Ok tt, add_stuck kb2)
            | None => (Ok tt, add_stuck kb2)
            end
        end
    | Some (VLeaf _) | None => (Raise TypeError, kb2)
    end.

(** The buffers that a run of [add] calls leads to from a fresh buffer
    over the trie [km] in the store [h]; [add] leaves the store as it
    is. *)
Inductive reachable (h : heap) (km : option loc) : KeyBuffer -> Prop :=
| reachable_fresh : reachable h km (KeyBuffer_init h km)
| reachable_add kb key kb' :
    reachable h km kb -> kb' = snd (add h key kb) -> reachable h km kb'.

(** The same, through calls that return. *)
Inductive reachable_ok (h : heap) (km : option loc) : KeyBuffer -> Prop :=
| reachable_ok_fresh : reachable_ok h km (KeyBuffer_init h km)
| reachable_ok_add kb key kb' :
    reachable_ok h km kb -> add h key kb = (Ok tt, kb') -> reachable_ok h km kb'.

(** What [add] establishes beyond the stated invariant: a finished buffer
    has left quantifier parsing, and it either carries the parse error or
    sits on the leaf it reports. *)
Definition finished_inv (kb : KeyBuffer) : Prop :=
  finished_parsing kb = true ->
  finished_parsing_quantifier kb = true /\
  (parse_error kb = true \/
   exists x, pointer kb = Some (VLeaf x) /\ result kb = Some (VLeaf x)).

(** *** [KeyMaps] *)

Definition set_heap (h : heap) (st : state) : state :=
  mkState h (contexts st) (used_keymap st) (keybuffer st).

(** The [try: pointer = self[context]] of [_clean_input]: the root of
    the context's trie, made on the spot when the context is new. *)
Definition context_root (context : string) (st : state) : loc * state :=
  match contexts st !! context with
  | Some l => (l, st)
  | None =>
      let '(l, h) := alloc (heap_of st) in
      (l, mkState h (<[context := l]> (contexts st)) (used_keymap st) (keybuffer st))
  end.

(** [KeyMaps._clean_input].  The text is held as the characters that
    [keys.encode('utf-8').decode('latin-1')] has: for a binding text,
    which is ASCII, the text itself. *)
Definition _clean_input (context keys : string) (st : state)
  : res (list Z * loc) * state :=
  let '(pointer, st1) := context_root context st in
  match parse_keybinding keys with
  | Ok ks => (Ok (ks, pointer), st1)
  | Raise e => (Raise e, st1)
  end.

(** The loop of [KeyMaps.bind] over [keys[:-1]]: where it leaves
    [pointer]. *)
Fixpoint bind_walk (ks : list Z) (pointer : loc) (h : heap) : loc * heap :=
  match ks with
  | [] => (pointer, h)
  | key :: ks' =>
      match (h !!! pointer : dict) !! key with
      | Some (VDict l) => bind_walk ks' l h
      | Some (VLeaf _) | None =>
          let '(l, h1) := alloc h in
          bind_walk ks' l (setitem pointer key (VDict l) h1)
      end
  end.

(** The body of [KeyMaps.bind] below [if not keys: return]: the walk
    over [keys[:-1]] and [pointer[last_key] = leaf]. *)
Definition bind_from (ks : list Z) (pointer : loc) (leaf : value) (h : heap) : heap :=
  let last_key := List.last ks 0 in
  let '(pointer, h) := bind_walk (List.removelast ks) pointer h in
  setitem pointer last_key leaf h.

(** [KeyMaps.bind(context, keys, leaf)] *)
Definition bind (context keys : string) (leaf : value) (st : state) : res unit * state :=
  match _clean_input context keys st with
  | (Raise e, st1) => (Raise e, st1)
  | (Ok (ks, pointer), st1) =>
      match ks with
      | [] => (Ok tt, st1)
      | _ :: _ => (Ok tt, set_heap (bind_from ks pointer leaf (heap_of st1)) st1)
      end
  end.

(** [pointer[key]] where [pointer] is whatever the walk of [copy] has
    reached: a [dict], a function (not subscriptable) or a [str]. *)
Definition getitem (h : heap) (pointer : value) (key : Z) : res value :=
  match pointer with
  | VDict l =>
      match (h !!! l : dict) !! key with
      | Some v => Ok v
      | None => Raise KeyError
      end
  | VLeaf (Action _) => Raise TypeError
  | VLeaf (Str x) => str_getitem x key
  end.

(** The loop of [KeyMaps.copy]; its [KeyError] is the
    "Tried to copy the keybinding ..., but it was not found" one. *)
Fixpoint copy_walk (ks : list Z) (pointer : value) (h : heap) : res value :=
  match ks with
  | [] => Ok pointer
  | key :: ks' =>
      match getitem h pointer key with
      | Ok v => copy_walk ks' v h
      | Raise e => Raise e
      end
  end.

(** [KeyMaps.copy(context, source, target)].  [None] only when the fuel
    given to [deepcopy], one more than the number of objects in the
    store, does not suffice. *)
Definition copy (context source target : string) (st : state)
  : option (res unit * state) :=
  match _clean_input context source st with
  | (Raise e, st1) => Some (Raise e, st1)
  | (Ok (clean_source, pointer), st1) =>
      if bool_decide (source = ""%string) then Some (Ok tt, st1)
      else
        match copy_walk clean_source (VDict pointer) (heap_of st1) with
        | Raise e => Some (Raise e, st1)
        | Ok v =>
            match deepcopy (S (size (heap_of st1))) v ∅ (heap_of st1) with
            | None => None
            | Some (v', _, h) => Some (bind context target v' (set_heap h st1))
            end
        end
  end.

(** [KeyMaps._unbind_traverse(pointer, keys, pos)], on [keys[pos:]].
    Its first test, [keys[pos] not in pointer], raises [TypeError] when
    [pointer] is a function or a [str].  After the call below returns,
    [pointer[keys[pos]]] is read again and the slot is deleted when what
    it holds is false.  The [keys.pop()] of the last level shortens a
    list that the callers only index below its new length, and that
    [unbind] drops; it is left out. *)
Fixpoint _unbind_traverse (pointer : value) (keys : list Z) (h : heap) : res unit * heap :=
  match keys with
  | [] => (Raise IndexError, h)
  | key :: rest =>
      match pointer with
      | VLeaf _ => (Raise TypeError, h)
      | VDict l =>
          match (h !!! l : dict) !! key with
          | None => (Ok tt, h)
          | Some child =>
              match rest with
              | _ :: _ =>
                  match _unbind_traverse child rest h with
                  | (Raise e, h') => (Raise e, h')
                  | (Ok _, h') =>
                      match (h' !!! l : dict) !! key with
                      | None => (Raise KeyError, h')
                      | Some v =>
                          if negb (truthy h' v) then (Ok tt, delitem l key h')
                          else (Ok tt, h')
                      end
                  end
              | [] => (Ok tt, delitem l key h)
              end
          end
      end
  end.

(** [KeyMaps.unbind(context, keys)] *)
Definition unbind (context keys : string) (st : state) : res unit * state :=
  match _clean_input context keys st with
  | (Raise e, st1) => (Raise e, st1)
  | (Ok (ks, pointer), st1) =>
      match ks with
      | [] => (Ok tt, st1)
      | _ :: _ =>
          let '(r, h) := _unbind_traverse (VDict pointer) ks (heap_of st1) in
          (r, set_heap h st1)
      end
  end.

(** [KeyMaps.use_keymap(keymap_name)].  The default [dict()] of
    [self.get] is built on every call. *)
Definition use_keymap (keymap_name : string) (st : state) : state :=
  let '(fresh_dict, h) := alloc (heap_of st) in
  let km := Some (default fresh_dict (contexts st !! keymap_name)) in
  let kb := keybuffer st in
  let kb1 :=
    {| keymap := km; keys := keys kb; wildcards := wildcards kb;
       pointer := pointer kb; result := result kb; quantifier := quantifier kb;
       finished_parsing_quantifier := finished_parsing_quantifier kb;
       finished_parsing := finished_parsing kb;
       parse_error := parse_error kb |} in
  if bool_decide (used_keymap st ≠ Some keymap_name)
  then mkState h (contexts st) (Some keymap_name) (clear h kb1)
  else mkState h (contexts st) (used_keymap st) kb1.

(** [KeyMaps(keybuffer)] with the [KeyBuffer()] of [Top.__init__], in an
    empty store. *)
Definition KeyMaps_init : state :=
  mkState ∅ ∅ None (KeyBuffer_init ∅ None).

(** The tries of a session are trees in the store that lie apart: the
    trie of the context [c] within the locations [Fc c]. *)
Definition forest_with (Fc : string -> gset loc) (st : state) : Prop :=
  (forall c root,
      contexts st !! c = Some root ->
      owns (heap_of st) (VDict root) (Fc c) /\ Fc c ⊆ dom (heap_of st)) /\
  (forall c1 c2 r1 r2,
      c1 <> c2 -> contexts st !! c1 = Some r1 -> contexts st !! c2 = Some r2 ->
      Fc c1 ## Fc c2).

Definition forest (st : state) : Prop := exists Fc, forest_with Fc st.

(** The sessions that calls of [bind] (of a leaf), [copy], [unbind] and
    [use_keymap] lead to from a new [KeyMaps]. *)
Inductive built : state -> Prop :=
| built_init : built KeyMaps_init
| built_bind st context keys x :
    built st -> built (snd (bind context keys (VLeaf x) st))
| built_copy st context source target r st' :
    built st -> copy context source target st = Some (r, st') -> built st'
| built_unbind st context keys :
    built st -> built (snd (unbind context keys st))
| built_use_keymap st keymap_name :
    built st -> built (use_keymap keymap_name st).

End KeyBinding.

(** ** The key dispatch of the controller ([Top]) *)

Module Top.

Import Lexer Store KeyBinding.

Section Dispatch.

(** The rest of the controller (display mode, panels) and what a bound
    action does to it.  The actions that [init_keybindings] installs work
    on [top.mode] and [top.process_panel]; none reaches the key buffer or
    the key maps.  An action may raise: [quit] raises [BreakLoop]. *)
Variable UI : Type.
Variable invoke : nat -> UI -> option exn * UI.

(** [DisplayableContainer.press], which [Top.handle_key] tries first. *)
Variable container_press : Z -> UI -> bool * UI.

Record top : Type := mkTop {
  keys_state : state;
  ui : UI
}.

Definition set_keybuffer (kb : KeyBuffer) (t : top) : top :=
  mkTop (mkState (heap_of (keys_state t)) (contexts (keys_state t))
           (used_keymap (keys_state t)) kb) (ui t).

(** [keybuffer.result(self)]: only a function can be called. *)
Definition call (f : value) (t : top) : res unit * top :=
  match f with
  | VLeaf (Action a) =>
      match invoke a (ui t) with
      | (None, u) => (Ok tt, mkTop (keys_state t) u)
      | (Some e, u) => (Raise e, mkTop (keys_state t) u)
      end
  | VLeaf (Str _) | VDict _ => (Raise TypeError, t)
  end.

(** [Top.press(key)] *)
Definition press (key : Z) (t : top) : res bool * top :=
  let h := heap_of (keys_state t) in
  let '(r, kb) := add h key (keybuffer (keys_state t)) in
  let t1 := set_keybuffer kb t in
  match r with
  | Raise e => (Raise e, t1)
  | Ok _ =>
      match result kb with
      | Some f =>
          let '(r', t2) := call f t1 in
          let kb2 := keybuffer (keys_state t2) in
          let t3 := if finished_parsing kb2 then set_keybuffer (clear h kb2) t2 else t2 in
          match r' with
          | Ok _ => (Ok true, t3)
          | Raise e => (Raise e, t3)
          end
      | None =>
          if finished_parsing kb then (Ok false, set_keybuffer (clear h kb) t1)
          else (Ok true, t1)
      end
  end.

(** [Top.handle_key(key)] *)
Definition handle_key (key : Z) (t : top) : res unit * top :=
  if key <? 0 then
    (Ok tt, set_keybuffer (clear (heap_of (keys_state t)) (keybuffer (keys_state t))) t)
  else
    let '(consumed, u) := container_press key (ui t) in
    let t1 := mkTop (keys_state t) u in
    if negb consumed then
      let t2 := mkTop (use_keymap "root" (keys_state t1)) (ui t1) in
      match press key t2 with
      | (Ok _, t3) => (Ok tt, t3)
      | (Raise e, t3) => (Raise e, t3)
      end
    else (Ok tt, t1).

End Dispatch.

End Top.

(** ** Sessions used as examples *)

Module Sessions.

Import Lexer Store KeyBinding.

(** A session with a passive leaf: ["g<bg>"] bound to an action
    in the context [root], then ["x"], and [root] activated. *)
Definition passive_session : state :=
  use_keymap "root"
    (snd (bind "root" "x" (VLeaf (Action 2))
       (snd (bind "root" "g<bg>" (VLeaf (Action 1)) KeyMaps_init)))).

(** A buffer in the middle of ["gg"], in the context [root]. *)
Definition pending_session : state :=
  let st := use_keymap "root" (snd (bind "root" "gg" (VLeaf (Action 1)) KeyMaps_init)) in
  mkState (heap_of st) (contexts st) (used_keymap st)
    (snd (add (heap_of st) 103 (keybuffer st))).

(** A trie with ['x'] bound, and one that also switches quantifiers off
    and binds ['1']. *)
Definition counting_session : state :=
  use_keymap "root" (snd (bind "root" "x" (VLeaf (Action 7)) KeyMaps_init)).

Definition plain_digit_session : state :=
  use_keymap "root"
    (snd (bind "root" "1" (VLeaf (Action 8))
       (snd (bind "root" "<allow_quantifiers>" (VLeaf (Str "false")) KeyMaps_init)))).

(** A controller whose rest is a counter: action 1 is [quit] and raises
    [BreakLoop], any other action counts. *)
Definition counter_invoke (a : nat) (n : nat) : option exn * nat :=
  match a with
  | 1%nat => (Some BreakLoop, n)
  | _ => (None, S n)
  end.

Definition quit_session : Top.top nat :=
  Top.mkTop nat
    (use_keymap "root" (snd (bind "root" "q" (VLeaf (Action 1)) KeyMaps_init)))
    0%nat.

(** A controller with ["gg"] bound to a counting action, over
    containers that consume no key. *)
Definition never_consumes (key : Z) (u : nat) : bool * nat := (false, u).

Definition gg_session : Top.top nat :=
  Top.mkTop nat (snd (bind "root" "gg" (VLeaf (Action 2)) KeyMaps_init)) 0%nat.

(** A trie with ['a'] bound to a leaf. *)
Definition alias_session : state :=
  snd (bind "root" "a" (VLeaf (Action 1)) KeyMaps_init).

End Sessions.

(** ** Further notions for the lexer *)

Module LexerNotions.

Import Lexer.

(** The three characters of Latin-1 that [str.isdigit] accepts and
    [int] rejects. *)
Definition is_superscript_digit (c : ascii) : bool :=
  (ord c =? 178) || (ord c =? 179) || (ord c =? 185).

Definition without_superscript_digits (text : string) : bool :=
  forallb (fun c => negb (is_superscript_digit c)) (list_ascii_of_string text).

(** The keys that [key_to_string] writes in a way [parse_keybinding]
    reads back: every key from -1 on but the one of ['<']. *)
Definition readable_key (k : Z) : bool := (-1 <=? k) && negb (k =? 60).

(** The characters of a decimal numeral, and the value that the loop of
    [int] gives them from [acc]. *)
Definition digit_chars (d : Decimal.uint) : list ascii :=
  list_ascii_of_string (NilEmpty.string_of_uint d).

Fixpoint digits_value (d : Decimal.uint) (acc : Z) : Z :=
  match d with
  | Decimal.Nil => acc
  | Decimal.D0 d => digits_value d (acc * 10 + 0)
  | Decimal.D1 d => digits_value d (acc * 10 + 1)
  | Decimal.D2 d => digits_value d (acc * 10 + 2)
  | Decimal.D3 d => digits_value d (acc * 10 + 3)
  | Decimal.D4 d => digits_value d (acc * 10 + 4)
  | Decimal.D5 d => digits_value d (acc * 10 + 5)
  | Decimal.D6 d => digits_value d (acc * 10 + 6)
  | Decimal.D7 d => digits_value d (acc * 10 + 7)
  | Decimal.D8 d => digits_value d (acc * 10 + 8)
  | Decimal.D9 d => digits_value d (acc * 10 + 9)
  end.

End LexerNotions.

(** ** Runs of the key buffer *)

Module BufferNotions.

Import Lexer Store KeyBinding.

(** [for key in ks: keybuffer.add(key)], left at the first call that
    raises. *)
Fixpoint add_keys (h : heap) (ks : list Z) (kb : KeyBuffer) : res unit * KeyBuffer :=
  match ks with
  | [] => (Ok tt, kb)
  | key :: ks' =>
      match add h key kb with
      | (Ok _, kb') => add_keys h ks' kb'
      | (Raise e, kb') => (Raise e, kb')
      end
  end.

(** [KeyBuffer.__str__] *)
Definition KeyBuffer_str (kb : KeyBuffer) : string :=
  string_of_list_ascii (concat (map key_to_string (keys kb))).

End BufferNotions.

(** ** What a key sequence leads to *)

Module ShapeNotions.

Import Lexer Store KeyBinding.

(** What a key sequence leads to, up to the identity of the nodes:
    nothing, a node, or a leaf. *)
Definition led_to (o : option value) : option (option leaf) :=
  match o with
  | None => None
  | Some (VDict _) => Some None
  | Some (VLeaf x) => Some (Some x)
  end.

End ShapeNotions.

(** ** Reading the terminal ([Top.handle_input]) and the default keys *)

Module TopInput.

Import Lexer Store KeyBinding.

(** Further values of the [curses] module. *)
Definition ERR : Z := -1.
Definition KEY_ENTER : Z := 343.
Definition KEY_MOUSE : Z := 409.
Definition KEY_RESIZE : Z := 410.

Section Dispatch.

Variable UI : Type.
Variable invoke : nat -> UI -> option exn * UI.
Variable container_press : Z -> UI -> bool * UI.

(** The window and the clock belong to the rest of the controller:
    [win.getch()] gives a key code, or -1 when no key is waiting;
    [curses.flushinp()] drops the keys that wait; [note_input] is
    [self.last_input_time = time.time()].  [handle_mouse] and
    [update_size] work on the panels and the window, and may raise. *)
Variable getch : UI -> Z * UI.
Variable flushinp : UI -> UI.
Variable note_input : UI -> UI.
Variable handle_mouse : UI -> option exn * UI.
Variable update_size : UI -> option exn * UI.

(** [redraw] of the loop, and the pause of a quarter of a second that
    [loop] takes when no input came for a second. *)
Variable redraw : UI -> option exn * UI.
Variable idle : UI -> UI.

Local Abbreviation top := (Top.top UI).
Local Abbreviation mkTop := (Top.mkTop UI).
Local Abbreviation keys_state := (Top.keys_state UI).
Local Abbreviation ui := (Top.ui UI).
Local Abbreviation handle_key := (Top.handle_key UI invoke container_press).

(** [Top.handle_keys], over the keys it is given. *)
Fixpoint handle_keys (keys : list Z) (t : top) : res unit * top :=
  match keys with
  | [] => (Ok tt, t)
  | key :: keys' =>
      match handle_key key t with
      | (Ok _, t') => handle_keys keys' t'
      | (Raise e, t') => (Raise e, t')
      end
  end.

(** The loop [for _ in range(n)] of [handle_input], which appends to
    [keys] what [getch] gives unless it is -1. *)
Fixpoint read_ahead (n : nat) (keys : list Z) (u : UI) : list Z * UI :=
  match n with
  | O => (keys, u)
  | S n' =>
      let '(getkey, u') := getch u in
      read_ahead n' (if negb (getkey =? -1) then keys ++ [getkey] else keys) u'
  end.

(** A step that works on the rest of the controller only. *)
Definition on_ui (f : UI -> option exn * UI) (t : top) : res unit * top :=
  match f (ui t) with
  | (None, u) => (Ok tt, mkTop (keys_state t) u)
  | (Some e, u) => (Raise e, mkTop (keys_state t) u)
  end.

(** [Top.handle_input] *)
Definition handle_input (t : top) : res unit * top :=
  let '(key, u) := getch (ui t) in
  let t := mkTop (keys_state t) u in
  if key =? ERR then (Ok tt, t)
  else
    let t := mkTop (keys_state t) (note_input (ui t)) in
    let key := if key =? KEY_ENTER then ord "010"%char else key in
    if (key =? 27) || ((128 <=? key) && (key <? 256)) then
      let '(keys, u) := read_ahead 4 [key] (ui t) in
      let t := mkTop (keys_state t) u in
      let keys :=
        if (length keys =? 1)%nat then keys ++ [-1]
        else if hd 0 keys =? 27 then ALT_KEY :: tl keys
        else keys in
      match handle_keys keys t with
      | (Ok _, t') => (Ok tt, mkTop (keys_state t') (flushinp (ui t')))
      | (Raise e, t') => (Raise e, t')
      end
    else if key >=? 0 then
      let t := mkTop (keys_state t) (flushinp (ui t)) in
      if key =? KEY_MOUSE then on_ui handle_mouse t
      else if key =? KEY_RESIZE then on_ui update_size t
      else handle_key key t
    else (Ok tt, t).

(** [Top.loop], on a controller that has a window.  [fuel] bounds the
    number of rounds; [None] when it runs out. *)
Fixpoint loop (fuel : nat) (t : top) : option (res unit * top) :=
  match fuel with
  | O => None
  | S fuel' =>
      match on_ui redraw t with
      | (Raise BreakLoop, t1) => Some (Ok tt, t1)
      | (Raise e, t1) => Some (Raise e, t1)
      | (Ok _, t1) =>
          match handle_input t1 with
          | (Raise BreakLoop, t2) => Some (Ok tt, t2)
          | (Raise e, t2) => Some (Raise e, t2)
          | (Ok _, t2) => loop fuel' (mkTop (keys_state t2) (idle (ui t2)))
          end
      end
  end.

End Dispatch.

(** *** [Top.init_keybindings] *)

(** The functions that [init_keybindings] defines, in the order of
    their definition. *)
Definition quit : nat := 0.
Definition auto_mode : nat := 1.
Definition full_mode : nat := 2.
Definition compact_mode : nat := 3.
Definition host_left : nat := 4.
Definition host_right : nat := 5.
Definition host_begin : nat := 6.
Definition host_end : nat := 7.
Definition select_up : nat := 8.
Definition select_down : nat := 9.
Definition select_clear : nat := 10.
Definition terminate : nat := 11.
Definition kill : nat := 12.
Definition interrupt : nat := 13.

(** A call on the key maps: it returns or raises, and an exception ends
    the calls that follow. *)
Definition step : Type := state -> option (res unit * state).

Definition and_then (m1 m2 : step) : step :=
  fun st =>
    match m1 st with
    | Some (Ok _, st') => m2 st'
    | other => other
    end.

Notation "m1 ;;; m2" := (and_then m1 m2) (at level 100, right associativity).

Definition keymaps_bind (context keys : string) (f : nat) : step :=
  fun st => Some (bind context keys (VLeaf (Action f)) st).
Definition keymaps_copy (context source target : string) : step :=
  copy context source target.
Definition keymaps_use_keymap (keymap_name : string) : step :=
  fun st => Some (Ok tt, use_keymap keymap_name st).

Definition init_keybindings : step :=
  keymaps_bind "root" "q" quit ;;;
  keymaps_copy "root" "q" "Q" ;;;
  keymaps_bind "root" "a" auto_mode ;;;
  keymaps_bind "root" "f" full_mode ;;;
  keymaps_bind "root" "c" compact_mode ;;;

  keymaps_bind "root" "<Left>" host_left ;;;
  keymaps_copy "root" "<Left>" "[" ;;;
  keymaps_bind "root" "<Right>" host_right ;;;
  keymaps_copy "root" "<Right>" "]" ;;;
  keymaps_bind "root" "<Home>" host_begin ;;;
  keymaps_copy "root" "<Home>" "<C-a>" ;;;
  keymaps_copy "root" "<Home>" "^" ;;;
  keymaps_bind "root" "<End>" host_end ;;;
  keymaps_copy "root" "<End>" "<C-e>" ;;;
  keymaps_copy "root" "<End>" "$" ;;;
  keymaps_bind "root" "<Up>" select_up ;;;
  keymaps_copy "root" "<Up>" "<S-Tab>" ;;;
  keymaps_bind "root" "<Down>" select_down ;;;
  keymaps_copy "root" "<Down>" "<Tab>" ;;;
  keymaps_bind "root" "<Esc>" select_clear ;;;

  keymaps_bind "root" "T" terminate ;;;
  keymaps_bind "root" "K" kill ;;;
  keymaps_bind "root" "<C-c>" interrupt ;;;
  keymaps_copy "root" "<C-c>" "I" ;;;

  keymaps_use_keymap "root".

(** A key buffer between two keys: parsing is not finished, and the
    pointer is on a node of a keymap that is set. *)
Definition awaiting (kb : KeyBuffer) : Prop :=
  is_Some (keymap kb) /\ finished_parsing kb = false /\ parse_error kb = false /\
  exists l, pointer kb = Some (VDict l).

(** The controller's key maps as [Top.__init__] leaves them:
    [KeyMaps(KeyBuffer())], then [init_keybindings]. *)
Definition default_keys : state :=
  match init_keybindings KeyMaps_init with
  | Some (_, st) => st
  | None => KeyMaps_init
  end.

(** The keys of [init_keybindings] and the functions they stand for,
    line by line. *)
Definition default_table : list (Z * nat) :=
  [ (ord "q", quit); (ord "Q", quit);
    (ord "a", auto_mode); (ord "f", full_mode); (ord "c", compact_mode);
    (curses.KEY_LEFT, host_left); (ord "[", host_left);
    (curses.KEY_RIGHT, host_right); (ord "]", host_right);
    (curses.KEY_HOME, host_begin); (1, host_begin); (ord "^", host_begin);
    (curses.KEY_END, host_end); (5, host_end); (ord "$", host_end);
    (curses.KEY_UP, select_up); (curses.KEY_BTAB, select_up);
    (curses.KEY_DOWN, select_down); (9, select_down);
    (curses.ESC, select_clear);
    (ord "T", terminate); (ord "K", kill);
    (3, interrupt); (ord "I", interrupt) ].

Definition default_action (key : Z) : option nat :=
  (list_to_map default_table : gmap Z nat) !! key.

(** What a call that returns [o] gives to its caller. *)
Definition outcome (o : option exn) : res unit :=
  match o with
  | None => Ok tt
  | Some e => Raise e
  end.

(** *** A controller to run *)

(** The rest of the controller as the keys that wait in the terminal
    and a count of the actions run; [quit] raises [BreakLoop], the
    panels take no key, drawing and resizing do nothing. *)
Module Console.

Definition console : Type := list Z * nat.

Definition getch (u : console) : Z * console :=
  match fst u with
  | [] => (-1, u)
  | key :: rest => (key, (rest, snd u))
  end.
Definition flushinp (u : console) : console := ([], snd u).
Definition invoke (a : nat) (u : console) : option exn * console :=
  if (a =? quit)%nat then (Some BreakLoop, u) else (None, (fst u, S (snd u))).
Definition container_press (key : Z) (u : console) : bool * console := (false, u).
Definition quiet (u : console) : option exn * console := (None, u).
Definition same (u : console) : console := u.

Definition handle_keys := handle_keys console invoke container_press.
Definition handle_input :=
  handle_input console invoke container_press getch flushinp same quiet quiet.
Definition loop :=
  loop console invoke container_press getch flushinp same quiet quiet quiet same.

(** The controller after [Top.__init__], with [waiting] typed. *)
Definition start (waiting : list Z) : Top.top console :=
  Top.mkTop console default_keys (waiting, 0%nat).

(** A controller with ["gg"] bound in the context [root]. *)
Definition with_gg (waiting : list Z) : Top.top console :=
  Top.mkTop console
    (use_keymap "root" (snd (bind "root" "gg" (VLeaf (Action auto_mode)) KeyMaps_init)))
    (waiting, 0%nat).

End Console.

End TopInput.

(** ** The process tree of [nvitop/api/host.py] *)

Module Host.

(** A [dict] with its items in the order of insertion: the
    [{pid: ppid}] that [ppid_map()] gives, and the [{ppid: [pid, ...]}]
    that [reverse_ppid_map] builds. *)
Fixpoint tree_get (tree : list (Z * list Z)) (ppid : Z) : option (list Z) :=
  match tree with
  | [] => None
  | (k, pids) :: rest => if k =? ppid then Some pids else tree_get rest ppid
  end.

(** [tree[ppid].append(pid)] on the [defaultdict(list)]: a missing
    [ppid] is entered with the empty list first. *)
Fixpoint append_to (tree : list (Z * list Z)) (ppid pid : Z) : list (Z * list Z) :=
  match tree with
  | [] => [(ppid, [pid])]
  | (k, pids) :: rest =>
      if k =? ppid then (k, pids ++ [pid]) :: rest
      else (k, pids) :: append_to rest ppid pid
  end.

(** [reverse_ppid_map], over the items of [ppid_map()]. *)
Definition reverse_ppid_map (items : list (Z * Z)) : list (Z * list Z) :=
  fold_left (fun tree item => append_to tree (snd item) (fst item)) items [].

End Host.

(** * Properties *)

(** ** The lexer *)

Module LexerFacts.

Import Lexer.

Lemma chr_ord c : chr (ord c) = c.
Proof. unfold chr, ord. rewrite Nat2Z.id. apply ascii_nat_embedding. Qed.

Lemma key_to_string_graphic c : is_graphic c = true -> key_to_string (ord c) = [c].
Proof.
  unfold is_graphic, key_to_string. intros ->. by rewrite chr_ord.
Qed.

(** Outside brackets, a text without ['<'] is lexed character by
    character. *)
Lemma parse_loop_plain (l : list ascii) bracket_content :
  forallb (fun c => negb (Ascii.eqb c "<"%char)) l = true ->
  parse_loop l false bracket_content = Ok (map ord l).
Proof.
  induction l as [|c l IH]; simpl; [done|].
  intros [Hc Hl]%andb_prop. apply negb_true_iff in Hc. rewrite Hc.
  by rewrite IH.
Qed.

Lemma construct_map_ord (l : list ascii) :
  forallb is_graphic l = true ->
  concat (map key_to_string (map ord l)) = l.
Proof.
  induction l as [|c l IH]; simpl; [done|].
  intros [Hc Hl]%andb_prop. rewrite key_to_string_graphic by done.
  simpl. by rewrite IH.
Qed.

(** C4, as stated, fails on the code: a blank is ASCII and no bracket,
    and [key_to_string] renders it by its name. *)
Lemma unparse_parse_space :
  ascii_without_brackets " " = true /\
  unparse_parse " " = Ok "<space>"%string /\
  unparse_parse " " <> Ok " "%string.
Proof. split; [reflexivity|]. split; [reflexivity|discriminate]. Qed.

(** C4, amended: for every text of graphic ASCII characters (codes 33 to
    126) without ['<'] and ['>'], [construct_keybinding] of
    [parse_keybinding] of the text is the text, character for
    character. *)
Theorem unparse_parse_graphic (text : string) :
  graphic_without_brackets text = true ->
  unparse_parse text = Ok text.
Proof.
  unfold graphic_without_brackets, unparse_parse, parse_keybinding, construct_keybinding.
  intros H.
  assert (Hlt : forallb (fun c => negb (Ascii.eqb c "<"%char)) (list_ascii_of_string text) = true).
  { apply forallb_forall. intros c Hc.
    eapply forallb_forall in H; [|exact Hc].
    apply andb_prop in H as [_ H]. unfold is_bracket in H.
    apply negb_true_iff, orb_false_elim in H as [-> _]. done. }
  assert (Hg : forallb is_graphic (list_ascii_of_string text) = true).
  { apply forallb_forall. intros c Hc.
    eapply forallb_forall in H; [|exact Hc].
    by apply andb_prop in H as [-> _]. }
  rewrite parse_loop_plain by done.
  rewrite construct_map_ord by done.
  by rewrite string_of_list_ascii_of_string.
Qed.

Lemma unparse_parse_graphic_witness :
  graphic_without_brackets "gg[a-b]!" = true /\
  unparse_parse "gg[a-b]!" = Ok "gg[a-b]!"%string.
Proof.
  split; [reflexivity|].
  apply (unparse_parse_graphic "gg[a-b]!"). reflexivity.
Defined.

(** C5 fails on the code at ["<lt>1>"]: the keys are those of ['<'],
    ['1'], ['>'], which [key_to_string] writes one by one as ["<1>"], and
    that text is the raw key code 1.  [construct_keybinding] is
    documented as the reverse of [parse_keybinding], and the table has
    the names [lt] and [gt]; the test for the range 33..126 comes first
    and keeps them from being used. *)
Theorem parse_unparse_parse_lt :
  parse_keybinding "<lt>1>" = Ok [60; 49; 62] /\
  unparse_parse "<lt>1>" = Ok "<1>"%string /\
  parse_unparse_parse "<lt>1>" = Ok [1] /\
  parse_unparse_parse "<lt>1>" <> parse_keybinding "<lt>1>".
Proof. split; [reflexivity|]. split; [reflexivity|]. split; [reflexivity|discriminate]. Qed.

End LexerFacts.

(** ** The key buffer *)

Module BufferFacts.

Import Lexer Store KeyBinding Sessions.

Lemma digits_spec (key : Z) : key ∈ DIGITS <-> 48 <= key <= 57.
Proof.
  unfold DIGITS. simpl. rewrite !elem_of_cons, elem_of_nil.
  change (ord "0") with 48. change (ord "1") with 49. change (ord "2") with 50.
  change (ord "3") with 51. change (ord "4") with 52. change (ord "5") with 53.
  change (ord "6") with 54. change (ord "7") with 55. change (ord "8") with 56.
  change (ord "9") with 57. lia.
Qed.

Lemma add_moved_inv h v kb :
  finished_parsing_quantifier kb = true ->
  (finished_parsing kb = true -> parse_error kb = true) ->
  finished_inv (add_moved h v kb).
Proof.
  intros Hq Hf. destruct v as [l|x]; unfold finished_inv; simpl.
  - intros Hfin. split; [done|]. left. auto.
  - intros _. split; [done|]. right. by exists x.
Qed.

Lemma add_preserves_inv h key kb kb' :
  finished_inv kb -> add h key kb = (Ok tt, kb') -> finished_inv kb'.
Proof.
  unfold add. intros Hinv. simpl.
  destruct (negb (finished_parsing_quantifier kb) && bool_decide (key ∈ DIGITS)) eqn:Hdig.
  - intros [= <-]. unfold finished_inv; simpl. intros Hfin.
    apply andb_prop in Hdig as [Hq _]. apply negb_true_iff in Hq.
    destruct (Hinv Hfin) as [Hq' _]. congruence.
  - destruct (pointer kb) as [[l|x]|] eqn:Hp; [|discriminate..].
    assert (Hpe : finished_parsing kb = true -> parse_error kb = true).
    { intros Hfin. destruct (Hinv Hfin) as [_ [Hpe|(x & Hx & _)]]; [done|congruence]. }
    destruct ((h !!! l : dict) !! key) as [v|].
    { intros [= <-]. by apply add_moved_inv. }
    destruct ((h !!! l : dict) !! any_key) as [v|].
    + destruct (bool_decide (key ∉ exclude_from_anykey)).
      * intros [= <-]. by apply add_moved_inv.
      * intros [= <-]. unfold finished_inv; simpl. auto.
    + intros [= <-]. unfold finished_inv; simpl. auto.
Qed.

Lemma reachable_ok_inv h km kb : reachable_ok h km kb -> finished_inv kb.
Proof.
  induction 1 as [|kb key kb' _ IH Hadd].
  - unfold finished_inv; simpl. discriminate.
  - by eapply add_preserves_inv.
Qed.

(** C3, as stated, fails on the code in both directions.  After [g] in a
    trie that binds ["g<bg>"], the buffer reports the passive leaf and is
    not finished: a set result does not imply parsing-finished.  After
    [x] twice in a trie that binds ["x"], the second [add] raises on the
    leaf the pointer sits on, and leaves a finished buffer with no result
    and no parse error: past a call that raises, parsing-finished does
    not imply a result or a parse error. *)
Lemma finished_iff_fails :
  let h := heap_of passive_session in
  let km := keymap (keybuffer passive_session) in
  (exists kb, reachable h km kb /\
     finished_parsing kb = false /\ result kb = Some (VLeaf (Action 1))) /\
  (exists kb, reachable h km kb /\
     finished_parsing kb = true /\ result kb = None /\ parse_error kb = false).
Proof.
  intros h km. split.
  - exists (snd (add h 103 (KeyBuffer_init h km))).
    split; [|split; reflexivity].
    eapply reachable_add; [apply reachable_fresh|reflexivity].
  - exists (snd (add h 120 (snd (add h 120 (KeyBuffer_init h km))))).
    split; [|repeat split; reflexivity].
    eapply reachable_add; [eapply reachable_add; [apply reachable_fresh|]|];
      reflexivity.
Qed.

(** Every run of [add] calls that return is a run of [add] calls. *)
Lemma reachable_ok_reachable h km kb : reachable_ok h km kb -> reachable h km kb.
Proof.
  induction 1 as [|kb key kb' _ IH Hadd]; [apply reachable_fresh|].
  apply (reachable_add h km kb key); [done|]. by rewrite Hadd.
Qed.

(** [add] sets the parse error, and moves the pointer to a leaf, only
    together with [finished_parsing], and never takes that flag back;
    this holds of a call that raises too. *)
Lemma add_keeps_flags h key kb :
  (parse_error kb = true -> finished_parsing kb = true) ->
  ((exists x, pointer kb = Some (VLeaf x)) -> finished_parsing kb = true) ->
  (parse_error (snd (add h key kb)) = true ->
   finished_parsing (snd (add h key kb)) = true) /\
  ((exists x, pointer (snd (add h key kb)) = Some (VLeaf x)) ->
   finished_parsing (snd (add h key kb)) = true).
Proof.
  intros Herr Hleaf.
  assert (Hmoved : forall v kb0,
            finished_parsing kb0 = finished_parsing kb ->
            parse_error kb0 = parse_error kb ->
            (parse_error (add_moved h v kb0) = true ->
             finished_parsing (add_moved h v kb0) = true) /\
            ((exists x, pointer (add_moved h v kb0) = Some (VLeaf x)) ->
             finished_parsing (add_moved h v kb0) = true)).
  { intros [l|x] kb0 Hf He; cbn [add_moved parse_error finished_parsing pointer].
    - rewrite Hf, He. split; [done|]. by intros [x [=]].
    - done. }
  unfold add. cbv zeta. cbn [finished_parsing_quantifier pointer].
  destruct (negb (finished_parsing_quantifier kb) && bool_decide (key ∈ DIGITS)).
  { cbn [snd parse_error finished_parsing pointer]. done. }
  destruct (pointer kb) as [[l|x]|] eqn:Hp;
    [|cbn [snd parse_error finished_parsing pointer]; rewrite ?Hp; done..].
  destruct ((h !!! l : dict) !! key) as [v|]; [by apply Hmoved|].
  destruct ((h !!! l : dict) !! any_key) as [v|]; [|by cbn].
  destruct (bool_decide (key ∉ exclude_from_anykey)); [by apply Hmoved|by cbn].
Qed.

Lemma reachable_flags h km kb :
  reachable h km kb ->
  (parse_error kb = true -> finished_parsing kb = true) /\
  ((exists x, pointer kb = Some (VLeaf x)) -> finished_parsing kb = true).
Proof.
  induction 1 as [|kb key kb' _ [IHe IHl] ->].
  - cbn [KeyBuffer_init parse_error pointer]. split; [done|].
    intros [x Hx]. by destruct km.
  - by apply add_keeps_flags.
Qed.

(** C3, amended.  In every buffer that [add] calls which return lead to
    from a fresh buffer, parsing is finished exactly when the parse-error
    flag is true or the result is the leaf that the pointer has reached;
    so parsing-finished implies that a result is set or the parse-error
    flag is true.  The parse-error flag implies parsing-finished after
    calls that raise as well.  What the claim has beyond this, that a
    set result implies parsing-finished, is what fails: the result of a
    passive leaf at a node leaves the buffer open. *)
Theorem finished_iff_error_or_final_leaf h km kb :
  (reachable_ok h km kb ->
   (finished_parsing kb = true <->
    parse_error kb = true \/
    exists x, pointer kb = Some (VLeaf x) /\ result kb = Some (VLeaf x)) /\
   (finished_parsing kb = true -> result kb <> None \/ parse_error kb = true)) /\
  (reachable h km kb -> parse_error kb = true -> finished_parsing kb = true).
Proof.
  split.
  - intros Hr. pose proof (reachable_ok_inv _ _ _ Hr) as Hinv.
    destruct (reachable_flags _ _ _ (reachable_ok_reachable _ _ _ Hr)) as [Herr Hleaf].
    split; [split|].
    + intros Hfin. by destruct (Hinv Hfin) as [_ H].
    + intros [Hpe|(x & Hx & _)]; [by apply Herr|]. apply Hleaf. by exists x.
    + intros Hfin. destruct (Hinv Hfin) as [_ [Hpe|(x & _ & Hx)]].
      * by right.
      * left. by rewrite Hx.
  - intros Hr. by apply reachable_flags in Hr as [Herr _].
Qed.

Lemma finished_iff_error_or_final_leaf_witness :
  let h := heap_of passive_session in
  let km := keymap (keybuffer passive_session) in
  let on_leaf := snd (add h 120 (KeyBuffer_init h km)) in
  let dead_end := snd (add h 122 (KeyBuffer_init h km)) in
  (finished_parsing on_leaf = true /\ parse_error on_leaf = false /\
   exists x, pointer on_leaf = Some (VLeaf x) /\ result on_leaf = Some (VLeaf x)) /\
  (parse_error dead_end = true /\ finished_parsing dead_end = true).
Proof.
  intros h km on_leaf dead_end.
  assert (Hleaf : reachable_ok h km on_leaf).
  { apply (reachable_ok_add h km (KeyBuffer_init h km) 120 on_leaf);
      [apply reachable_ok_fresh|]. vm_compute. reflexivity. }
  assert (Hdead : reachable h km dead_end).
  { apply (reachable_add h km (KeyBuffer_init h km) 122 dead_end);
      [apply reachable_fresh|reflexivity]. }
  destruct (finished_iff_error_or_final_leaf h km on_leaf) as [Hok _].
  destruct (Hok Hleaf) as [[Hfin _] _].
  destruct (finished_iff_error_or_final_leaf h km dead_end) as [_ Hall].
  split.
  - split; [reflexivity|]. split; [reflexivity|].
    destruct (Hfin eq_refl) as [Hpe|Hx]; [discriminate Hpe|exact Hx].
  - split; [reflexivity|]. apply (Hall Hdead). reflexivity.
Defined.


(** C7: [use_keymap] of the context that is already in use leaves the
    consumed keys, the wildcards, the quantifier, the trie pointer, the
    result and the three flags of the key buffer as they are; [use_keymap]
    of a context with another name than the one in use leaves a cleared
    buffer, that is a fresh one over the keymap it was given. *)
Theorem use_keymap_clears_on_change (keymap_name : string) (st : state) :
  let st' := use_keymap keymap_name st in
  let kb := keybuffer st in
  let kb' := keybuffer st' in
  (used_keymap st = Some keymap_name ->
     keys kb' = keys kb /\ wildcards kb' = wildcards kb /\
     quantifier kb' = quantifier kb /\ pointer kb' = pointer kb /\
     result kb' = result kb /\
     finished_parsing_quantifier kb' = finished_parsing_quantifier kb /\
     finished_parsing kb' = finished_parsing kb /\
     parse_error kb' = parse_error kb /\
     used_keymap st' = Some keymap_name) /\
  (used_keymap st <> Some keymap_name ->
     kb' = KeyBuffer_init (heap_of st') (keymap kb') /\
     keys kb' = [] /\ wildcards kb' = [] /\ quantifier kb' = None /\
     pointer kb' = VDict <$> keymap kb' /\
     used_keymap st' = Some keymap_name).
Proof.
  unfold use_keymap, alloc. simpl. split; intros Hused.
  - rewrite bool_decide_eq_false_2 by (intros Hne; by apply Hne).
    simpl. by rewrite Hused.
  - rewrite bool_decide_eq_true_2 by done. simpl. done.
Qed.

Lemma use_keymap_clears_on_change_witness :
  used_keymap pending_session = Some "root"%string /\
  keys (keybuffer (use_keymap "root" pending_session)) = [103] /\
  used_keymap pending_session <> Some "other"%string /\
  keys (keybuffer (use_keymap "other" pending_session)) = [].
Proof.
  split; [reflexivity|]. split.
  - pose proof (proj1 (use_keymap_clears_on_change "root" pending_session) eq_refl) as H.
    simpl in H. destruct H as [H _]. rewrite H. reflexivity.
  - assert (Hne : used_keymap pending_session <> Some "other"%string) by discriminate.
    split; [exact Hne|].
    pose proof (proj2 (use_keymap_clears_on_change "other" pending_session) Hne) as H.
    simpl in H. destruct H as (_ & H & _). exact H.
Defined.

(** [add] of a digit while quantifier parsing is open. *)
Lemma add_digit h kb d :
  finished_parsing_quantifier kb = false -> d ∈ DIGITS ->
  add h d kb =
    (Ok tt,
     {| keymap := keymap kb; keys := keys kb ++ [d]; wildcards := wildcards kb;
        pointer := pointer kb; result := None;
        quantifier := Some (default 0 (quantifier kb) * 10 + d - 48);
        finished_parsing_quantifier := false;
        finished_parsing := finished_parsing kb;
        parse_error := parse_error kb |}).
Proof.
  intros Hq Hd. unfold add; simpl. rewrite Hq.
  rewrite bool_decide_eq_true_2 by done. simpl.
  by destruct (quantifier kb).
Qed.

(** [add] of a key that the node under the pointer binds, once the
    quantifier is out of the way. *)
Lemma add_bound h kb k l v :
  finished_parsing_quantifier kb = true \/ k ∉ DIGITS ->
  pointer kb = Some (VDict l) ->
  (h !!! l : dict) !! k = Some v ->
  add h k kb =
    (Ok tt,
     add_moved h v
       {| keymap := keymap kb; keys := keys kb ++ [k]; wildcards := wildcards kb;
          pointer := pointer kb; result := None; quantifier := quantifier kb;
          finished_parsing_quantifier := true;
          finished_parsing := finished_parsing kb;
          parse_error := parse_error kb |}).
Proof.
  intros Hq Hp Hv. unfold add; simpl.
  assert (negb (finished_parsing_quantifier kb) && bool_decide (k ∈ DIGITS) = false) as ->.
  { destruct Hq as [->|Hk]; [done|].
    rewrite (bool_decide_eq_false_2 _ Hk). apply andb_false_r. }
  rewrite Hp, Hv. done.
Qed.

(** C8: while quantifier parsing is open, a digit key is folded into the
    quantifier in base 10, from 0 when it was unset, and nothing else but
    the key log and the result changes; so a fresh buffer over a trie
    that has not switched quantifiers off holds 12 after the keys 1, 2
    and a key bound to a leaf, together with that leaf as result.  Over a
    trie whose quantifier key holds ['false'], a fresh buffer is created
    with quantifier parsing finished and a bound digit key moves the
    pointer like any other key, the quantifier staying unset. *)
Theorem quantifier_accumulates :
  (forall h kb d,
      finished_parsing_quantifier kb = false -> d ∈ DIGITS ->
      add h d kb =
        (Ok tt,
         {| keymap := keymap kb; keys := keys kb ++ [d]; wildcards := wildcards kb;
            pointer := pointer kb; result := None;
            quantifier := Some (default 0 (quantifier kb) * 10 + d - 48);
            finished_parsing_quantifier := false;
            finished_parsing := finished_parsing kb;
            parse_error := parse_error kb |})) /\
  (forall (h : heap) l k x,
      finished_parsing_quantifier (KeyBuffer_init h (Some l)) = false ->
      k ∉ DIGITS ->
      (h !!! l : dict) !! k = Some (VLeaf x) ->
      let kb := snd (add h k (snd (add h 50 (snd (add h 49 (KeyBuffer_init h (Some l))))))) in
      quantifier kb = Some 12 /\ result kb = Some (VLeaf x) /\
      finished_parsing kb = true /\ parse_error kb = false /\ keys kb = [49; 50; k]) /\
  (forall (h : heap) l d v,
      (h !!! l : dict) !! quantifier_key = Some (VLeaf (Str "false")) ->
      d ∈ DIGITS ->
      (h !!! l : dict) !! d = Some v ->
      let kb0 := KeyBuffer_init h (Some l) in
      finished_parsing_quantifier kb0 = true /\
      fst (add h d kb0) = Ok tt /\
      pointer (snd (add h d kb0)) = Some v /\
      quantifier (snd (add h d kb0)) = None).
Proof.
  split; [|split].
  - apply add_digit.
  - intros h l k x Hq Hk Hx.
    assert (H1 : 49 ∈ DIGITS) by (apply digits_spec; lia).
    assert (H2 : 50 ∈ DIGITS) by (apply digits_spec; lia).
    rewrite (add_digit h _ 49 Hq H1). cbn [snd].
    rewrite (add_digit h _ 50) by done. cbn [snd].
    erewrite add_bound; [|by right|reflexivity|exact Hx].
    simpl. done.
  - intros h l d v Hqk Hd Hv. cbn zeta.
    assert (Hfq : finished_parsing_quantifier (KeyBuffer_init h (Some l)) = true).
    { unfold KeyBuffer_init, truthy. cbn [finished_parsing_quantifier].
      rewrite Hqk. apply andb_true_intro. split.
      - apply negb_true_iff, bool_decide_eq_false_2.
        intros He. rewrite He in Hqk. by rewrite lookup_empty in Hqk.
      - by apply bool_decide_eq_true_2. }
    split; [exact Hfq|].
    erewrite add_bound; [|by left|reflexivity|exact Hv].
    by destruct v.
Qed.

Lemma quantifier_accumulates_witness :
  let h := heap_of counting_session in
  let kb := snd (add h 120 (snd (add h 50 (snd (add h 49 (keybuffer counting_session)))))) in
  let h' := heap_of plain_digit_session in
  quantifier (snd (add h 49 (keybuffer counting_session))) = Some 1 /\
  (quantifier kb = Some 12 /\ result kb = Some (VLeaf (Action 7))) /\
  (pointer (snd (add h' 49 (keybuffer plain_digit_session))) = Some (VLeaf (Action 8)) /\
   quantifier (snd (add h' 49 (keybuffer plain_digit_session))) = None).
Proof.
  intros h kb h'.
  destruct quantifier_accumulates as (H1 & H2 & H3).
  split; [|split].
  - rewrite (H1 h (keybuffer counting_session) 49); [reflexivity|reflexivity|].
    apply digits_spec. lia.
  - assert (Hk : 120 ∉ DIGITS) by (rewrite digits_spec; lia).
    destruct (H2 h 1%positive 120 (Action 7) eq_refl Hk eq_refl) as (Ha & Hb & _).
    split; [exact Ha|exact Hb].
  - assert (Hd : 49 ∈ DIGITS) by (rewrite digits_spec; lia).
    destruct (H3 h' 1%positive 49 (VLeaf (Action 8)) eq_refl Hd eq_refl) as (_ & _ & Ha & Hb).
    split; [exact Ha|exact Hb].
Defined.

End BufferFacts.

(** ** Binding and the key buffer *)

Module BindFacts.

Import Lexer Store KeyBinding BufferFacts.

Lemma context_root_lookup context st :
  contexts (snd (context_root context st)) !! context = Some (fst (context_root context st)).
Proof.
  unfold context_root. destruct (contexts st !! context) as [l|] eqn:Hl; simpl; [done|].
  apply lookup_insert_eq.
Qed.

Lemma context_root_present context st l :
  contexts st !! context = Some l -> context_root context st = (l, st).
Proof. unfold context_root. by intros ->. Qed.

Lemma bind_from_one k pointer leaf (h : heap) :
  bind_from [k] pointer leaf h = setitem pointer k leaf h.
Proof. done. Qed.

Lemma bind_from_cons k k' ks pointer leaf (h : heap) :
  bind_from (k :: k' :: ks) pointer leaf h =
    match (h !!! pointer : dict) !! k with
    | Some (VDict l) => bind_from (k' :: ks) l leaf h
    | Some (VLeaf _) | None =>
        bind_from (k' :: ks) (new_loc h) leaf
          (setitem pointer k (VDict (new_loc h)) (<[new_loc h := ∅]> h))
    end.
Proof.
  unfold bind_from.
  change (List.removelast (k :: k' :: ks)) with (k :: List.removelast (k' :: ks)).
  change (List.last (k :: k' :: ks) 0) with (List.last (k' :: ks) 0).
  cbn [bind_walk]. unfold alloc.
  by destruct ((h !!! pointer : dict) !! k) as [[l|x]|].
Qed.

(** [bind] of a text that lexes to at least one key. *)
Lemma bind_nonempty context keys k ks leaf st :
  parse_keybinding keys = Ok (k :: ks) ->
  bind context keys leaf st =
    (Ok tt,
     let root := fst (context_root context st) in
     let st1 := snd (context_root context st) in
     set_heap (bind_from (k :: ks) root leaf (heap_of st1)) st1).
Proof.
  intros Hp. unfold bind, _clean_input. rewrite Hp.
  by destruct (context_root context st) as [root st1].
Qed.

Lemma setitem_lookup pointer key v (h : heap) :
  (setitem pointer key v h !!! pointer : dict) !! key = Some v.
Proof. unfold setitem. rewrite lookup_total_insert_eq. apply lookup_insert_eq. Qed.

(** [add] on a buffer whose pointer sits on a leaf: [key in self.pointer]
    raises. *)
Lemma add_on_leaf h kb key x :
  finished_parsing_quantifier kb = true ->
  pointer kb = Some (VLeaf x) ->
  fst (add h key kb) = Raise TypeError /\
  result (snd (add h key kb)) = None /\
  finished_parsing (snd (add h key kb)) = finished_parsing kb.
Proof.
  intros Hq Hp. unfold add; simpl. rewrite Hq, Hp. simpl. done.
Qed.

(** C2, as stated, fails on the code: with ["gg"] bound to action 1 and
    then ["g"] to action 2 in [root], the first [g] fed to a fresh buffer
    matches action 2 and finishes, and the second [g] raises with no
    result: action 1 is not matched. *)
Lemma gg_then_g_matches_g :
  let st := snd (bind "root" "g" (VLeaf (Action 2))
                  (snd (bind "root" "gg" (VLeaf (Action 1)) KeyMaps_init))) in
  let h := heap_of st in
  let kb1 := snd (add h 103 (KeyBuffer_init h (contexts st !! "root"))) in
  let kb2 := snd (add h 103 kb1) in
  result kb1 = Some (VLeaf (Action 2)) /\ finished_parsing kb1 = true /\
  fst (add h 103 kb1) = Raise TypeError /\ result kb2 = None /\
  result kb1 <> Some (VLeaf (Action 1)) /\ result kb2 <> Some (VLeaf (Action 1)).
Proof. vm_compute. repeat split; discriminate. Qed.

(** C2, amended: after binding ["gg"] to an action A and then ["g"] to an
    action B in one context, the later bind has put B in the slot that
    led to ["gg"] (the last bind wins).  A fresh buffer over that context
    matches B on the first [g], with parsing finished, whatever key
    follows; a second key added to that buffer raises and leaves no
    result, so A is never matched, and never both A and B. *)
Theorem gg_then_g_last_bind_wins (context : string) (a b : leaf) (st : state) :
  let st2 := snd (bind context "g" (VLeaf b) (snd (bind context "gg" (VLeaf a) st))) in
  let h := heap_of st2 in
  exists root,
    contexts st2 !! context = Some root /\
    (h !!! root : dict) !! 103 = Some (VLeaf b) /\
    let kb1 := snd (add h 103 (KeyBuffer_init h (Some root))) in
    fst (add h 103 (KeyBuffer_init h (Some root))) = Ok tt /\
    result kb1 = Some (VLeaf b) /\ finished_parsing kb1 = true /\
    parse_error kb1 = false /\
    forall key,
      fst (add h key kb1) = Raise TypeError /\ result (snd (add h key kb1)) = None.
Proof.
  intros st2 h.
  assert (Hgg : parse_keybinding "gg" = Ok [103; 103]) by reflexivity.
  assert (Hg : parse_keybinding "g" = Ok [103]) by reflexivity.
  subst h st2.
  rewrite (bind_nonempty context "gg" _ _ (VLeaf a) st Hgg). cbn [snd].
  set (st1 := set_heap _ _).
  assert (Hroot : contexts st1 !! context = Some (fst (context_root context st))).
  { subst st1. unfold set_heap. cbn [contexts]. apply context_root_lookup. }
  rewrite (bind_nonempty context "g" _ _ (VLeaf b) st1 Hg). cbn [snd].
  rewrite (context_root_present _ _ _ Hroot). cbn [fst snd]. rewrite bind_from_one.
  set (root := fst (context_root context st)) in *.
  exists root. unfold set_heap. cbn [contexts heap_of].
  split; [exact Hroot|].
  set (h := setitem root 103 (VLeaf b) (heap_of st1)).
  assert (Hb : (h !!! root : dict) !! 103 = Some (VLeaf b)) by apply setitem_lookup.
  split; [exact Hb|].
  assert (Hnd : 103 ∉ DIGITS) by (rewrite digits_spec; lia).
  erewrite add_bound; [|by right|reflexivity|exact Hb].
  cbn [fst snd add_moved result finished_parsing parse_error].
  do 4 (split; [done|]).
  intros key.
  match goal with |- context [add h key ?kb] =>
    destruct (add_on_leaf h kb key b eq_refl eq_refl) as (H1 & H2 & _) end.
  split; [exact H1|exact H2].
Qed.

End BindFacts.

(** ** Tries in the store *)

Module TrieFacts.

Import Lexer Store KeyBinding BufferFacts BindFacts.

Lemma new_loc_fresh (h : heap) : h !! new_loc h = None.
Proof. apply not_elem_of_dom. unfold new_loc. apply is_fresh. Qed.

Lemma new_loc_ne (h : heap) l : is_Some (h !! l) -> l <> new_loc h.
Proof. intros [d Hd] ->. by rewrite new_loc_fresh in Hd. Qed.

Lemma setitem_eq pointer key v (h : heap) :
  setitem pointer key v h !! pointer = Some (<[key := v]> (h !!! pointer)).
Proof. unfold setitem. apply lookup_insert_eq. Qed.

Lemma setitem_ne pointer key v (h : heap) l :
  l <> pointer -> setitem pointer key v h !! l = h !! l.
Proof. intros Hne. unfold setitem. by apply lookup_insert_ne. Qed.

Lemma delitem_eq pointer key (h : heap) :
  delitem pointer key h !! pointer = Some (delete key (h !!! pointer)).
Proof. unfold delitem. apply lookup_insert_eq. Qed.

Lemma delitem_ne pointer key (h : heap) l :
  l <> pointer -> delitem pointer key h !! l = h !! l.
Proof. intros Hne. unfold delitem. by apply lookup_insert_ne. Qed.

Lemma lookup_total_Some (h : heap) l d : h !! l = Some d -> h !!! l = d.
Proof. apply lookup_total_correct. Qed.

(** Binding a key sequence from an empty node and unbinding it again
    from that node: the node is empty again, and no object that was in
    the store before has changed on the way. *)
Lemma bind_unbind_from_empty (ks : list Z) : forall (k : Z) (h : heap) (l : loc) (x : leaf),
  h !! l = Some ∅ ->
  let h1 := bind_from (k :: ks) l (VLeaf x) h in
  (forall l', is_Some (h !! l') -> l' <> l -> h1 !! l' = h !! l') /\
  is_Some (h1 !! l) /\
  exists h2,
    _unbind_traverse (VDict l) (k :: ks) h1 = (Ok tt, h2) /\
    h2 !! l = Some ∅ /\
    (forall l', is_Some (h !! l') -> l' <> l -> h2 !! l' = h !! l').
Proof.
  induction ks as [|k' ks IH]; intros k h l x Hl; cbv zeta.
  - rewrite bind_from_one.
    split; [intros l' _ Hne; by apply setitem_ne|].
    split; [rewrite setitem_eq; eauto|].
    cbn [_unbind_traverse]. rewrite setitem_lookup.
    eexists. split; [reflexivity|]. split.
    + rewrite delitem_eq. f_equal. rewrite (lookup_total_Some _ _ _ (setitem_eq _ _ _ _)).
      rewrite (lookup_total_Some _ _ _ Hl). by rewrite delete_insert_eq, delete_empty.
    + intros l' _ Hne. by rewrite delitem_ne, setitem_ne.
  - rewrite bind_from_cons. rewrite (lookup_total_Some _ _ _ Hl), lookup_empty.
    set (l1 := new_loc h).
    set (h' := setitem l k (VDict l1) (<[l1 := ∅]> h)).
    assert (Hne1 : l <> l1) by (apply new_loc_ne; eauto).
    assert (Hl1 : h' !! l1 = Some ∅).
    { subst h'. rewrite setitem_ne by done. apply lookup_insert_eq. }
    assert (Hl' : h' !! l = Some {[k := VDict l1]}).
    { subst h'. rewrite setitem_eq. f_equal.
      rewrite lookup_total_insert_ne by done.
      by rewrite (lookup_total_Some _ _ _ Hl). }
    assert (Hframe : forall l', is_Some (h !! l') -> l' <> l -> h' !! l' = h !! l').
    { intros l' Hin Hne. subst h'. rewrite setitem_ne by done.
      apply lookup_insert_ne. intros <-. by apply (new_loc_ne h l1). }
    pose proof (IH k' h' l1 x Hl1) as IH'. cbv zeta in IH'.
    destruct IH' as (Hb & Hs & h2' & Hun & He & Hu).
    set (h1 := bind_from _ l1 _ h') in *.
    assert (Hh1l : h1 !! l = Some {[k := VDict l1]}).
    { rewrite Hb; [done|rewrite Hl'; eauto|done]. }
    split; [|split].
    + intros l' Hin Hne. rewrite Hb.
      * by apply Hframe.
      * rewrite Hframe by done. done.
      * intros ->. by apply (new_loc_ne h l1).
    + rewrite Hh1l. eauto.
    + cbn [_unbind_traverse]. rewrite (lookup_total_Some _ _ _ Hh1l), lookup_singleton_eq.
      cbn [_unbind_traverse] in Hun. rewrite Hun.
      assert (Hh2l : h2' !! l = Some {[k := VDict l1]}).
      { rewrite Hu; [done|rewrite Hl'; eauto|done]. }
      rewrite (lookup_total_Some _ _ _ Hh2l), lookup_singleton_eq.
      unfold truthy. rewrite (lookup_total_Some _ _ _ He).
      rewrite bool_decide_eq_true_2 by done. cbn [negb].
      eexists. split; [reflexivity|]. split.
      * rewrite delitem_eq, (lookup_total_Some _ _ _ Hh2l). by rewrite delete_singleton_eq.
      * intros l' Hin Hne. rewrite delitem_ne by done. rewrite Hu.
        -- by apply Hframe.
        -- rewrite Hframe by done. done.
        -- intros ->. by apply (new_loc_ne h l1).
Qed.

(** [unbind] of a text that lexes to at least one key. *)
Lemma unbind_nonempty context keys k ks st :
  parse_keybinding keys = Ok (k :: ks) ->
  unbind context keys st =
    (let root := fst (context_root context st) in
     let st1 := snd (context_root context st) in
     let rh := _unbind_traverse (VDict root) (k :: ks) (heap_of st1) in
     (fst rh, set_heap (snd rh) st1)).
Proof.
  intros Hp. unfold unbind, _clean_input. rewrite Hp.
  destruct (context_root context st) as [root st1]. cbn [fst snd].
  by destruct (_unbind_traverse _ _ (heap_of st1)).
Qed.

Lemma bind_unbind_empty_text context keys v st :
  parse_keybinding keys = Ok [] ->
  bind context keys v st = (Ok tt, snd (context_root context st)) /\
  unbind context keys st = (Ok tt, snd (context_root context st)).
Proof.
  intros Hp. unfold bind, unbind, _clean_input. rewrite Hp.
  by destruct (context_root context st).
Qed.

(** The root of a context that is new or empty is an empty node of the
    store once [_clean_input] has looked it up. *)
Lemma context_root_empty context st :
  contexts st !! context = None \/
  (exists l, contexts st !! context = Some l /\ heap_of st !! l = Some ∅) ->
  heap_of (snd (context_root context st)) !! fst (context_root context st) = Some ∅.
Proof.
  unfold context_root. intros [Hn|(l & Hl & He)].
  - rewrite Hn. unfold alloc. cbn. apply lookup_insert_eq.
  - by rewrite Hl.
Qed.

(** Binding a key sequence from an empty node: the sequence leads to
    the leaf, through the nodes that [bind] has made. *)
Lemma bind_from_empty_lookup (ks : list Z) : forall (k : Z) (h : heap) (l : loc) (x : leaf),
  h !! l = Some ∅ ->
  lookup_path (bind_from (k :: ks) l (VLeaf x) h) (VDict l) (k :: ks) = Some (VLeaf x).
Proof.
  induction ks as [|k' ks IH]; intros k h l x Hl.
  - rewrite bind_from_one. cbn [lookup_path]. by rewrite setitem_lookup.
  - rewrite bind_from_cons. rewrite (lookup_total_Some _ _ _ Hl), lookup_empty.
    set (l1 := new_loc h).
    set (h' := setitem l k (VDict l1) (<[l1 := ∅]> h)).
    assert (Hne1 : l <> l1) by (apply new_loc_ne; eauto).
    assert (Hl1 : h' !! l1 = Some ∅).
    { subst h'. rewrite setitem_ne by done. apply lookup_insert_eq. }
    assert (Hl' : h' !! l = Some {[k := VDict l1]}).
    { subst h'. rewrite setitem_eq. f_equal.
      rewrite lookup_total_insert_ne by done.
      by rewrite (lookup_total_Some _ _ _ Hl). }
    destruct (bind_unbind_from_empty ks k' h' l1 x Hl1) as (Hb & _).
    cbn [lookup_path].
    rewrite (lookup_total_Some _ _ {[k := VDict l1]}).
    + rewrite lookup_singleton_eq. by apply IH.
    + rewrite Hb; [done|rewrite Hl'; eauto|done].
Qed.

(** The nodes on the way to a value that a key sequence leads to. *)
Lemma lookup_path_prefix (h : heap) pre : forall v suf u,
  lookup_path h v (pre ++ suf) = Some u -> suf <> [] ->
  exists l, lookup_path h v pre = Some (VDict l).
Proof.
  induction pre as [|a pre IH]; intros v suf u Hpath Hsuf.
  - destruct suf as [|b suf]; [done|]. cbn [app lookup_path] in *.
    destruct v as [l|x]; [by exists l|done].
  - cbn [app lookup_path] in *. destruct v as [l|x]; [|done].
    destruct ((h !!! l : dict) !! a) as [w|]; [|done]. by eapply IH.
Qed.

(** C9: a key sequence bound into a context that is new or empty, and
    then unbound at that exact sequence.  After [bind] the sequence
    leads to the leaf, through a node under every proper prefix of it;
    after [unbind] the root of the context is empty, so that no key
    sequence leads anywhere: the leaf is removed and every node made for
    the sequence has been pruned on the way back.  Both calls return. *)
Theorem bind_then_unbind_leaves_empty_trie
    (context keys : string) (ks : list Z) (x : leaf) (st : state) :
  parse_keybinding keys = Ok ks -> ks <> [] ->
  contexts st !! context = None \/
  (exists l, contexts st !! context = Some l /\ heap_of st !! l = Some ∅) ->
  let bound := bind context keys (VLeaf x) st in
  let unbound := unbind context keys (snd bound) in
  fst bound = Ok tt /\ fst unbound = Ok tt /\
  exists root,
    contexts (snd bound) !! context = Some root /\
    lookup_path (heap_of (snd bound)) (VDict root) ks = Some (VLeaf x) /\
    (forall pre suf, ks = pre ++ suf -> suf <> [] ->
       exists l, lookup_path (heap_of (snd bound)) (VDict root) pre = Some (VDict l)) /\
    contexts (snd unbound) !! context = Some root /\
    heap_of (snd unbound) !! root = Some ∅ /\
    (forall q, q <> [] -> lookup_path (heap_of (snd unbound)) (VDict root) q = None).
Proof.
  intros Hp Hne Hctx bound unbound. subst bound unbound.
  pose proof (context_root_empty context st Hctx) as Hroot.
  pose proof (context_root_lookup context st) as Hlook.
  destruct ks as [|k ks]; [done|].
  rewrite (bind_nonempty context keys k ks _ st Hp). cbn [fst snd].
  set (root := fst (context_root context st)) in *.
  set (st1 := snd (context_root context st)) in *.
  cbv zeta.
  destruct (bind_unbind_from_empty ks k (heap_of st1) root x Hroot)
    as (_ & _ & h2 & Hun & He & _).
  pose proof (bind_from_empty_lookup ks k (heap_of st1) root x Hroot) as Hleaf.
  cbv zeta in Hun.
  set (h1 := bind_from _ _ _ _) in *.
  assert (Hc : contexts (set_heap h1 st1) !! context = Some root) by done.
  rewrite (unbind_nonempty context keys k ks _ Hp).
  rewrite (context_root_present _ _ _ Hc). cbn [fst snd set_heap heap_of].
  rewrite Hun. cbn [fst snd contexts heap_of].
  split; [done|]. split; [done|]. exists root.
  split; [done|]. split; [done|]. split; [|split; [done|split; [done|]]].
  - intros pre suf Heq Hsuf. rewrite Heq in Hleaf. by eapply lookup_path_prefix.
  - intros [|a q] Hq; [done|]. cbn [lookup_path].
    by rewrite (lookup_total_Some _ _ _ He), lookup_empty.
Qed.

Lemma bind_then_unbind_leaves_empty_trie_witness :
  let bound := bind "root" "abc" (VLeaf (Action 1)) KeyMaps_init in
  let unbound := unbind "root" "abc" (snd bound) in
  fst bound = Ok tt /\ fst unbound = Ok tt /\
  exists root,
    contexts (snd bound) !! "root"%string = Some root /\
    lookup_path (heap_of (snd bound)) (VDict root) [97; 98; 99] = Some (VLeaf (Action 1)) /\
    (exists l, lookup_path (heap_of (snd bound)) (VDict root) [97; 98] = Some (VDict l)) /\
    contexts (snd unbound) !! "root"%string = Some root /\
    heap_of (snd unbound) !! root = Some ∅ /\
    lookup_path (heap_of (snd unbound)) (VDict root) [97] = None.
Proof.
  intros bound unbound.
  destruct (bind_then_unbind_leaves_empty_trie "root" "abc" [97; 98; 99] (Action 1)
              KeyMaps_init eq_refl ltac:(discriminate) (or_introl eq_refl))
    as (Hb & Hu & root & Hc & Hleaf & Hnodes & Hc' & Hempty & Hnone).
  split; [exact Hb|]. split; [exact Hu|]. exists root.
  split; [exact Hc|]. split; [exact Hleaf|].
  split; [exact (Hnodes [97; 98] [99] eq_refl ltac:(discriminate))|].
  split; [exact Hc'|]. split; [exact Hempty|].
  exact (Hnone [97] ltac:(discriminate)).
Defined.

(** C1 fails on the code where the sequence runs past a leaf: with
    ["q"] bound to a leaf, [unbind] of ["qq"] reaches the leaf and
    [keys[pos] not in pointer] raises [TypeError] on it, before the test
    [isinstance(pointer, dict)] two lines below is reached.  The store is
    left as it was. *)
Theorem unbind_past_leaf_raises (context : string) (x : leaf) (st : state) :
  let st1 := snd (bind context "q" (VLeaf x) st) in
  fst (unbind context "qq" st1) = Raise TypeError /\
  heap_of (snd (unbind context "qq" st1)) = heap_of st1.
Proof.
  intros st1.
  assert (Hq : parse_keybinding "q" = Ok [113]) by reflexivity.
  assert (Hqq : parse_keybinding "qq" = Ok [113; 113]) by reflexivity.
  subst st1. rewrite (bind_nonempty context "q" _ _ (VLeaf x) st Hq). cbn [snd].
  rewrite bind_from_one.
  set (root := fst (context_root context st)).
  set (st1 := set_heap _ _).
  assert (Hc : contexts st1 !! context = Some root) by apply context_root_lookup.
  rewrite (unbind_nonempty context "qq" _ _ st1 Hqq).
  rewrite (context_root_present _ _ _ Hc). cbn [fst snd].
  subst st1. unfold set_heap at 1 3 4. cbn [heap_of].
  cbn [_unbind_traverse]. rewrite setitem_lookup. done.
Qed.

End TrieFacts.

(** ** Trees in the store: ownership and framing *)

Module ShapeFacts.

Import Lexer Store KeyBinding BufferFacts BindFacts TrieFacts.

Lemma owns_weaken (h : heap) v F F' : owns h v F -> F ⊆ F' -> owns h v F'.
Proof.
  intros Hown Hsub. destruct Hown as [x F|l d Fs F Hl Hin Hch Hfs Hdisj].
  - constructor.
  - apply (owns_dict h l d Fs F'); [done|set_solver|done| |done].
    intros k v Hk. specialize (Hfs k v Hk). set_solver.
Qed.

(** A tree is the same tree in any store that agrees on its locations. *)
Lemma owns_frame (h h' : heap) v F :
  owns h v F -> (forall l, l ∈ F -> h' !! l = h !! l) -> owns h' v F.
Proof.
  induction 1 as [x F|l d Fs F Hl Hin Hch IH Hfs Hdisj]; intros Hagree.
  - constructor.
  - apply (owns_dict h' l d Fs F); [by rewrite Hagree|done| |done|done].
    intros k v Hk. apply (IH k v Hk). intros l' Hl'. apply Hagree.
    specialize (Hfs k v Hk). set_solver.
Qed.

Lemma lookup_path_frame (h h' : heap) q : forall v F,
  owns h v F -> (forall l, l ∈ F -> h' !! l = h !! l) ->
  lookup_path h' v q = lookup_path h v q.
Proof.
  induction q as [|k q IH]; intros v F Hown Hagree; [done|].
  destruct Hown as [x F|l d Fs F Hl Hin Hch Hfs Hdisj]; [done|].
  cbn [lookup_path].
  assert (Hl' : h' !! l = Some d) by (by rewrite Hagree).
  rewrite (lookup_total_Some _ _ _ Hl), (lookup_total_Some _ _ _ Hl').
  destruct (d !! k) as [v|] eqn:Hk; [|done].
  apply (IH v (Fs k)); [by eapply Hch|].
  intros l' Hin'. apply Hagree. specialize (Hfs k v Hk). set_solver.
Qed.

Lemma owns_empty_dict (h : heap) l F : h !! l = Some ∅ -> l ∈ F -> owns h (VDict l) F.
Proof.
  intros Hl Hin. apply (owns_dict h l ∅ (fun _ => ∅) F); try done.
Qed.

Lemma owns_root_in (h : heap) l F : owns h (VDict l) F -> l ∈ F /\ is_Some (h !! l).
Proof. inversion 1; subst; eauto. Qed.

Lemma lookup_path_leaf (h : heap) x q : q <> [] -> lookup_path h (VLeaf x) q = None.
Proof. by destruct q. Qed.

Lemma lookup_path_app (h : heap) q q' : forall v,
  lookup_path h v (q ++ q') =
    match lookup_path h v q with
    | Some v' => lookup_path h v' q'
    | None => None
    end.
Proof.
  induction q as [|k q IH]; intros v; [done|].
  cbn [app lookup_path]. destruct v as [l|x]; [|done].
  destruct ((h !!! l : dict) !! k); [apply IH|done].
Qed.

Lemma diverge_nonempty m q : diverge m q = true -> m <> [] /\ q <> [].
Proof. by destruct m, q. Qed.

Lemma diverge_app m q e e' : diverge m q = true -> diverge (m ++ e) (q ++ e') = true.
Proof.
  revert q. induction m as [|a m IH]; intros [|b q]; try done.
  cbn [app diverge]. case_bool_decide; [apply IH|done].
Qed.

Lemma diverge_sym m q : diverge m q = diverge q m.
Proof.
  revert q. induction m as [|a m IH]; intros [|b q]; try done.
  cbn [diverge]. rewrite IH. by repeat case_bool_decide; subst.
Qed.

(** *** [bind_from] *)

Lemma setitem_is_Some pointer key v (h : heap) l :
  is_Some (h !! l) -> is_Some (setitem pointer key v h !! l).
Proof.
  intros Hl. destruct (decide (l = pointer)) as [->|Hne].
  - rewrite setitem_eq. eauto.
  - by rewrite setitem_ne.
Qed.

(** No object leaves the store in a [bind]. *)
Lemma bind_from_is_Some ks : forall k (h : heap) l v l',
  is_Some (h !! l') -> is_Some (bind_from (k :: ks) l v h !! l').
Proof.
  induction ks as [|k' ks IH]; intros k h l v l' Hl'.
  - rewrite bind_from_one. by apply setitem_is_Some.
  - rewrite bind_from_cons.
    destruct ((h !!! l : dict) !! k) as [[l1|x]|]; apply IH; try done;
      apply setitem_is_Some; destruct (decide (l' = new_loc h)) as [->|Hne];
      rewrite ?lookup_insert_eq, ?lookup_insert_ne; eauto.
Qed.

(** The store after one round of the walk of [bind] that has to make a
    node. *)
Lemma bind_step_fresh (h : heap) l k d :
  h !! l = Some d ->
  let l1 := new_loc h in
  let h1 := setitem l k (VDict l1) (<[l1 := ∅]> h) in
  l1 <> l /\ h1 !! l1 = Some ∅ /\ h1 !! l = Some (<[k := VDict l1]> d) /\
  (forall l', l' <> l -> l' <> l1 -> h1 !! l' = h !! l') /\
  owns h1 (VDict l1) {[l1]}.
Proof.
  intros Hl l1 h1.
  assert (Hne : l1 <> l) by (intros He; rewrite <- He in Hl; subst l1;
                              by rewrite new_loc_fresh in Hl).
  assert (H1 : h1 !! l1 = Some ∅).
  { subst h1. rewrite setitem_ne by done. apply lookup_insert_eq. }
  split; [done|]. split; [done|]. split; [|split].
  - subst h1. rewrite setitem_eq. f_equal.
    rewrite lookup_total_insert_ne by done. by rewrite (lookup_total_Some _ _ _ Hl).
  - intros l' Hl' Hl1. subst h1. rewrite setitem_ne by done. by apply lookup_insert_ne.
  - apply owns_empty_dict; [done|set_solver].
Qed.

(** [bind] from a node changes nothing outside the tree of that node,
    but for the objects it makes. *)
Lemma bind_from_frame ks : forall k (h : heap) l F v l',
  owns h (VDict l) F -> is_Some (h !! l') -> l' ∉ F ->
  bind_from (k :: ks) l v h !! l' = h !! l'.
Proof.
  induction ks as [|k' ks IH]; intros k h l F v l' Hown Hl' Hout.
  - rewrite bind_from_one. apply setitem_ne. intros ->.
    by destruct (owns_root_in _ _ _ Hown).
  - rewrite bind_from_cons.
    inversion Hown as [|l0 d Fs F0 Hl Hin Hch Hfs Hdisj]; subst.
    rewrite (lookup_total_Some _ _ _ Hl).
    destruct (bind_step_fresh h l k d Hl) as (Hne & H1 & Hl1 & Hother & Hown1).
    assert (Hl'l : l' <> l) by (by intros ->).
    assert (Hl'1 : l' <> new_loc h) by (by apply new_loc_ne).
    assert (Hfresh_case :
      bind_from (k' :: ks) (new_loc h) v
        (setitem l k (VDict (new_loc h)) (<[new_loc h := ∅]> h)) !! l' = h !! l').
    { rewrite (IH k' _ (new_loc h) {[new_loc h]} v l' Hown1).
      - by apply Hother.
      - by rewrite Hother.
      - set_solver. }
    destruct (d !! k) as [[l1|x]|] eqn:Hk; [|done..].
    apply (IH k' h l1 (Fs k)); [by eapply Hch|done|].
    specialize (Hfs k _ Hk). set_solver.
Qed.

(** [bind] along [m] leaves what any sequence that parts from [m] leads
    to. *)
Lemma bind_from_diverge ks : forall k (h : heap) l F v q,
  owns h (VDict l) F -> F ⊆ dom h ->
  diverge (k :: ks) q = true ->
  lookup_path (bind_from (k :: ks) l v h) (VDict l) q = lookup_path h (VDict l) q.
Proof.
  induction ks as [|k' ks IH]; intros k h l F v q Hown Hdom Hdiv.
  - destruct q as [|b q]; [done|]. cbn [diverge] in Hdiv.
    case_bool_decide as Hab; [by destruct q|].
    rewrite bind_from_one. cbn [lookup_path].
    inversion Hown as [|l0 d Fs F0 Hl Hin Hch Hfs Hdisj]; subst.
    rewrite (lookup_total_Some _ _ _ (setitem_eq _ _ _ _)), (lookup_total_Some _ _ _ Hl).
    rewrite lookup_insert_ne by done.
    destruct (d !! b) as [u|] eqn:Hb; [|done].
    apply (lookup_path_frame h _ q u (Fs b)); [by eapply Hch|].
    intros l' Hin'. apply setitem_ne. specialize (Hfs b _ Hb). set_solver.
  - destruct q as [|b q]; [done|].
    change (diverge (k :: k' :: ks) (b :: q))
      with (if bool_decide (k = b) then diverge (k' :: ks) q else true) in Hdiv.
    rewrite bind_from_cons.
    inversion Hown as [|l0 d Fs F0 Hl Hin Hch Hfs Hdisj]; subst.
    rewrite (lookup_total_Some _ _ _ Hl).
    destruct (bind_step_fresh h l k d Hl) as (Hne & H1 & Hl1 & Hother & Hown1).
    set (l1 := new_loc h) in *.
    set (h1 := setitem l k (VDict l1) (<[l1 := ∅]> h)) in *.
    assert (Hl_in : is_Some (h !! l)) by eauto.
    case_bool_decide as Hab.
    + (* the sequences go on together through slot [k] *)
      subst b. destruct (diverge_nonempty _ _ Hdiv) as [_ Hq].
      assert (Hfresh_case :
        lookup_path (bind_from (k' :: ks) l1 v h1) (VDict l) (k :: q) = None).
      { cbn [lookup_path].
        assert (Hl1' : bind_from (k' :: ks) l1 v h1 !! l = Some (<[k := VDict l1]> d)).
        { rewrite (bind_from_frame ks k' h1 l1 {[l1]} v l Hown1);
            [exact Hl1|by rewrite Hl1|set_solver]. }
        rewrite (lookup_total_Some _ _ _ Hl1'), lookup_insert_eq.
        rewrite (IH k' h1 l1 {[l1]} v q Hown1); [|by apply singleton_subseteq_l, elem_of_dom|done].
        destruct q as [|b q]; [done|]. cbn [lookup_path].
        by rewrite (lookup_total_Some _ _ _ H1), lookup_empty. }
      destruct (d !! k) as [[l2|x]|] eqn:Hk.
      * assert (Hown2 : owns h (VDict l2) (Fs k)) by (by eapply Hch).
        specialize (Hfs k _ Hk).
        assert (Hl' : bind_from (k' :: ks) l2 v h !! l = Some d).
        { rewrite (bind_from_frame ks k' h l2 (Fs k) v l Hown2);
            [exact Hl|done|set_solver]. }
        cbn [lookup_path].
        rewrite (lookup_total_Some _ _ _ Hl), (lookup_total_Some _ _ _ Hl'), Hk.
        apply (IH k' h l2 (Fs k)); [done|set_solver|done].
      * rewrite Hfresh_case. cbn [lookup_path].
        rewrite (lookup_total_Some _ _ _ Hl), Hk. by rewrite lookup_path_leaf.
      * rewrite Hfresh_case. cbn [lookup_path].
        by rewrite (lookup_total_Some _ _ _ Hl), Hk.
    + (* the sequences part at this node *)
      cbn [lookup_path]. rewrite (lookup_total_Some _ _ _ Hl).
      assert (Hfresh_case :
        match (bind_from (k' :: ks) l1 v h1 !!! l : dict) !! b with
        | Some v' => lookup_path (bind_from (k' :: ks) l1 v h1) v' q
        | None => None
        end =
        match d !! b with
        | Some v' => lookup_path h v' q
        | None => None
        end).
      { assert (Hl1' : bind_from (k' :: ks) l1 v h1 !! l = Some (<[k := VDict l1]> d)).
        { rewrite (bind_from_frame ks k' h1 l1 {[l1]} v l Hown1);
            [exact Hl1|by rewrite Hl1|set_solver]. }
        rewrite (lookup_total_Some _ _ _ Hl1'), lookup_insert_ne by done.
        destruct (d !! b) as [u|] eqn:Hb; [|done].
        apply (lookup_path_frame h _ q u (Fs b)); [by eapply Hch|].
        intros l' Hin'. specialize (Hfs b _ Hb).
        assert (Hl'dom : is_Some (h !! l')) by (apply elem_of_dom; set_solver).
        assert (l' <> l) by set_solver.
        assert (l' <> l1) by (by apply new_loc_ne).
        rewrite (bind_from_frame ks k' h1 l1 {[l1]} v l' Hown1).
        - by apply Hother.
        - by rewrite Hother.
        - set_solver. }
      destruct (d !! k) as [[l2|x]|] eqn:Hk; [|done..].
      assert (Hown2 : owns h (VDict l2) (Fs k)) by (by eapply Hch).
      pose proof (Hfs k _ Hk) as Hfk.
      assert (Hl' : bind_from (k' :: ks) l2 v h !! l = Some d).
      { rewrite (bind_from_frame ks k' h l2 (Fs k) v l Hown2);
          [exact Hl|done|set_solver]. }
      rewrite (lookup_total_Some _ _ _ Hl').
      destruct (d !! b) as [u|] eqn:Hb; [|done].
      apply (lookup_path_frame h _ q u (Fs b)); [by eapply Hch|].
      intros l' Hin'. pose proof (Hfs b _ Hb) as Hfb.
      pose proof (Hdisj k b _ _ Hab Hk Hb) as Hkb.
      apply (bind_from_frame ks k' h l2 (Fs k)); [done| |set_solver].
      apply elem_of_dom. set_solver.
Qed.


(** *** [_unbind_traverse] *)

Lemma unbind_traverse_last (h : heap) l k d child :
  h !! l = Some d -> d !! k = Some child ->
  _unbind_traverse (VDict l) [k] h = (Ok tt, delitem l k h).
Proof.
  intros Hl Hk. cbn [_unbind_traverse]. by rewrite (lookup_total_Some _ _ _ Hl), Hk.
Qed.

(** The store after [_unbind_traverse] has come back from the level
    below: as that level left it, or with the slot pruned because what
    it holds has become false. *)
Lemma unbind_traverse_cons (h : heap) l k k' rest d child :
  h !! l = Some d -> d !! k = Some child ->
  let below := _unbind_traverse child (k' :: rest) h in
  let h' := snd below in
  let after := _unbind_traverse (VDict l) (k :: k' :: rest) h in
  snd after = h' \/
  (snd after = delitem l k h' /\ fst below = Ok tt /\
   exists v, (h' !!! l : dict) !! k = Some v /\ truthy h' v = false).
Proof.
  intros Hl Hk below h' after. subst after h' below.
  change (_unbind_traverse (VDict l) (k :: k' :: rest) h) with
    (match (h !!! l : dict) !! k with
     | None => (Ok tt, h)
     | Some child =>
         match _unbind_traverse child (k' :: rest) h with
         | (Raise e, h') => (Raise e, h')
         | (Ok _, h') =>
             match (h' !!! l : dict) !! k with
             | None => (Raise KeyError, h')
             | Some v =>
                 if negb (truthy h' v) then (Ok tt, delitem l k h') else (Ok tt, h')
             end
         end
     end).
  rewrite (lookup_total_Some _ _ _ Hl), Hk.
  destruct (_unbind_traverse child (k' :: rest) h) as [[[]|e] h']; cbn [fst snd]; [|by left].
  destruct ((h' !!! l : dict) !! k) as [v|] eqn:Hv; [|by left].
  destruct (truthy h' v) eqn:Ht; cbn [negb fst snd]; [by left|].
  right. eauto.
Qed.

(** [_unbind_traverse] changes nothing outside the tree it walks. *)
Lemma unbind_frame m : forall (h : heap) v F l',
  owns h v F -> l' ∉ F -> snd (_unbind_traverse v m h) !! l' = h !! l'.
Proof.
  induction m as [|k m IH]; intros h v F l' Hown Hout; [done|].
  destruct Hown as [x F|l d Fs F Hl Hin Hch Hfs Hdisj]; [done|].
  assert (Hne : l' <> l) by (by intros ->).
  destruct (d !! k) as [child|] eqn:Hk.
  2:{ cbn [_unbind_traverse]. by rewrite (lookup_total_Some _ _ _ Hl), Hk. }
  destruct m as [|k' rest].
  - rewrite (unbind_traverse_last h l k d child Hl Hk). cbn [snd]. by apply delitem_ne.
  - assert (Hbelow : snd (_unbind_traverse child (k' :: rest) h) !! l' = h !! l').
    { apply (IH h child (Fs k)); [by eapply Hch|]. specialize (Hfs k _ Hk). set_solver. }
    destruct (unbind_traverse_cons h l k k' rest d child Hl Hk) as [->|(-> & _)]; [done|].
    by rewrite delitem_ne.
Qed.

(** [_unbind_traverse] along [m] leaves what any sequence that parts
    from [m] leads to. *)
Lemma unbind_diverge m : forall (h : heap) l F q,
  owns h (VDict l) F ->
  diverge m q = true ->
  lookup_path (snd (_unbind_traverse (VDict l) m h)) (VDict l) q = lookup_path h (VDict l) q.
Proof.
  induction m as [|k m IH]; intros h l F q Hown Hdiv; [done|].
  destruct q as [|b q]; [done|].
  change (diverge (k :: m) (b :: q))
    with (if bool_decide (k = b) then diverge m q else true) in Hdiv.
  inversion Hown as [|l0 d Fs F0 Hl Hin Hch Hfs Hdisj]; subst.
  destruct (d !! k) as [child|] eqn:Hk.
  2:{ cbn [_unbind_traverse]. by rewrite (lookup_total_Some _ _ _ Hl), Hk. }
  (* what the slot [b], when it is not [k], leads to *)
  assert (Hside : forall h2 : heap,
             k <> b ->
             (exists d2, h2 !! l = Some d2 /\ d2 !! b = d !! b) ->
             (forall l', l' ∉ Fs k -> l' <> l -> h2 !! l' = h !! l') ->
             lookup_path h2 (VDict l) (b :: q) = lookup_path h (VDict l) (b :: q)).
  { intros h2 Hkb (d2 & Hl2 & Hd2) Hagree. cbn [lookup_path].
    rewrite (lookup_total_Some _ _ _ Hl), (lookup_total_Some _ _ _ Hl2), Hd2.
    destruct (d !! b) as [u|] eqn:Hb; [|done].
    apply (lookup_path_frame h h2 q u (Fs b)); [by eapply Hch|].
    intros l' Hin'. pose proof (Hfs b _ Hb). pose proof (Hdisj k b _ _ Hkb Hk Hb).
    apply Hagree; set_solver. }
  destruct m as [|k' rest].
  - case_bool_decide as Hkb; [done|].
    rewrite (unbind_traverse_last h l k d child Hl Hk). cbn [snd].
    apply Hside; [done| |].
    + eexists. split; [apply delitem_eq|].
      rewrite (lookup_total_Some _ _ _ Hl). by apply lookup_delete_ne.
    + intros l' _ Hne. by apply delitem_ne.
  - set (h' := snd (_unbind_traverse child (k' :: rest) h)).
    assert (Hown_child : owns h child (Fs k)) by (by eapply Hch).
    pose proof (Hfs k _ Hk) as Hfk.
    assert (Hl' : h' !! l = Some d).
    { subst h'. rewrite (unbind_frame _ h child (Fs k) l Hown_child); [done|set_solver]. }
    assert (Hframe : forall l', l' ∉ Fs k -> h' !! l' = h !! l').
    { intros l' Hout. by apply (unbind_frame _ h child (Fs k)). }
    case_bool_decide as Hkb.
    + (* the sequences go on together through slot [k] *)
      subst b. destruct (diverge_nonempty _ _ Hdiv) as [_ Hq].
      assert (Hbelow : lookup_path h' child q = lookup_path h child q).
      { destruct child as [l1|x]; [|by rewrite !lookup_path_leaf].
        by apply (IH h l1 (Fs k)). }
      pose proof (unbind_traverse_cons h l k k' rest d child Hl Hk) as Hc.
      cbv zeta in Hc. fold h' in Hc. destruct Hc as [->|(-> & _ & v & Hv & Ht)].
      * cbn [lookup_path].
        by rewrite (lookup_total_Some _ _ _ Hl), (lookup_total_Some _ _ _ Hl'), Hk.
      * rewrite (lookup_total_Some _ _ _ Hl'), Hk in Hv. injection Hv as <-.
        cbn [lookup_path].
        rewrite (lookup_total_Some _ _ _ (delitem_eq _ _ _)), lookup_delete_eq.
        rewrite (lookup_total_Some _ _ _ Hl), Hk, <- Hbelow.
        destruct child as [l1|[a|x]]; [|by rewrite lookup_path_leaf..].
        destruct q as [|c q]; [done|]. cbn [lookup_path].
        unfold truthy in Ht. apply negb_false_iff, bool_decide_eq_true_1 in Ht.
        by rewrite Ht, lookup_empty.
    + (* the sequences part at this node *)
      pose proof (unbind_traverse_cons h l k k' rest d child Hl Hk) as Hc.
      cbv zeta in Hc. fold h' in Hc. destruct Hc as [->|(-> & _)].
      * apply Hside; [done|eauto|]. intros l' Hout _. by apply Hframe.
      * apply Hside; [done| |].
        -- eexists. split; [apply delitem_eq|].
           rewrite (lookup_total_Some _ _ _ Hl'). by apply lookup_delete_ne.
        -- intros l' Hout Hne. rewrite delitem_ne by done. by apply Hframe.
Qed.


(** *** Ownership through [bind] *)

Lemma setitem_dom pointer key v (h : heap) :
  is_Some (h !! pointer) -> dom (setitem pointer key v h) = dom h.
Proof.
  intros Hp. unfold setitem. rewrite dom_insert_L.
  apply elem_of_dom in Hp. set_solver.
Qed.

(** Storing an owned value in a slot of an owned node, when the two
    trees are apart, gives an owned node. *)
Lemma setitem_owns (h : heap) l k v F Fv :
  owns h (VDict l) F -> owns h v Fv -> Fv ## F ->
  owns (setitem l k v h) (VDict l) (F ∪ Fv).
Proof.
  intros Hown Hv Hapart.
  inversion Hown as [|l0 d Fs F0 Hl Hin Hch Hfs Hdisj]; subst.
  assert (Hframe : forall F' : gset loc, l ∉ F' -> forall l', l' ∈ F' -> setitem l k v h !! l' = h !! l').
  { intros F' Hl' l' Hin'. apply setitem_ne. by intros ->. }
  apply (owns_dict _ l (<[k := v]> d) (fun k0 => if decide (k0 = k) then Fv else Fs k0)).
  - by rewrite setitem_eq, (lookup_total_Some _ _ _ Hl).
  - set_solver.
  - intros k0 v0 Hk0. destruct (decide (k0 = k)) as [->|Hne].
    + rewrite lookup_insert_eq in Hk0. injection Hk0 as <-.
      apply (owns_frame h); [done|]. apply Hframe. set_solver.
    + rewrite lookup_insert_ne in Hk0 by done.
      apply (owns_frame h); [by eapply Hch|]. apply Hframe.
      specialize (Hfs k0 _ Hk0). set_solver.
  - intros k0 v0 Hk0. destruct (decide (k0 = k)) as [->|Hne]; [set_solver|].
    rewrite lookup_insert_ne in Hk0 by done. specialize (Hfs k0 _ Hk0). set_solver.
  - intros k1 k2 v1 v2 Hne H1 H2.
    destruct (decide (k1 = k)) as [->|Hne1], (decide (k2 = k)) as [->|Hne2]; try done.
    + rewrite lookup_insert_ne in H2 by done. specialize (Hfs k2 _ H2). set_solver.
    + rewrite lookup_insert_ne in H1 by done. specialize (Hfs k1 _ H1). set_solver.
    + rewrite lookup_insert_ne in H1, H2 by done. by eapply Hdisj.
Qed.

(** Replacing the tree under one slot of an owned node by another owned
    tree, apart from the rest of the node. *)
Lemma owns_replace_child (h h' : heap) l d Fs F k v' G :
  h !! l = Some d -> l ∈ F ->
  (forall k0 v0, d !! k0 = Some v0 -> owns h v0 (Fs k0)) ->
  (forall k0 v0, d !! k0 = Some v0 -> Fs k0 ⊆ F ∖ {[l]}) ->
  (forall k1 k2 v1 v2,
      k1 <> k2 -> d !! k1 = Some v1 -> d !! k2 = Some v2 -> Fs k1 ## Fs k2) ->
  h' !! l = Some (<[k := v']> d) ->
  (forall k0 v0 l', k0 <> k -> d !! k0 = Some v0 -> l' ∈ Fs k0 -> h' !! l' = h !! l') ->
  owns h' v' G -> l ∉ G ->
  (forall k0 v0, k0 <> k -> d !! k0 = Some v0 -> Fs k0 ## G) ->
  owns h' (VDict l) (F ∪ G).
Proof.
  intros Hl Hin Hch Hfs Hdisj Hl' Hframe Hv' HlG HG.
  apply (owns_dict _ l (<[k := v']> d) (fun k0 => if decide (k0 = k) then G else Fs k0)).
  - done.
  - set_solver.
  - intros k0 v0 Hk0. destruct (decide (k0 = k)) as [->|Hne].
    + rewrite lookup_insert_eq in Hk0. by injection Hk0 as <-.
    + rewrite lookup_insert_ne in Hk0 by done.
      apply (owns_frame h); [by eapply Hch|]. intros l' Hl'in. by eapply Hframe.
  - intros k0 v0 Hk0. destruct (decide (k0 = k)) as [->|Hne]; [set_solver|].
    rewrite lookup_insert_ne in Hk0 by done. specialize (Hfs k0 _ Hk0). set_solver.
  - intros k1 k2 v1 v2 Hne H1 H2.
    destruct (decide (k1 = k)) as [->|Hne1], (decide (k2 = k)) as [->|Hne2]; try done.
    + rewrite lookup_insert_ne in H2 by done. symmetry. by eapply HG.
    + rewrite lookup_insert_ne in H1 by done. by eapply HG.
    + rewrite lookup_insert_ne in H1, H2 by done. by eapply Hdisj.
Qed.

Lemma bind_from_dom ks k (h : heap) l v : dom h ⊆ dom (bind_from (k :: ks) l v h).
Proof.
  intros l' Hl'. apply elem_of_dom. apply bind_from_is_Some. by apply elem_of_dom.
Qed.

(** [bind] of an owned value at a node of an owned tree, the two apart,
    gives an owned tree: of the old nodes, the value's and the new
    ones. *)
Lemma bind_from_owns ks : forall k (h : heap) l F v Fv,
  owns h (VDict l) F -> F ⊆ dom h ->
  owns h v Fv -> Fv ⊆ dom h -> Fv ## F ->
  owns (bind_from (k :: ks) l v h) (VDict l)
    (F ∪ (Fv ∪ (dom (bind_from (k :: ks) l v h) ∖ dom h))).
Proof.
  induction ks as [|k' ks IH]; intros k h l F v Fv Hown HF Hv HFv Hapart.
  - rewrite bind_from_one. eapply owns_weaken; [by apply setitem_owns|]. set_solver.
  - rewrite bind_from_cons.
    inversion Hown as [|l0 d Fs F0 Hl Hin Hch Hfs Hdisj]; subst.
    rewrite (lookup_total_Some _ _ _ Hl).
    destruct (bind_step_fresh h l k d Hl) as (Hne & H1 & Hl1 & Hother & Hown1).
    set (l1 := new_loc h) in *.
    set (h1 := setitem l k (VDict l1) (<[l1 := ∅]> h)) in *.
    assert (Hl_dom : l ∈ dom h) by (apply elem_of_dom; eauto).
    assert (Hl1_fresh : l1 ∉ dom h) by (apply not_elem_of_dom, new_loc_fresh).
    assert (Hfresh_case :
      owns (bind_from (k' :: ks) l1 v h1) (VDict l)
        (F ∪ (Fv ∪ (dom (bind_from (k' :: ks) l1 v h1) ∖ dom h)))).
    { set (h' := bind_from (k' :: ks) l1 v h1).
      assert (Hdom1 : dom h ⊆ dom h1).
      { intros l' Hl'. apply elem_of_dom. apply elem_of_dom in Hl'.
        destruct (decide (l' = l)) as [->|Hl'l]; [rewrite Hl1; eauto|].
        rewrite Hother; [done|done|]. by apply new_loc_ne. }
      assert (Hdom' : dom h1 ⊆ dom h') by apply bind_from_dom.
      assert (Hl1_dom : l1 ∈ dom h1) by (apply elem_of_dom; eauto).
      assert (Hagree1 : forall l', l' ∈ dom h -> l' <> l -> h1 !! l' = h !! l').
      { intros l' Hl' Hl'l. apply Hother; [done|]. intros ->. done. }
      assert (Hv1 : owns h1 v Fv).
      { apply (owns_frame h); [done|]. intros l' Hl'. apply Hagree1; set_solver. }
      assert (Hsub1 : ({[l1]} : gset loc) ⊆ dom h1) by set_solver.
      assert (HFv1 : Fv ⊆ dom h1) by set_solver.
      assert (Hap1 : Fv ## ({[l1]} : gset loc)) by set_solver.
      pose proof (IH k' h1 l1 {[l1]} v Fv Hown1 Hsub1 Hv1 HFv1 Hap1) as Hsubtree.
      fold h' in Hsubtree.
      assert (Hagree' : forall l', l' ∈ dom h1 -> l' <> l1 -> h' !! l' = h1 !! l').
      { intros l' Hl' Hl'1. apply (bind_from_frame ks k' h1 l1 {[l1]}); [done| |set_solver].
        by apply elem_of_dom. }
      eapply owns_weaken.
      - apply (owns_replace_child h h' l d Fs F k (VDict l1)
                 ({[l1]} ∪ (Fv ∪ (dom h' ∖ dom h1)))); try done.
        + rewrite Hagree'; [done|set_solver|done].
        + intros k0 v0 l' Hk0 Hd0 Hl'. specialize (Hfs k0 _ Hd0).
          rewrite Hagree'; [|set_solver|set_solver].
          apply Hagree1; set_solver.
        + set_solver.
        + intros k0 v0 Hk0 Hd0. specialize (Hfs k0 _ Hd0). set_solver.
      - set_solver. }
    destruct (d !! k) as [[l2|x]|] eqn:Hk; [|exact Hfresh_case..].
    clear Hfresh_case.
    set (h' := bind_from (k' :: ks) l2 v h).
    pose proof (Hfs k _ Hk) as Hfk.
    assert (Hown2 : owns h (VDict l2) (Fs k)) by (by eapply Hch).
    assert (Hsub2 : Fs k ⊆ dom h) by set_solver.
    assert (Hap2 : Fv ## Fs k) by set_solver.
    pose proof (IH k' h l2 (Fs k) v Fv Hown2 Hsub2 Hv HFv Hap2) as Hsubtree.
    fold h' in Hsubtree.
    assert (Hdom' : dom h ⊆ dom h') by apply bind_from_dom.
    assert (Hagree' : forall l', l' ∈ dom h -> l' ∉ Fs k -> h' !! l' = h !! l').
    { intros l' Hl' Hout. apply (bind_from_frame ks k' h l2 (Fs k)); [done| |done].
      by apply elem_of_dom. }
    eapply owns_weaken.
    + apply (owns_replace_child h h' l d Fs F k (VDict l2)
               (Fs k ∪ (Fv ∪ (dom h' ∖ dom h)))); try done.
      * rewrite Hagree'; [|done|set_solver]. by rewrite insert_id.
      * intros k0 v0 l' Hk0 Hd0 Hl'. specialize (Hfs k0 _ Hd0).
        pose proof (Hdisj k0 k _ _ Hk0 Hd0 Hk).
        apply Hagree'; set_solver.
      * set_solver.
      * intros k0 v0 Hk0 Hd0. specialize (Hfs k0 _ Hd0).
        pose proof (Hdisj k0 k _ _ Hk0 Hd0 Hk). set_solver.
    + set_solver.
Qed.


(** *** [deepcopy] *)

Section DeepcopyItems.

(** The loop over the items of one node, given that copies with the
    fuel at hand come out right. *)
Variable fuel : nat.
Hypothesis deepcopy_below : forall x memo (h : heap) F,
  owns h x F -> F ⊆ dom h -> dom memo ## F -> (size F < fuel)%nat ->
  exists v' memo' h',
    deepcopy fuel x memo h = Some (v', memo', h') /\
    (forall l, l ∈ dom h -> h' !! l = h !! l) /\
    dom memo' ⊆ dom memo ∪ F /\
    owns h' v' (dom h' ∖ dom h).

Variables (h : heap) (d : dict) (Fs : Z -> gset loc) (F M : gset loc) (l y : loc).
Hypothesis Hch : forall k v, d !! k = Some v -> owns h v (Fs k).
Hypothesis Hfs : forall k v, d !! k = Some v -> Fs k ⊆ F ∖ {[l]}.
Hypothesis Hdisj : forall k1 k2 v1 v2,
  k1 <> k2 -> d !! k1 = Some v1 -> d !! k2 = Some v2 -> Fs k1 ## Fs k2.
Hypothesis HF : F ⊆ dom h.
Hypothesis Hsize : (size F <= fuel)%nat.
Hypothesis Hl : l ∈ F.
Hypothesis Hy : y ∉ dom h.

Lemma deepcopy_items_spec (items : list (Z * value)) : forall memo_i (h_i : heap),
  NoDup items.*1 ->
  (forall k v, (k, v) ∈ items -> d !! k = Some v) ->
  (forall l0, l0 ∈ dom h -> h_i !! l0 = h !! l0) ->
  (forall k v, (k, v) ∈ items -> dom memo_i ## Fs k) ->
  dom memo_i ⊆ M ∪ F ->
  owns h_i (VDict y) (dom h_i ∖ dom h) ->
  exists memo' h',
    fold_left (deepcopy_item (deepcopy fuel) y) items (Some (memo_i, h_i)) = Some (memo', h') /\
    (forall l0, l0 ∈ dom h -> h' !! l0 = h !! l0) /\
    dom memo' ⊆ M ∪ F /\
    owns h' (VDict y) (dom h' ∖ dom h).
Proof.
  induction items as [|[k v] items IH]; intros memo_i h_i Hnd Hitems Hagree Hmemo HM Hown.
  - exists memo_i, h_i. done.
  - cbn [fold_left deepcopy_item fst snd].
    assert (Hk : d !! k = Some v) by (apply Hitems; left).
    pose proof (Hfs k v Hk) as Hfk.
    assert (Hdom_i : dom h ⊆ dom h_i).
    { intros l0 Hl0. apply elem_of_dom. rewrite Hagree by done. by apply elem_of_dom. }
    assert (Hown_v : owns h_i v (Fs k)).
    { apply (owns_frame h); [by eapply Hch|]. intros l0 Hl0. apply Hagree. set_solver. }
    assert (Hsz : (size (Fs k) < fuel)%nat).
    { eapply Nat.lt_le_trans; [|exact Hsize]. apply subset_size. set_solver. }
    destruct (deepcopy_below v memo_i h_i (Fs k) Hown_v) as (v' & memo2 & h2 & -> & Hag2 & Hm2 & Hv');
      [set_solver|by eapply Hmemo; left|done|].
    assert (Hdom2 : dom h_i ⊆ dom h2).
    { intros l0 Hl0. apply elem_of_dom. rewrite Hag2 by done. by apply elem_of_dom. }
    destruct (owns_root_in _ _ _ Hown) as [Hy_in Hy_some].
    assert (Hy2 : is_Some (h2 !! y)).
    { rewrite Hag2; [done|by apply elem_of_dom]. }
    apply IH.
    + by inversion Hnd.
    + intros k2 v2 Hin. apply Hitems. by right.
    + intros l0 Hl0. rewrite setitem_ne by (by intros ->).
      rewrite Hag2 by set_solver. by apply Hagree.
    + intros k2 v2 Hin.
      assert (Hk2 : d !! k2 = Some v2) by (apply Hitems; by right).
      assert (Hne : k <> k2).
      { intros ->. inversion Hnd as [|? ? Hnotin _]; subst. apply Hnotin.
        apply list_elem_of_fmap. by exists (k2, v2). }
      pose proof (Hdisj k k2 _ _ Hne Hk Hk2).
      assert (dom memo_i ## Fs k2) by (eapply Hmemo; by right).
      set_solver.
    + set_solver.
    + rewrite setitem_dom by done.
      eapply owns_weaken.
      * apply setitem_owns; [|exact Hv'|].
        -- apply (owns_frame h_i); [exact Hown|]. intros l0 Hl0. apply Hag2. set_solver.
        -- set_solver.
      * set_solver.
Qed.

End DeepcopyItems.

(** [deepcopy] of an owned tree, with a memo that knows none of its
    nodes and fuel above their number: it returns, it leaves every
    object of the store as it was, and the copy is an owned tree of new
    objects only. *)
Lemma deepcopy_spec fuel : forall x memo (h : heap) F,
  owns h x F -> F ⊆ dom h -> dom memo ## F -> (size F < fuel)%nat ->
  exists v' memo' h',
    deepcopy fuel x memo h = Some (v', memo', h') /\
    (forall l, l ∈ dom h -> h' !! l = h !! l) /\
    dom memo' ⊆ dom memo ∪ F /\
    owns h' v' (dom h' ∖ dom h).
Proof.
  induction fuel as [|fuel IH]; intros x memo h F Hown HF Hmemo Hsize.
  - destruct Hown as [x F|l d Fs F Hl Hin Hch Hfs Hdisj]; [|lia].
    exists (VLeaf x), memo, h. repeat split; [set_solver|constructor].
  - destruct Hown as [x F|l d Fs F Hl Hin Hch Hfs Hdisj].
    { exists (VLeaf x), memo, h. repeat split; [set_solver|constructor]. }
    cbn [deepcopy].
    assert (Hml : memo !! l = None) by (apply not_elem_of_dom; set_solver).
    rewrite Hml, (lookup_total_Some _ _ _ Hl).
    set (y := new_loc h).
    assert (Hy : y ∉ dom h) by (apply not_elem_of_dom, new_loc_fresh).
    destruct (deepcopy_items_spec fuel IH h d Fs F (dom memo) l y Hch Hfs Hdisj HF
                ltac:(lia) Hin Hy (map_to_list d) (<[l := y]> memo) (<[y := ∅]> h))
      as (memo' & h' & -> & Hag & Hm & Hown').
    + apply NoDup_fst_map_to_list.
    + intros k v Hkv. by apply elem_of_map_to_list.
    + intros l0 Hl0. apply lookup_insert_ne. by intros <-.
    + intros k v Hkv. apply elem_of_map_to_list in Hkv. specialize (Hfs k v Hkv).
      rewrite dom_insert_L. set_solver.
    + rewrite dom_insert_L. set_solver.
    + apply owns_empty_dict; [apply lookup_insert_eq|].
      rewrite dom_insert_L. set_solver.
    + exists (VDict y), memo', h'. done.
Qed.


End ShapeFacts.

(** ** Aliasing *)

Module AliasFacts.

Import Lexer Store KeyBinding Sessions BufferFacts BindFacts TrieFacts ShapeFacts.

(** What the walk of [copy] reaches lies in the tree it started from. *)
Lemma copy_walk_owns ks : forall (h : heap) p F v,
  owns h p F -> copy_walk ks p h = Ok v -> owns h v F.
Proof.
  induction ks as [|k ks IH]; intros h p F v Hown Hwalk.
  - injection Hwalk as <-. done.
  - cbn [copy_walk] in Hwalk.
    destruct (getitem h p k) as [u|e] eqn:Hget; [|done].
    apply (IH h u F v); [|done].
    destruct Hown as [x F|l d Fs F Hl Hin Hch Hfs Hdisj].
    + destruct x as [a|x]; [done|]. cbn [getitem] in Hget. unfold str_getitem in Hget.
      destruct (_ && _); [|done]. destruct (String.get _ x); [|done].
      injection Hget as <-. constructor.
    + cbn [getitem] in Hget. rewrite (lookup_total_Some _ _ _ Hl) in Hget.
      destruct (d !! k) as [u'|] eqn:Hk; [|done]. injection Hget as <-.
      eapply owns_weaken; [by eapply Hch|]. specialize (Hfs k _ Hk). set_solver.
Qed.

(** The walk of [copy] fails with its [KeyError] when it comes to a node
    that does not have the next key. *)
Lemma copy_walk_absent pre : forall (h : heap) p l k rest,
  lookup_path h p pre = Some (VDict l) ->
  (h !!! l : dict) !! k = None ->
  copy_walk (pre ++ k :: rest) p h = Raise KeyError.
Proof.
  induction pre as [|a pre IH]; intros h p l k rest Hpath Hk.
  - injection Hpath as ->. cbn [app copy_walk getitem]. by rewrite Hk.
  - cbn [lookup_path] in Hpath. destruct p as [l0|x]; [|done].
    cbn [app copy_walk getitem].
    destruct ((h !!! l0 : dict) !! a) as [u|]; [|done]. by eapply IH.
Qed.

(** After [bind], the bound sequence leads to the bound value. *)
Lemma bind_from_lookup ks : forall k (h : heap) l F v,
  owns h (VDict l) F ->
  lookup_path (bind_from (k :: ks) l v h) (VDict l) (k :: ks) = Some v.
Proof.
  induction ks as [|k' ks IH]; intros k h l F v Hown.
  - rewrite bind_from_one. cbn [lookup_path]. by rewrite setitem_lookup.
  - rewrite bind_from_cons.
    inversion Hown as [|l0 d Fs F0 Hl Hin Hch Hfs Hdisj]; subst.
    rewrite (lookup_total_Some _ _ _ Hl).
    destruct (bind_step_fresh h l k d Hl) as (Hne & H1 & Hl1 & Hother & Hown1).
    assert (Hfresh_case :
      lookup_path
        (bind_from (k' :: ks) (new_loc h) v
           (setitem l k (VDict (new_loc h)) (<[new_loc h := ∅]> h)))
        (VDict l) (k :: k' :: ks) = Some v).
    { cbn [lookup_path].
      rewrite (lookup_total_Some _ _ (<[k := VDict (new_loc h)]> d)).
      - rewrite lookup_insert_eq. by apply (IH k' _ _ {[new_loc h]}).
      - rewrite (bind_from_frame ks k' _ _ {[new_loc h]} v l Hown1);
          [done|by rewrite Hl1|set_solver]. }
    destruct (d !! k) as [[l2|x]|] eqn:Hk; [|done..].
    assert (Hown2 : owns h (VDict l2) (Fs k)) by (by eapply Hch).
    pose proof (Hfs k _ Hk).
    cbn [lookup_path].
    rewrite (lookup_total_Some _ _ d).
    + rewrite Hk. by apply (IH k' h l2 (Fs k)).
    + rewrite (bind_from_frame ks k' h l2 (Fs k) v l Hown2); [done|eauto|set_solver].
Qed.

Lemma parse_empty_text : parse_keybinding "" = Ok [].
Proof. reflexivity. Qed.

(** [copy] in a context that is there, of a source that lexes to keys. *)
Lemma copy_present context source target st root src :
  contexts st !! context = Some root ->
  parse_keybinding source = Ok src -> src <> [] ->
  copy context source target st =
    match copy_walk src (VDict root) (heap_of st) with
    | Raise e => Some (Raise e, st)
    | Ok v =>
        match deepcopy (S (size (heap_of st))) v ∅ (heap_of st) with
        | None => None
        | Some (v', _, h) => Some (bind context target v' (set_heap h st))
        end
    end.
Proof.
  intros Hroot Hp Hne. unfold copy, _clean_input.
  rewrite (context_root_present _ _ _ Hroot), Hp.
  rewrite bool_decide_eq_false_2; [done|].
  intros ->. rewrite parse_empty_text in Hp. by injection Hp as <-.
Qed.

(** The store after [copy]: the source is there, its tree is copied
    into new objects and the copy is bound at the target; the trie is
    again a tree. *)
Lemma copy_spec context source target st root F src k tgt v :
  contexts st !! context = Some root ->
  owns (heap_of st) (VDict root) F -> F ⊆ dom (heap_of st) ->
  parse_keybinding source = Ok src -> src <> [] ->
  parse_keybinding target = Ok (k :: tgt) ->
  copy_walk src (VDict root) (heap_of st) = Ok v ->
  exists v' h1,
    copy context source target st = Some (Ok tt, set_heap h1 st) /\
    (forall x, v = VLeaf x -> v' = VLeaf x) /\
    lookup_path h1 (VDict root) (k :: tgt) = Some v' /\
    dom (heap_of st) ⊆ dom h1 /\
    owns h1 v' (dom h1 ∖ dom (heap_of st)) /\
    owns h1 (VDict root) (F ∪ (dom h1 ∖ dom (heap_of st))).
Proof.
  intros Hroot Hown HF Hsrc Hne Htgt Hwalk.
  rewrite (copy_present _ _ _ _ _ _ Hroot Hsrc Hne), Hwalk.
  set (h := heap_of st) in *.
  pose proof (copy_walk_owns _ _ _ _ _ Hown Hwalk) as Hv.
  destruct (deepcopy_spec (S (size h)) v ∅ h F Hv HF) as (v' & memo' & hc & Hdc & Hag & _ & Hv').
  { rewrite dom_empty_L. set_solver. }
  { apply Nat.lt_succ_r. rewrite <- size_dom. by apply subseteq_size. }
  rewrite Hdc.
  exists v', (bind_from (k :: tgt) root v' hc).
  assert (Hc : contexts (set_heap hc st) !! context = Some root) by done.
  rewrite (bind_nonempty _ _ _ _ _ _ Htgt), (context_root_present _ _ _ Hc).
  cbn [fst snd]. unfold set_heap at 2 3. cbn [heap_of contexts used_keymap keybuffer].
  assert (Hdom : dom h ⊆ dom hc).
  { intros l Hl. apply elem_of_dom. rewrite Hag by done. by apply elem_of_dom. }
  assert (Hownc : owns hc (VDict root) F).
  { apply (owns_frame h); [done|]. intros l Hl. apply Hag. set_solver. }
  pose proof (bind_from_dom tgt k hc root v') as Hdom1.
  split; [done|]. split; [|split; [|split; [|split]]].
  - intros x ->. cbn [deepcopy] in Hdc. by injection Hdc as <- _ _.
  - by apply (bind_from_lookup tgt k hc root F).
  - set_solver.
  - apply (owns_weaken _ _ (dom hc ∖ dom h)); [|set_solver].
    apply (owns_frame hc); [exact Hv'|]. intros l Hl.
    apply (bind_from_frame tgt k hc root F); [done|apply elem_of_dom; set_solver|set_solver].
  - eapply owns_weaken.
    + apply (bind_from_owns tgt k hc root F v' (dom hc ∖ dom h));
        [done|set_solver|done|set_solver|set_solver].
    + set_solver.
Qed.

(** The isolation that C6 states fails on the code when the target runs
    through the source: with ["g"] bound to action 1 and aliased to
    ["gg"], the target leads to action 1; a later bind of ["g"] puts its
    leaf in the slot that led to the target, which then leads nowhere
    (the last bind wins). *)
Lemma alias_through_source_not_isolated :
  let st0 := snd (bind "root" "g" (VLeaf (Action 1)) KeyMaps_init) in
  exists st1,
    copy "root" "g" "gg" st0 = Some (Ok tt, st1) /\
    contexts st1 !! "root"%string = Some 1%positive /\
    lookup_path (heap_of st1) (VDict 1%positive) [103; 103] = Some (VLeaf (Action 1)) /\
    lookup_path (heap_of (snd (bind "root" "g" (VLeaf (Action 2)) st1)))
      (VDict 1%positive) [103; 103] = None.
Proof.
  intros st0. destruct (copy "root" "g" "gg" st0) as [[r st1]|] eqn:Hcopy.
  - vm_compute in Hcopy. injection Hcopy as <- <-. eexists. split; [reflexivity|].
    vm_compute. done.
  - vm_compute in Hcopy. discriminate.
Qed.

(** Isolation of an alias whose target parts from its source, in a
    context whose trie is a tree in the store. *)
Lemma alias_isolated_in_tree
    (context source target : string) (st : state) root F src tgt v :
  contexts st !! context = Some root ->
  owns (heap_of st) (VDict root) F -> F ⊆ dom (heap_of st) ->
  parse_keybinding source = Ok src ->
  parse_keybinding target = Ok tgt ->
  diverge src tgt = true ->
  copy_walk src (VDict root) (heap_of st) = Ok v ->
  exists st1 v',
    copy context source target st = Some (Ok tt, st1) /\
    contexts st1 !! context = Some root /\
    lookup_path (heap_of st1) (VDict root) tgt = Some v' /\
    (forall x, v = VLeaf x -> v' = VLeaf x) /\
    owns (heap_of st1) v' (dom (heap_of st1) ∖ dom (heap_of st)) /\
    (forall text ext v2 ks,
        parse_keybinding text = Ok (src ++ ext) ->
        lookup_path (heap_of (snd (bind context text v2 st1))) (VDict root) (tgt ++ ks) =
        lookup_path (heap_of st1) (VDict root) (tgt ++ ks)) /\
    (forall text ext ks,
        parse_keybinding text = Ok (src ++ ext) ->
        lookup_path (heap_of (snd (unbind context text st1))) (VDict root) (tgt ++ ks) =
        lookup_path (heap_of st1) (VDict root) (tgt ++ ks)).
Proof.
  intros Hroot Hown HF Hsrc Htgt Hdiv Hwalk.
  destruct (diverge_nonempty _ _ Hdiv) as [Hsne Htne].
  destruct tgt as [|b tgt]; [done|]. destruct src as [|a src]; [done|].
  destruct (copy_spec context source target st root F (a :: src) b tgt v
              Hroot Hown HF Hsrc Hsne Htgt Hwalk)
    as (v' & h1 & Hcopy & Hleaf & Hlook & Hdom & Hv' & Hown1).
  exists (set_heap h1 st), v'.
  assert (Hc : contexts (set_heap h1 st) !! context = Some root) by done.
  do 5 (split; [done|]).
  assert (Hsub1 : F ∪ (dom h1 ∖ dom (heap_of st)) ⊆ dom h1) by set_solver.
  split.
  - intros text ext v2 ks Hp.
    rewrite (bind_nonempty _ _ a (src ++ ext) _ _ Hp), (context_root_present _ _ _ Hc).
    cbn [fst snd set_heap heap_of].
    apply (bind_from_diverge _ a h1 root _ v2 _ Hown1 Hsub1).
    by apply (diverge_app (a :: src) (b :: tgt)).
  - intros text ext ks Hp.
    rewrite (unbind_nonempty _ _ a (src ++ ext) _ Hp), (context_root_present _ _ _ Hc).
    cbn [fst snd set_heap heap_of].
    apply (unbind_diverge _ h1 root _ _ Hown1).
    by apply (diverge_app (a :: src) (b :: tgt)).
Qed.

(** [copy] of a source whose walk comes to a node that lacks the next
    key raises the [KeyError] of the binding that was not found. *)
Lemma copy_absent_raises (context source target : string) (st : state) pre k rest l :
  let root := fst (context_root context st) in
  let st' := snd (context_root context st) in
  parse_keybinding source = Ok (pre ++ k :: rest) ->
  lookup_path (heap_of st') (VDict root) pre = Some (VDict l) ->
  (heap_of st' !!! l : dict) !! k = None ->
  copy context source target st = Some (Raise KeyError, st').
Proof.
  intros root st' Hp Hpath Hk.
  subst root st'. unfold copy, _clean_input.
  destruct (context_root context st) as [root st'] eqn:Hcr. cbn [fst snd] in *.
  rewrite Hp. rewrite bool_decide_eq_false_2.
  - by rewrite (copy_walk_absent pre _ _ l k rest Hpath Hk).
  - intros ->. rewrite parse_empty_text in Hp. by destruct pre.
Qed.

(** C6 fails on the code where the source runs past a leaf: with
    ["q"] bound to a function, [copy] of the source ["qq"], which is not
    in the trie, walks to the function and [pointer[key]] raises
    [TypeError] on it.  The [except KeyError] around that line, which
    turns a key that a node lacks into the [KeyError] of the binding
    that was not found, does not catch it.  The session is left as it
    was. *)
Theorem alias_past_leaf_raises (context target : string) (f : nat) (st : state) :
  let st1 := snd (bind context "q" (VLeaf (Action f)) st) in
  copy context "qq" target st1 = Some (Raise TypeError, st1).
Proof.
  intros st1.
  assert (Hq : parse_keybinding "q" = Ok [113]) by reflexivity.
  assert (Hqq : parse_keybinding "qq" = Ok [113; 113]) by reflexivity.
  subst st1. rewrite (bind_nonempty context "q" _ _ (VLeaf (Action f)) st Hq). cbn [snd].
  rewrite bind_from_one.
  set (root := fst (context_root context st)).
  set (st1 := set_heap _ _).
  assert (Hc : contexts st1 !! context = Some root) by apply context_root_lookup.
  rewrite (copy_present context "qq" target st1 root [113; 113] Hc Hqq) by done.
  subst st1. cbn [set_heap heap_of copy_walk getitem].
  by rewrite setitem_lookup.
Qed.

End AliasFacts.

(** ** What [unbind] does to a tree *)

Module UnbindFacts.

Import Lexer Store KeyBinding Sessions BufferFacts BindFacts TrieFacts ShapeFacts.

(** Deleting a slot of an owned node leaves an owned node. *)
Lemma delitem_owns (h : heap) l k F :
  owns h (VDict l) F -> owns (delitem l k h) (VDict l) F.
Proof.
  intros Hown. inversion Hown as [|l0 d Fs F0 Hl Hin Hch Hfs Hdisj]; subst.
  apply (owns_dict _ l (delete k d) Fs F).
  - by rewrite delitem_eq, (lookup_total_Some _ _ _ Hl).
  - done.
  - intros k0 v0 Hk0. apply lookup_delete_Some in Hk0 as [Hne Hk0].
    apply (owns_frame h); [by eapply Hch|].
    intros l' Hl'. apply delitem_ne. specialize (Hfs k0 _ Hk0). set_solver.
  - intros k0 v0 Hk0. apply lookup_delete_Some in Hk0 as [Hne Hk0]. by eapply Hfs.
  - intros k1 k2 v1 v2 Hne H1 H2.
    apply lookup_delete_Some in H1 as [_ H1]. apply lookup_delete_Some in H2 as [_ H2].
    by eapply Hdisj.
Qed.

(** [_unbind_traverse] leaves a tree a tree, within the same
    locations. *)
Lemma unbind_owns m : forall (h : heap) v F,
  owns h v F -> owns (snd (_unbind_traverse v m h)) v F.
Proof.
  induction m as [|k m IH]; intros h v F Hown; [done|].
  inversion Hown as [x F0|l d Fs F0 Hl Hin Hch Hfs Hdisj]; subst; [constructor|].
  destruct (d !! k) as [child|] eqn:Hk.
  2:{ cbn [_unbind_traverse]. by rewrite (lookup_total_Some _ _ _ Hl), Hk. }
  destruct m as [|k' rest].
  - rewrite (unbind_traverse_last h l k d child Hl Hk). cbn [snd]. by apply delitem_owns.
  - set (h' := snd (_unbind_traverse child (k' :: rest) h)).
    assert (Hown_child : owns h child (Fs k)) by (by eapply Hch).
    pose proof (Hfs k _ Hk) as Hfk.
    assert (Hframe : forall l', l' ∉ Fs k -> h' !! l' = h !! l').
    { intros l' Hout. by apply (unbind_frame _ h child (Fs k)). }
    assert (Hown' : owns h' (VDict l) F).
    { apply (owns_dict _ l d Fs F); try done.
      - rewrite Hframe; [done|set_solver].
      - intros k0 v0 Hk0. destruct (decide (k0 = k)) as [->|Hne].
        + rewrite Hk in Hk0. injection Hk0 as <-. by apply IH.
        + apply (owns_frame h); [by eapply Hch|]. intros l' Hl'. apply Hframe.
          pose proof (Hdisj k0 k _ _ Hne Hk0 Hk). set_solver. }
    pose proof (unbind_traverse_cons h l k k' rest d child Hl Hk) as Hc.
    cbv zeta in Hc. fold h' in Hc. destruct Hc as [->|(-> & _)]; [done|].
    by apply delitem_owns.
Qed.

(** No object leaves the store in an [unbind]. *)
Lemma unbind_dom m : forall (h : heap) v F,
  owns h v F -> dom h ⊆ dom (snd (_unbind_traverse v m h)).
Proof.
  induction m as [|k m IH]; intros h v F Hown; [done|].
  inversion Hown as [x F0|l d Fs F0 Hl Hin Hch Hfs Hdisj]; subst; [done|].
  assert (Hdel : forall h0 : heap, dom h0 ⊆ dom (delitem l k h0)).
  { intros h0. unfold delitem. rewrite dom_insert_L. set_solver. }
  destruct (d !! k) as [child|] eqn:Hk.
  2:{ cbn [_unbind_traverse]. by rewrite (lookup_total_Some _ _ _ Hl), Hk. }
  destruct m as [|k' rest].
  - rewrite (unbind_traverse_last h l k d child Hl Hk). cbn [snd]. apply Hdel.
  - pose proof (IH h child (Fs k) (Hch k _ Hk)) as Hbelow.
    pose proof (unbind_traverse_cons h l k k' rest d child Hl Hk) as Hc.
    cbv zeta in Hc. destruct Hc as [->|(-> & _)]; [done|].
    etrans; [exact Hbelow|apply Hdel].
Qed.

(** [unbind] of a sequence that leads somewhere returns, and the
    sequence leads nowhere afterwards. *)
Lemma unbind_removes m : forall (h : heap) l F,
  owns h (VDict l) F -> m <> [] ->
  is_Some (lookup_path h (VDict l) m) ->
  fst (_unbind_traverse (VDict l) m h) = Ok tt /\
  lookup_path (snd (_unbind_traverse (VDict l) m h)) (VDict l) m = None.
Proof.
  induction m as [|k m IH]; intros h l F Hown Hne Hsome; [done|].
  inversion Hown as [|l0 d Fs F0 Hl Hin Hch Hfs Hdisj]; subst.
  cbn [lookup_path] in Hsome. rewrite (lookup_total_Some _ _ _ Hl) in Hsome.
  destruct (d !! k) as [child|] eqn:Hk; [|by destruct Hsome].
  destruct m as [|k' rest].
  - rewrite (unbind_traverse_last h l k d child Hl Hk). cbn [fst snd lookup_path].
    split; [done|].
    by rewrite (lookup_total_Some _ _ _ (delitem_eq _ _ _)), lookup_delete_eq.
  - destruct child as [l1|x]; [|by destruct Hsome].
    assert (Hown1 : owns h (VDict l1) (Fs k)) by (by eapply Hch).
    pose proof (Hfs k _ Hk) as Hfk.
    destruct (IH h l1 (Fs k) Hown1 ltac:(done) Hsome) as [Hok Hgone].
    set (h' := snd (_unbind_traverse (VDict l1) (k' :: rest) h)) in *.
    assert (Hl' : h' !! l = Some d).
    { subst h'. rewrite (unbind_frame _ h (VDict l1) (Fs k) l Hown1); [done|set_solver]. }
    change (_unbind_traverse (VDict l) (k :: k' :: rest) h) with
      (match (h !!! l : dict) !! k with
       | None => (Ok tt, h)
       | Some child =>
           match _unbind_traverse child (k' :: rest) h with
           | (Raise e, h') => (Raise e, h')
           | (Ok _, h') =>
               match (h' !!! l : dict) !! k with
               | None => (Raise KeyError, h')
               | Some v =>
                   if negb (truthy h' v) then (Ok tt, delitem l k h') else (Ok tt, h')
               end
           end
       end).
    rewrite (lookup_total_Some _ _ _ Hl), Hk.
    destruct (_unbind_traverse (VDict l1) (k' :: rest) h) as [r h''] eqn:Hrec.
    cbn [fst snd] in *. subst r h'.
    rewrite (lookup_total_Some _ _ _ Hl'), Hk.
    destruct (truthy h'' (VDict l1)); cbn [negb fst snd lookup_path].
    + by rewrite (lookup_total_Some _ _ _ Hl'), Hk.
    + by rewrite (lookup_total_Some _ _ _ (delitem_eq _ _ _)), lookup_delete_eq.
Qed.

(** [unbind] of a sequence whose walk comes to a node that lacks the
    next key returns and changes nothing, when no node on the way is
    empty. *)
Lemma unbind_missing_noop pre : forall (h : heap) p l k rest,
  lookup_path h p pre = Some (VDict l) ->
  (h !!! l : dict) !! k = None ->
  (forall pre1 pre2 l',
      pre = pre1 ++ pre2 -> pre1 <> [] ->
      lookup_path h p pre1 = Some (VDict l') -> h !!! l' <> (∅ : dict)) ->
  _unbind_traverse p (pre ++ k :: rest) h = (Ok tt, h).
Proof.
  induction pre as [|a pre IH]; intros h p l k rest Hpath Hk Hfull.
  - injection Hpath as ->. cbn [app _unbind_traverse]. by rewrite Hk.
  - cbn [lookup_path] in Hpath. destruct p as [l0|x]; [|done].
    destruct ((h !!! l0 : dict) !! a) as [u|] eqn:Ha; [|done].
    assert (Hrec : _unbind_traverse u (pre ++ k :: rest) h = (Ok tt, h)).
    { apply (IH h u l k rest Hpath Hk). intros pre1 pre2 l' -> Hne1 Hl'.
      apply (Hfull (a :: pre1) pre2 l'); [done|done|].
      cbn [lookup_path]. by rewrite Ha. }
    assert (Hu : exists l1, u = VDict l1).
    { destruct pre; [injection Hpath as ->; eauto|].
      destruct u as [l1|x]; [eauto|done]. }
    destruct Hu as [l1 ->].
    assert (Hfull1 : h !!! l1 <> (∅ : dict)).
    { apply (Hfull [a] pre l1); [done|done|]. cbn [lookup_path]. by rewrite Ha. }
    change ((a :: pre) ++ k :: rest) with (a :: (pre ++ k :: rest)).
    destruct (pre ++ k :: rest) as [|k' rest'] eqn:Hrest; [by destruct pre|].
    change (_unbind_traverse (VDict l0) (a :: k' :: rest') h) with
      (match (h !!! l0 : dict) !! a with
       | None => (Ok tt, h)
       | Some child =>
           match _unbind_traverse child (k' :: rest') h with
           | (Raise e, h') => (Raise e, h')
           | (Ok _, h') =>
               match (h' !!! l0 : dict) !! a with
               | None => (Raise KeyError, h')
               | Some v =>
                   if negb (truthy h' v) then (Ok tt, delitem l0 a h') else (Ok tt, h')
               end
           end
       end).
    rewrite Ha, Hrec, Ha. unfold truthy.
    by rewrite (bool_decide_eq_false_2 _ Hfull1).
Qed.

End UnbindFacts.

(** ** The tries of a session are trees *)

Module ForestFacts.

Import Lexer Store KeyBinding Sessions BufferFacts BindFacts TrieFacts ShapeFacts.
Import AliasFacts UnbindFacts.

(** A store that agrees with the old one on the old objects holds the
    same trees. *)
Lemma forest_with_agree Fc st st' :
  forest_with Fc st ->
  contexts st' = contexts st ->
  (forall l, l ∈ dom (heap_of st) -> heap_of st' !! l = heap_of st !! l) ->
  forest_with Fc st'.
Proof.
  intros [Htrees Hapart] Hctx Hagree.
  assert (Hdom : dom (heap_of st) ⊆ dom (heap_of st')).
  { intros l Hl. apply elem_of_dom. rewrite Hagree by done. by apply elem_of_dom. }
  split.
  - intros c root Hc. rewrite Hctx in Hc. destruct (Htrees c root Hc) as [Hown Hsub].
    split; [|set_solver].
    apply (owns_frame (heap_of st)); [done|]. intros l Hl. apply Hagree. set_solver.
  - intros c1 c2 r1 r2 Hne H1 H2. rewrite Hctx in H1, H2. by eapply Hapart.
Qed.

(** Giving one context a new tree, made of its old locations and of
    locations that were not in the store. *)
Lemma forest_with_update Fc st c root h' G :
  forest_with Fc st ->
  contexts st !! c = Some root ->
  owns h' (VDict root) G -> G ⊆ dom h' ->
  G ⊆ Fc c ∪ (dom h' ∖ dom (heap_of st)) ->
  (forall l, l ∈ dom (heap_of st) -> l ∉ Fc c -> h' !! l = heap_of st !! l) ->
  forest (set_heap h' st).
Proof.
  intros [Htrees Hapart] Hc Hown HG Hnew Hagree.
  exists (fun c0 => if decide (c0 = c) then G else Fc c0). split.
  - intros c0 r0 Hc0. cbn [set_heap contexts heap_of] in *.
    destruct (decide (c0 = c)) as [->|Hne].
    + rewrite Hc in Hc0. by injection Hc0 as <-.
    + destruct (Htrees c0 r0 Hc0) as [Hown0 Hsub0].
      pose proof (Hapart c0 c _ _ Hne Hc0 Hc) as Hdisj.
      assert (Hag0 : forall l, l ∈ Fc c0 -> h' !! l = heap_of st !! l).
      { intros l Hl. apply Hagree; set_solver. }
      split; [by apply (owns_frame (heap_of st))|].
      intros l Hl. apply elem_of_dom. rewrite Hag0 by done. apply elem_of_dom. set_solver.
  - intros c1 c2 r1 r2 Hne H1 H2. cbn [set_heap contexts] in *.
    destruct (decide (c1 = c)) as [->|Hne1], (decide (c2 = c)) as [->|Hne2]; try done.
    + destruct (Htrees c2 r2 H2) as [_ Hsub2].
      pose proof (Hapart c2 c _ _ Hne2 H2 Hc). set_solver.
    + destruct (Htrees c1 r1 H1) as [_ Hsub1].
      pose proof (Hapart c1 c _ _ Hne1 H1 Hc). set_solver.
    + by eapply Hapart.
Qed.

Lemma forest_context_root c st :
  forest st ->
  forest (snd (context_root c st)) /\
  contexts (snd (context_root c st)) !! c = Some (fst (context_root c st)).
Proof.
  intros [Fc [Htrees Hapart]]. split; [|apply context_root_lookup].
  unfold context_root. destruct (contexts st !! c) as [root|] eqn:Hc; [by exists Fc|].
  unfold alloc. cbn [snd]. set (l := new_loc (heap_of st)).
  assert (Hl : l ∉ dom (heap_of st)) by (apply not_elem_of_dom, new_loc_fresh).
  exists (fun c0 => if decide (c0 = c) then {[l]} else Fc c0). split.
  - intros c0 r0 Hc0. cbn [contexts heap_of] in *.
    destruct (decide (c0 = c)) as [->|Hne].
    + rewrite lookup_insert_eq in Hc0. injection Hc0 as <-.
      split; [|rewrite dom_insert_L; set_solver].
      apply owns_empty_dict; [apply lookup_insert_eq|set_solver].
    + rewrite lookup_insert_ne in Hc0 by done.
      destruct (Htrees c0 r0 Hc0) as [Hown0 Hsub0].
      split; [|rewrite dom_insert_L; set_solver].
      apply (owns_frame (heap_of st)); [done|].
      intros l' Hl'. apply lookup_insert_ne. set_solver.
  - intros c1 c2 r1 r2 Hne H1 H2. cbn [contexts] in *.
    destruct (decide (c1 = c)) as [->|Hne1], (decide (c2 = c)) as [->|Hne2]; try done.
    + rewrite lookup_insert_ne in H2 by done. destruct (Htrees c2 r2 H2). set_solver.
    + rewrite lookup_insert_ne in H1 by done. destruct (Htrees c1 r1 H1). set_solver.
    + rewrite lookup_insert_ne in H1, H2 by done. by eapply Hapart.
Qed.

(** [bind] of a leaf keeps the tries trees. *)
Lemma bind_forest context keys x st :
  forest st -> forest (snd (bind context keys (VLeaf x) st)).
Proof.
  intros Hf. destruct (forest_context_root context st Hf) as [Hf1 Hroot].
  unfold bind, _clean_input.
  destruct (context_root context st) as [root st1]. cbn [fst snd] in *.
  destruct (parse_keybinding keys) as [[|k ks]|e]; [done| |done].
  cbn [snd]. destruct Hf1 as [Fc Hfw].
  pose proof Hfw as [Htrees _]. destruct (Htrees _ _ Hroot) as [Hown Hsub].
  set (h' := bind_from (k :: ks) root (VLeaf x) (heap_of st1)).
  pose proof (bind_from_dom ks k (heap_of st1) root (VLeaf x)) as Hdom. fold h' in Hdom.
  apply (forest_with_update Fc st1 context root h'
           (Fc context ∪ (∅ ∪ (dom h' ∖ dom (heap_of st1))))); try done.
  - apply bind_from_owns; try done. constructor.
  - set_solver.
  - set_solver.
  - intros l Hl Hout. apply (bind_from_frame ks k _ root (Fc context)); [done| |done].
    by apply elem_of_dom.
Qed.

(** [unbind] keeps the tries trees. *)
Lemma unbind_forest context keys st :
  forest st -> forest (snd (unbind context keys st)).
Proof.
  intros Hf. destruct (forest_context_root context st Hf) as [Hf1 Hroot].
  unfold unbind, _clean_input.
  destruct (context_root context st) as [root st1]. cbn [fst snd] in *.
  destruct (parse_keybinding keys) as [[|k ks]|e]; [done| |done].
  destruct Hf1 as [Fc Hfw].
  pose proof Hfw as [Htrees _]. destruct (Htrees _ _ Hroot) as [Hown Hsub].
  pose proof (unbind_owns (k :: ks) _ _ _ Hown) as Hown'.
  pose proof (unbind_dom (k :: ks) _ _ _ Hown) as Hdom.
  pose proof (fun l' => unbind_frame (k :: ks) _ _ _ l' Hown) as Hframe.
  destruct (_unbind_traverse (VDict root) (k :: ks) (heap_of st1)) as [r h']. cbn [snd] in *.
  apply (forest_with_update Fc st1 context root h' (Fc context)); try done.
  - set_solver.
  - set_solver.
  - intros l _ Hout. by apply Hframe.
Qed.

(** [copy] returns on a session whose tries are trees, the fuel of the
    deep copy being enough, and keeps them trees. *)
Lemma copy_forest context source target st :
  forest st ->
  exists r st', copy context source target st = Some (r, st') /\ forest st'.
Proof.
  intros Hf. destruct (forest_context_root context st Hf) as [Hf1 Hroot].
  unfold copy, _clean_input.
  destruct (context_root context st) as [root st1]. cbn [fst snd] in *.
  destruct (parse_keybinding source) as [src|e]; [|eauto].
  case_bool_decide; [eauto|].
  destruct (copy_walk src (VDict root) (heap_of st1)) as [v|e] eqn:Hwalk; [|eauto].
  destruct Hf1 as [Fc Hfw].
  pose proof Hfw as [Htrees _]. destruct (Htrees _ _ Hroot) as [Hown Hsub].
  set (h := heap_of st1) in *.
  pose proof (copy_walk_owns _ _ _ _ _ Hown Hwalk) as Hv.
  destruct (deepcopy_spec (S (size h)) v ∅ h (Fc context) Hv Hsub)
    as (v' & memo' & hc & -> & Hag & _ & Hv').
  { rewrite dom_empty_L. set_solver. }
  { apply Nat.lt_succ_r. rewrite <- size_dom. by apply subseteq_size. }
  assert (Hdomc : dom h ⊆ dom hc).
  { intros l Hl. apply elem_of_dom. rewrite Hag by done. by apply elem_of_dom. }
  assert (Hfc : forest_with Fc (set_heap hc st1)) by (by apply (forest_with_agree Fc st1)).
  assert (Hc : contexts (set_heap hc st1) !! context = Some root) by done.
  assert (Hf' : forest (snd (bind context target v' (set_heap hc st1)))).
  { unfold bind, _clean_input. rewrite (context_root_present _ _ _ Hc).
    destruct (parse_keybinding target) as [[|k ks]|e]; [by exists Fc| |by exists Fc].
    cbn [snd]. unfold set_heap at 2. cbn [heap_of].
    pose proof Hfc as [Htreesc _]. destruct (Htreesc _ _ Hc) as [Hownc Hsubc].
    cbn [set_heap heap_of] in Hownc, Hsubc.
    set (h' := bind_from (k :: ks) root v' hc).
    pose proof (bind_from_dom ks k hc root v') as Hdom. fold h' in Hdom.
    change (set_heap h' (set_heap hc st1)) with (set_heap h' st1).
    apply (forest_with_update Fc st1 context root h'
             (Fc context ∪ ((dom hc ∖ dom h) ∪ (dom h' ∖ dom hc)))); try done.
    - apply bind_from_owns; try done; set_solver.
    - set_solver.
    - fold h. set_solver.
    - fold h. intros l Hl Hout. rewrite <- Hag by done.
      apply (bind_from_frame ks k _ root (Fc context)); [done| |done].
      apply elem_of_dom. set_solver. }
  destruct (bind context target v' (set_heap hc st1)) as [r st']. eauto.
Qed.

(** The tries of every session that the calls lead to are trees. *)
Lemma built_forest st : built st -> forest st.
Proof.
  induction 1 as [|st c keys x _ IH|st c source target r st' _ IH Hcopy
                 |st c keys _ IH|st name _ IH].
  - exists (fun _ => ∅). split; [|intros; set_solver].
    intros c root Hc. change (contexts KeyMaps_init) with (∅ : gmap string loc) in Hc.
    by rewrite lookup_empty in Hc.
  - by apply bind_forest.
  - destruct (copy_forest c source target st IH) as (r' & st'' & Hcopy' & Hf).
    rewrite Hcopy in Hcopy'. by injection Hcopy' as <- <-.
  - by apply unbind_forest.
  - destruct IH as [Fc Hfw]. exists Fc.
    apply (forest_with_agree Fc st); [done| |].
    + unfold use_keymap, alloc. by case_bool_decide.
    + intros l Hl. unfold use_keymap, alloc.
      assert (Hne : new_loc (heap_of st) <> l).
      { intros <-. apply elem_of_dom in Hl. by rewrite new_loc_fresh in Hl. }
      case_bool_decide; cbn [heap_of]; by apply lookup_insert_ne.
Qed.

(** On such a session [copy] always returns. *)
Lemma built_copy_returns st context source target :
  built st -> is_Some (copy context source target st).
Proof.
  intros Hb. destruct (copy_forest context source target st (built_forest st Hb))
    as (r & st' & -> & _). eauto.
Qed.

(** X24: Aliases are isolated.  In a session that calls of [bind], [copy],
    [unbind] and [use_keymap] have led to, alias ([copy]) of a source
    that is there to a target whose key sequence parts from the source's
    (neither is a prefix of the other) returns and binds the target to a
    copy made of new objects only (a leaf is copied as itself); after it,
    [bind] or [unbind] at the source sequence or at any extension of it
    leaves what the target sequence and every extension of it lead to as
    it was.  Alias of a source whose walk comes to a node that lacks the
    next key raises the [KeyError] of the binding that was not found. *)
Theorem alias_is_isolated :
  (forall (context source target : string) (st : state) root src tgt v,
      built st ->
      contexts st !! context = Some root ->
      parse_keybinding source = Ok src ->
      parse_keybinding target = Ok tgt ->
      diverge src tgt = true ->
      copy_walk src (VDict root) (heap_of st) = Ok v ->
      exists st1 v',
        copy context source target st = Some (Ok tt, st1) /\
        contexts st1 !! context = Some root /\
        lookup_path (heap_of st1) (VDict root) tgt = Some v' /\
        (forall x, v = VLeaf x -> v' = VLeaf x) /\
        owns (heap_of st1) v' (dom (heap_of st1) ∖ dom (heap_of st)) /\
        (forall text ext v2 ks,
            parse_keybinding text = Ok (src ++ ext) ->
            lookup_path (heap_of (snd (bind context text v2 st1))) (VDict root) (tgt ++ ks) =
            lookup_path (heap_of st1) (VDict root) (tgt ++ ks)) /\
        (forall text ext ks,
            parse_keybinding text = Ok (src ++ ext) ->
            lookup_path (heap_of (snd (unbind context text st1))) (VDict root) (tgt ++ ks) =
            lookup_path (heap_of st1) (VDict root) (tgt ++ ks))) /\
  (forall (context source target : string) (st : state) pre k rest l,
      let root := fst (context_root context st) in
      let st' := snd (context_root context st) in
      parse_keybinding source = Ok (pre ++ k :: rest) ->
      lookup_path (heap_of st') (VDict root) pre = Some (VDict l) ->
      (heap_of st' !!! l : dict) !! k = None ->
      copy context source target st = Some (Raise KeyError, st')).
Proof.
  split.
  - intros context source target st root src tgt v Hb Hroot Hsrc Htgt Hdiv Hwalk.
    destruct (built_forest st Hb) as [Fc [Htrees _]].
    destruct (Htrees _ _ Hroot) as [Hown Hsub].
    by apply (alias_isolated_in_tree context source target st root (Fc context) src tgt v).
  - apply copy_absent_raises.
Qed.

Lemma alias_is_isolated_witness :
  let st := snd (bind "root" "gx" (VLeaf (Action 2))
              (snd (bind "root" "gg" (VLeaf (Action 1)) KeyMaps_init))) in
  exists st1,
    copy "root" "g" "z" st = Some (Ok tt, st1) /\
    lookup_path (heap_of st1) (VDict 1%positive) [122; 103] = Some (VLeaf (Action 1)) /\
    lookup_path (heap_of st1) (VDict 1%positive) [122; 120] = Some (VLeaf (Action 2)) /\
    lookup_path (heap_of (snd (bind "root" "gg" (VLeaf (Action 3)) st1)))
      (VDict 1%positive) [122; 103] = Some (VLeaf (Action 1)) /\
    lookup_path (heap_of (snd (unbind "root" "gx" st1)))
      (VDict 1%positive) [122; 120] = Some (VLeaf (Action 2)) /\
    copy "root" "gz" "z" st = Some (Raise KeyError, st).
Proof.
  intros st. destruct alias_is_isolated as [Hiso Hkey].
  assert (Hb : built st) by (apply built_bind, built_bind, built_init).
  destruct (Hiso "root"%string "g"%string "z"%string st 1%positive
              [103] [122] (VDict 2%positive) Hb eq_refl eq_refl eq_refl eq_refl eq_refl)
    as (st1 & v' & Hcopy & _ & Hlook & _ & _ & Hbind & Hunbind).
  pose proof Hcopy as Hst1. vm_compute in Hst1. injection Hst1 as Hst1.
  assert (Hg : lookup_path (heap_of st1) (VDict 1%positive) [122; 103] =
               Some (VLeaf (Action 1))) by (rewrite <- Hst1; reflexivity).
  assert (Hx : lookup_path (heap_of st1) (VDict 1%positive) [122; 120] =
               Some (VLeaf (Action 2))) by (rewrite <- Hst1; reflexivity).
  exists st1. split; [exact Hcopy|]. split; [exact Hg|]. split; [exact Hx|].
  split; [|split].
  - rewrite <- Hg. apply (Hbind "gg"%string [103] (VLeaf (Action 3)) [103]). reflexivity.
  - rewrite <- Hx. apply (Hunbind "gx"%string [120] [120]). reflexivity.
  - apply (Hkey "root"%string "gz"%string "z"%string st [103] 122 [] 2%positive);
      reflexivity.
Defined.

End ForestFacts.

(** ** The dispatch of the controller *)

Module TopFacts.

Import Lexer Store KeyBinding Sessions BufferFacts.
Import Top.

Section Dispatch.

Variable UI : Type.
Variable invoke : nat -> UI -> option exn * UI.

Local Abbreviation top := (Top.top UI).
Local Abbreviation press := (Top.press UI invoke).
Local Abbreviation call := (Top.call UI invoke).

(** Calling the result changes the rest of the controller only. *)
Lemma call_keys_state f (t : top) : keys_state UI (snd (call f t)) = keys_state UI t.
Proof.
  unfold Top.call. destruct f as [l|[a|x]]; [done| |done].
  by destruct (invoke a (ui UI t)) as [[e|] u].
Qed.

(** C10: when [add], inside [Top.press], returns with a result and with
    parsing finished, the key buffer that [press] leaves is the cleared
    one (a fresh buffer over the same keymap, with no consumed key),
    whether the call of the result returned or raised; an exception of
    the action, [BreakLoop] included, leaves [press] after the clearing. *)
Theorem press_clears_finished_even_on_raise (key : Z) (t : top) (kb : KeyBuffer) :
  add (heap_of (keys_state UI t)) key (keybuffer (keys_state UI t)) = (Ok tt, kb) ->
  result kb <> None ->
  finished_parsing kb = true ->
  keybuffer (keys_state UI (snd (press key t))) =
    KeyBuffer_init (heap_of (keys_state UI t)) (keymap kb) /\
  keys (keybuffer (keys_state UI (snd (press key t)))) = [] /\
  (forall a e u,
      result kb = Some (VLeaf (Action a)) ->
      invoke a (ui UI t) = (Some e, u) ->
      fst (press key t) = Raise e) /\
  (forall a u,
      result kb = Some (VLeaf (Action a)) ->
      invoke a (ui UI t) = (None, u) ->
      fst (press key t) = Ok true).
Proof.
  intros Hadd Hres Hfin. unfold Top.press. rewrite Hadd.
  destruct (result kb) as [f|] eqn:Hf; [|done].
  set (t1 := set_keybuffer UI kb t).
  pose proof (call_keys_state f t1) as Hks.
  destruct (call f t1) as [r' t2] eqn:Hcall. cbn [snd] in Hks.
  rewrite Hks. subst t1. cbn [set_keybuffer keys_state keybuffer]. rewrite Hfin.
  assert (Hkb : keybuffer (keys_state UI
            (snd (match r' with
                  | Ok _ => (Ok true, set_keybuffer UI (clear (heap_of (keys_state UI t)) kb) t2)
                  | Raise e => (Raise e, set_keybuffer UI (clear (heap_of (keys_state UI t)) kb) t2)
                  end))) = KeyBuffer_init (heap_of (keys_state UI t)) (keymap kb)).
  { by destruct r'. }
  split; [exact Hkb|]. split; [by rewrite Hkb|].
  split.
  - intros a e u [= ->] Hinv. unfold Top.call in Hcall. cbn [ui set_keybuffer] in Hcall.
    rewrite Hinv in Hcall. by injection Hcall as <- <-.
  - intros a u [= ->] Hinv. unfold Top.call in Hcall. cbn [ui set_keybuffer] in Hcall.
    rewrite Hinv in Hcall. by injection Hcall as <- <-.
Qed.

End Dispatch.

Lemma press_clears_finished_even_on_raise_witness :
  let t := quit_session in
  let r := Top.press nat counter_invoke 113 t in
  fst r = Raise BreakLoop /\
  keys (keybuffer (Top.keys_state nat (snd r))) = [].
Proof.
  intros t r.
  pose proof (press_clears_finished_even_on_raise nat counter_invoke 113 t
                (snd (add (heap_of (Top.keys_state nat t)) 113
                        (keybuffer (Top.keys_state nat t))))
                eq_refl) as H.
  destruct H as (_ & Hkeys & Hraise & _); [discriminate|reflexivity|].
  split; [|exact Hkeys].
  apply (Hraise 1%nat BreakLoop 0%nat); reflexivity.
Defined.

(** [handle_key] activates [root] before every key that the containers
    leave to it; the first [g] of ["gg"] stays in the buffer, and the
    second completes the sequence. *)
Lemma handle_key_twice_completes_gg :
  let handle := Top.handle_key nat counter_invoke never_consumes in
  let t1 := snd (handle 103 gg_session) in
  let t2 := snd (handle 103 t1) in
  keys (keybuffer (Top.keys_state nat t1)) = [103] /\
  Top.ui nat t1 = 0%nat /\
  fst (handle 103 t1) = Ok tt /\
  Top.ui nat t2 = 1%nat /\
  keys (keybuffer (Top.keys_state nat t2)) = [].
Proof. vm_compute. done. Qed.

End TopFacts.

(** ** More on the lexer *)

Module LexerMore.

Import Lexer LexerNotions LexerFacts.

Lemma ord_range c : 0 <= ord c < 256.
Proof.
  unfold ord. pose proof (nat_ascii_bounded c). lia.
Qed.

Lemma ord_chr k : 0 <= k < 256 -> ord (chr k) = k.
Proof.
  intros Hk. unfold ord, chr. rewrite nat_ascii_embedding by lia. lia.
Qed.

Lemma ord_inj c c' : ord c = ord c' -> c = c'.
Proof.
  intros H. rewrite <- (chr_ord c), <- (chr_ord c'). by rewrite H.
Qed.

(** Outside brackets the content of the last bracket plays no part. *)
Lemma parse_loop_outside l : forall bc bc',
  parse_loop l false bc = parse_loop l false bc'.
Proof.
  induction l as [|c l IH]; intros bc bc'; [done|].
  cbn [parse_loop]. destruct (Ascii.eqb c "<"); [done|]. by rewrite (IH bc bc').
Qed.

(** *** What a bracket yields *)

Lemma parse_bracket_nonempty bc ys : parse_bracket bc = Ok ys -> ys <> [].
Proof.
  unfold parse_bracket.
  destruct (dict_get SPECIAL_KEYS _) as [[k|a b]|].
  - by intros [= <-].
  - by intros [= <-].
  - destruct (isdigit _).
    + destruct (int _); [by intros [= <-]|done].
    + by intros [= <-].
Qed.

Lemma parse_loop_nil l : forall b bc,
  parse_loop l b bc = Ok [] -> l = [] /\ b = false.
Proof.
  induction l as [|c l IH]; intros b bc H.
  - cbn [parse_loop] in H. by destruct b.
  - exfalso. cbn [parse_loop] in H. destruct b.
    + destruct (Ascii.eqb c ">").
      * destruct (parse_bracket bc) as [ys|e] eqn:Hb; [|done].
        destruct (parse_loop l false bc) as [zs|e]; [|done].
        injection H as H. apply app_eq_nil in H as [-> _].
        by apply (parse_bracket_nonempty _ _ Hb).
      * by destruct (IH _ _ H).
    + destruct (Ascii.eqb c "<").
      * by destruct (IH _ _ H).
      * by destruct (parse_loop l false bc).
Qed.

(** X1: [parse_keybinding] yields no key at all on the empty text only:
    every character of a text gives a key, or is part of a bracket that
    gives one. *)
Theorem parse_keybinding_empty_iff (text : string) :
  parse_keybinding text = Ok [] <-> text = ""%string.
Proof.
  split; [|by intros ->].
  intros H. apply parse_loop_nil in H as [H _].
  rewrite <- (string_of_list_ascii_of_string text), H. done.
Qed.

(** *** When the lexer raises *)

Lemma lower_char_superscript c :
  is_superscript_digit (lower_char c) = is_superscript_digit c.
Proof.
  destruct c as [[|] [|] [|] [|] [|] [|] [|] [|]]; reflexivity.
Qed.

Lemma isdigit_char_plain c :
  is_superscript_digit c = false -> isdigit_char c = is_ascii_digit c.
Proof.
  unfold isdigit_char, is_superscript_digit.
  intros H. apply orb_false_elim in H as [H H3]. apply orb_false_elim in H as [H1 H2].
  rewrite H1, H2, H3. by rewrite !orb_false_r.
Qed.

Lemma int_ok_of_isdigit (str : list ascii) :
  forallb (fun c => negb (is_superscript_digit c)) str = true ->
  isdigit str = true -> exists n, int str = Ok n.
Proof.
  intros Hs Hd. unfold int.
  assert (forallb is_ascii_digit str = true) as ->; [|eauto].
  assert (Hall : forallb isdigit_char str = true) by (by destruct str).
  clear Hd. induction str as [|c str IH]; [done|].
  cbn [forallb] in *. apply andb_prop in Hs as [Hc Hs]. apply andb_prop in Hall as [Hdc Hall].
  apply negb_true_iff in Hc. rewrite <- (isdigit_char_plain c Hc), Hdc. by apply IH.
Qed.

Lemma parse_bracket_returns bc :
  forallb (fun c => negb (is_superscript_digit c)) bc = true ->
  exists ys, parse_bracket bc = Ok ys.
Proof.
  intros Hs. unfold parse_bracket. cbv zeta.
  match goal with |- context [dict_get SPECIAL_KEYS ?x] => set (str := x) end.
  assert (Hstr : forallb (fun c => negb (is_superscript_digit c)) str = true).
  { assert (Hlow : forallb (fun c => negb (is_superscript_digit c)) (lower bc) = true).
    { unfold lower. rewrite forallb_forall in Hs |- *. intros c Hc.
      apply in_map_iff in Hc as (c0 & <- & Hc0). rewrite lower_char_superscript. by apply Hs. }
    subst str. destruct (_ && _); [|done].
    rewrite !forallb_app. apply andb_true_intro. split; [|apply andb_true_intro; split].
    - rewrite forallb_forall in Hlow |- *. intros c Hc. apply Hlow.
      rewrite <- (firstn_skipn 1 (lower bc)). apply in_or_app. by left.
    - reflexivity.
    - rewrite forallb_forall in Hs |- *. intros c Hc. apply Hs.
      rewrite <- (firstn_skipn 2 bc). apply in_or_app. by right. }
  destruct (dict_get SPECIAL_KEYS str) as [[k|a b]|]; [eauto..|].
  destruct (isdigit str) eqn:Hd; [|eauto].
  destruct (int_ok_of_isdigit str Hstr Hd) as [n ->]. eauto.
Qed.

Lemma parse_loop_returns l : forall b bc,
  forallb (fun c => negb (is_superscript_digit c)) l = true ->
  forallb (fun c => negb (is_superscript_digit c)) bc = true ->
  exists ks, parse_loop l b bc = Ok ks.
Proof.
  induction l as [|c l IH]; intros b bc Hl Hbc.
  - cbn [parse_loop]. destruct b; eauto.
  - cbn [forallb] in Hl. apply andb_prop in Hl as [Hc Hl].
    cbn [parse_loop]. destruct b.
    + destruct (Ascii.eqb c ">").
      * destruct (parse_bracket_returns bc Hbc) as [ys ->].
        destruct (IH false bc Hl Hbc) as [zs ->]. eauto.
      * apply IH; [done|]. rewrite forallb_app. cbn [forallb]. by rewrite Hbc, Hc.
    + destruct (Ascii.eqb c "<").
      * by apply IH.
      * destruct (IH false bc Hl Hbc) as [zs ->]. eauto.
Qed.

(** X2: [parse_keybinding] returns on every text that has none of the three
    superscript digits (on every ASCII text, then); on ["<²>"] it raises
    the [ValueError] of [int]. *)
Theorem parse_keybinding_returns (text : string) :
  without_superscript_digits text = true ->
  exists ks, parse_keybinding text = Ok ks.
Proof. intros H. by apply parse_loop_returns. Qed.

Lemma parse_keybinding_returns_witness :
  without_superscript_digits "x<A-Left><12><foo" = true /\
  exists ks, parse_keybinding "x<A-Left><12><foo" = Ok ks.
Proof.
  split; [reflexivity|].
  apply (parse_keybinding_returns "x<A-Left><12><foo"). reflexivity.
Defined.

Lemma parse_keybinding_superscript_raises :
  parse_keybinding (String "<" (String (chr 178) (String ">" EmptyString))) = Raise ValueError.
Proof. reflexivity. Qed.

(** *** The keys the lexer yields *)

Lemma dict_get_In {K V} `{EqDecision K} (d : list (K * V)) k v :
  dict_get d k = Some v -> In (k, v) d.
Proof.
  induction d as [|[k' v'] d IH]; [done|]. cbn [dict_get].
  destruct (decide (k' = k)) as [->|Hne].
  - intros [= ->]. by left.
  - intros H. right. by apply IH.
Qed.

Lemma special_keys_bounds :
  forallb (fun kv : list ascii * keyval =>
             match snd kv with
             | KInt k => -1 <=? k
             | KPair a b => (-1 <=? a) && (-1 <=? b)
             end) SPECIAL_KEYS = true.
Proof. vm_compute. reflexivity. Qed.

Lemma int_digits_acc (str : list ascii) : forall acc,
  0 <= acc -> forallb is_ascii_digit str = true ->
  0 <= fold_left (fun acc c => acc * 10 + (ord c - 48)) str acc.
Proof.
  induction str as [|c str IH]; intros acc Hacc Hd; [done|].
  cbn [forallb] in Hd. apply andb_prop in Hd as [Hc Hd].
  cbn [fold_left]. apply IH; [|done].
  unfold is_ascii_digit in Hc. lia.
Qed.

Lemma parse_bracket_bounds bc ys :
  parse_bracket bc = Ok ys -> Forall (fun k => -1 <= k) ys.
Proof.
  unfold parse_bracket. cbv zeta.
  match goal with |- context [dict_get SPECIAL_KEYS ?x] => set (str := x) end.
  destruct (dict_get SPECIAL_KEYS str) as [[k|a b]|] eqn:Hget.
  - intros [= <-]. apply dict_get_In in Hget.
    pose proof special_keys_bounds as Hb. rewrite forallb_forall in Hb.
    specialize (Hb _ Hget). cbn in Hb. repeat constructor. lia.
  - intros [= <-]. apply dict_get_In in Hget.
    pose proof special_keys_bounds as Hb. rewrite forallb_forall in Hb.
    specialize (Hb _ Hget). cbn in Hb. repeat constructor; lia.
  - destruct (isdigit str).
    + unfold int. destruct (forallb is_ascii_digit str) eqn:Hd; [|done].
      intros [= <-]. repeat constructor.
      pose proof (int_digits_acc str 0 ltac:(lia) Hd). lia.
    + intros [= <-]. constructor; [done|]. apply Forall_app. split.
      * apply Forall_forall. intros k Hk. apply list_elem_of_In, in_map_iff in Hk as (c & <- & _).
        pose proof (ord_range c). lia.
      * repeat constructor. done.
Qed.

Lemma parse_loop_bounds l : forall b bc ks,
  parse_loop l b bc = Ok ks -> Forall (fun k => -1 <= k) ks.
Proof.
  induction l as [|c l IH]; intros b bc ks H; cbn [parse_loop] in H.
  - destruct b; injection H as <-; [|constructor].
    constructor; [done|]. apply Forall_forall. intros k Hk.
    apply list_elem_of_In, in_map_iff in Hk as (c & <- & _). pose proof (ord_range c). lia.
  - destruct b.
    + destruct (Ascii.eqb c ">").
      * destruct (parse_bracket bc) as [ys|e] eqn:Hb; [|done].
        destruct (parse_loop l false bc) as [zs|e] eqn:Hz; [|done].
        injection H as <-. apply Forall_app. split.
        -- by eapply parse_bracket_bounds.
        -- by eapply IH.
      * by eapply IH.
    + destruct (Ascii.eqb c "<").
      * by eapply IH.
      * destruct (parse_loop l false bc) as [zs|e] eqn:Hz; [|done].
        injection H as <-. constructor; [pose proof (ord_range c); lia|by eapply IH].
Qed.

(** X3: Every key that [parse_keybinding] yields is -1 (the key of
    ["<c-_>"]) or more. *)
Theorem parse_keybinding_bounds (text : string) (ks : list Z) :
  parse_keybinding text = Ok ks -> Forall (fun k => -1 <= k) ks.
Proof. apply parse_loop_bounds. Qed.

Lemma parse_keybinding_bounds_witness :
  parse_keybinding "<c-_>x<A-Left>" = Ok [-1; 120; 9003; 260] /\
  Forall (fun k => -1 <= k) [-1; 120; 9003; 260].
Proof.
  split; [reflexivity|].
  apply (parse_keybinding_bounds "<c-_>x<A-Left>"). reflexivity.
Defined.

(** *** Reading back what [construct_keybinding] writes *)

Lemma fold_digit_chars d : forall acc,
  fold_left (fun acc c => acc * 10 + (ord c - 48)) (digit_chars d) acc = digits_value d acc.
Proof.
  unfold digit_chars.
  induction d as [|d IH|d IH|d IH|d IH|d IH|d IH|d IH|d IH|d IH|d IH]; intros acc;
    [done|cbn [NilEmpty.string_of_uint list_ascii_of_string fold_left digits_value];
          rewrite IH; reflexivity..].
Qed.

Lemma digits_value_pos d : forall p,
  digits_value d (Z.pos p) = Z.pos (Pos.of_uint_acc d p).
Proof.
  induction d as [|d IH|d IH|d IH|d IH|d IH|d IH|d IH|d IH|d IH|d IH]; intros p;
    [done|cbn [digits_value Pos.of_uint_acc]; rewrite <- IH; f_equal; lia..].
Qed.

Lemma digits_value_zero d : digits_value d 0 = Z.of_N (Pos.of_uint d).
Proof.
  induction d as [|d IH|d IH|d IH|d IH|d IH|d IH|d IH|d IH|d IH|d IH];
    [done|exact IH|cbn [digits_value Pos.of_uint]; apply digits_value_pos..].
Qed.

Lemma digit_chars_digits d : forallb is_ascii_digit (digit_chars d) = true.
Proof.
  unfold digit_chars.
  induction d as [|d IH|d IH|d IH|d IH|d IH|d IH|d IH|d IH|d IH|d IH];
    [done|cbn [NilEmpty.string_of_uint list_ascii_of_string forallb]; by rewrite IH..].
Qed.

Lemma digit_chars_nonempty d : d <> Decimal.Nil -> digit_chars d <> [].
Proof. by destruct d. Qed.

(** [str(key)] of a key from 0 on is a decimal numeral of that key. *)
Lemma str_of_int_digits k :
  0 <= k ->
  exists d, str_of_int k = digit_chars d /\ d <> Decimal.Nil /\ Z.of_N (Pos.of_uint d) = k.
Proof.
  intros Hk. destruct k as [|p|p]; [| |lia].
  - by exists (Decimal.D0 Decimal.Nil).
  - exists (Pos.to_uint p). split; [|split].
    + unfold str_of_int, digit_chars. cbn [Z.to_int NilZero.string_of_int].
      unfold NilZero.string_of_uint.
      pose proof (DecimalPos.Unsigned.to_uint_nonnil p). by destruct (Pos.to_uint p).
    + apply DecimalPos.Unsigned.to_uint_nonnil.
    + by rewrite DecimalPos.Unsigned.of_to.
Qed.

Lemma special_keys_names :
  forallb (fun kv : list ascii * keyval =>
             match fst kv with
             | [] => false
             | c :: _ => negb (is_ascii_digit c)
             end) SPECIAL_KEYS = true.
Proof. vm_compute. reflexivity. Qed.

(** No name of the table starts with a digit. *)
Lemma special_keys_no_numeral c str :
  is_ascii_digit c = true -> dict_get SPECIAL_KEYS (c :: str) = None.
Proof.
  intros Hc. pose proof special_keys_names as Hn.
  induction SPECIAL_KEYS as [|[name v] tbl IH]; [done|].
  cbn [forallb fst] in Hn. apply andb_prop in Hn as [Hname Hn].
  cbn [dict_get]. destruct (decide (name = c :: str)) as [->|Hne].
  - by rewrite Hc in Hname.
  - by apply IH.
Qed.

Lemma lower_char_digit c : is_ascii_digit c = true -> lower_char c = c.
Proof.
  destruct c as [[|] [|] [|] [|] [|] [|] [|] [|]]; (reflexivity || discriminate).
Qed.

Lemma lower_digits str : forallb is_ascii_digit str = true -> lower str = str.
Proof.
  induction str as [|c str IH]; [done|]. cbn [forallb lower map].
  intros [Hc Hs]%andb_prop. rewrite lower_char_digit by done. f_equal. by apply IH.
Qed.

(** A bracket that holds a decimal numeral yields the value of the
    numeral. *)
Lemma parse_bracket_numeral d :
  d <> Decimal.Nil ->
  parse_bracket (digit_chars d) = Ok [Z.of_N (Pos.of_uint d)].
Proof.
  intros Hd. pose proof (digit_chars_digits d) as Hdig.
  pose proof (digit_chars_nonempty d Hd) as Hne.
  unfold parse_bracket. cbv zeta. rewrite (lower_digits _ Hdig).
  destruct (digit_chars d) as [|c str] eqn:Hchars; [done|].
  pose proof Hdig as Hdig'. cbn [forallb] in Hdig'. apply andb_prop in Hdig' as [Hc Hstr].
  assert (Hsw : forall p, is_ascii_digit p = false ->
                  forall q, startswith [p; q] (c :: str) = false).
  { intros p Hp q. unfold startswith. apply bool_decide_eq_false_2.
    destruct str; cbn; intros [= <- _]; congruence. }
  unfold s. cbn [list_ascii_of_string].
  rewrite !Hsw by reflexivity. rewrite andb_false_r.
  rewrite (special_keys_no_numeral c str Hc).
  assert (isdigit (c :: str) = true) as ->.
  { unfold isdigit. rewrite forallb_forall in Hdig |- *. intros x Hx.
    unfold isdigit_char. by rewrite (Hdig x Hx). }
  unfold int. rewrite Hdig.
  rewrite <- Hchars, fold_digit_chars, digits_value_zero. done.
Qed.

(** What the reversed table holds for an integer key is a name without
    ['>'] that the table maps to that key. *)
Lemma reversed_names_read_back :
  forallb (fun vk : keyval * list ascii =>
             match fst vk with
             | KInt k =>
                 forallb (fun c => negb (Ascii.eqb c ">")) (snd vk) &&
                 match parse_bracket (snd vk) with
                 | Ok [k'] => k' =? k
                 | _ => false
                 end
             | KPair _ _ => true
             end) REVERSED_SPECIAL_KEYS = true.
Proof. vm_compute. reflexivity. Qed.

Lemma reversed_name_spec k name :
  dict_get REVERSED_SPECIAL_KEYS (KInt k) = Some name ->
  forallb (fun c => negb (Ascii.eqb c ">")) name = true /\ parse_bracket name = Ok [k].
Proof.
  intros Hget. apply dict_get_In in Hget.
  pose proof reversed_names_read_back as Hr. rewrite forallb_forall in Hr.
  specialize (Hr _ Hget). cbn [fst snd] in Hr. apply andb_prop in Hr as [Hgt Hp].
  split; [done|].
  destruct (parse_bracket name) as [[|k' [|]]|]; try done.
  apply Z.eqb_eq in Hp. by subst.
Qed.

(** Inside a bracket, characters other than ['>'] are collected up to
    the ['>'] that closes it. *)
Lemma parse_loop_bracket name : forall rest bc,
  forallb (fun c => negb (Ascii.eqb c ">")) name = true ->
  parse_loop (name ++ ">"%char :: rest) true bc =
    match parse_bracket (bc ++ name) with
    | Ok ys =>
        match parse_loop rest false [] with
        | Ok zs => Ok (ys ++ zs)
        | Raise e => Raise e
        end
    | Raise e => Raise e
    end.
Proof.
  induction name as [|c name IH]; intros rest bc Hname.
  - cbn [app parse_loop]. rewrite app_nil_r.
    change (Ascii.eqb ">" ">") with true. cbn match.
    by rewrite (parse_loop_outside rest bc []).
  - cbn [forallb] in Hname. apply andb_prop in Hname as [Hc Hname].
    apply negb_true_iff in Hc. cbn [app parse_loop]. rewrite Hc.
    rewrite IH by done. by rewrite <- app_assoc.
Qed.

(** One key, written by [key_to_string], is read back as that key. *)
Lemma parse_loop_key k rest bc :
  readable_key k = true ->
  parse_loop (key_to_string k ++ rest) false bc =
    match parse_loop rest false [] with
    | Ok zs => Ok (k :: zs)
    | Raise e => Raise e
    end.
Proof.
  unfold readable_key. intros [Hlow Hlt]%andb_prop.
  apply negb_true_iff, Z.eqb_neq in Hlt. apply Z.leb_le in Hlow.
  unfold key_to_string. destruct ((33 <=? k) && (k <? 127)) eqn:Hgraphic.
  - apply andb_prop in Hgraphic as [H1 H2].
    assert (Hk : 0 <= k < 256) by lia.
    cbn [app parse_loop].
    assert (Ascii.eqb (chr k) "<" = false) as ->.
    { apply Ascii.eqb_neq. intros He. apply Hlt.
      rewrite <- (ord_chr k Hk), He. reflexivity. }
    by rewrite (parse_loop_outside rest bc []), (ord_chr k Hk).
  - assert (Hwrap : forall name,
              forallb (fun c => negb (Ascii.eqb c ">")) name = true ->
              parse_bracket name = Ok [k] ->
              parse_loop ((s "<" ++ name ++ s ">") ++ rest) false bc =
                match parse_loop rest false [] with
                | Ok zs => Ok (k :: zs)
                | Raise e => Raise e
                end).
    { intros name Hname Hp. unfold s. cbn [list_ascii_of_string app].
      rewrite <- app_assoc. cbn [app parse_loop].
      change (Ascii.eqb "<" "<") with true. cbn match.
      by rewrite (parse_loop_bracket name rest [] Hname), app_nil_l, Hp. }
    destruct (dict_get REVERSED_SPECIAL_KEYS (KInt k)) as [name|] eqn:Hrev.
    + destruct (reversed_name_spec k name Hrev) as [Hname Hp]. by apply Hwrap.
    + assert (Hk : 0 <= k).
      { destruct (decide (k = -1)) as [->|]; [by vm_compute in Hrev|lia]. }
      destruct (str_of_int_digits k Hk) as (d & -> & Hd & Hval).
      apply Hwrap.
      * pose proof (digit_chars_digits d) as Hdig.
        rewrite forallb_forall in Hdig |- *. intros c Hc. specialize (Hdig c Hc).
        apply negb_true_iff, Ascii.eqb_neq. intros ->. discriminate.
      * by rewrite parse_bracket_numeral, Hval.
Qed.

Lemma parse_loop_construct keys :
  forallb readable_key keys = true ->
  parse_loop (concat (map key_to_string keys)) false [] = Ok keys.
Proof.
  induction keys as [|k keys IH]; [done|]. cbn [forallb map concat].
  intros [Hk Hkeys]%andb_prop. by rewrite parse_loop_key, IH.
Qed.

(** X4: [parse_keybinding] reads back what [construct_keybinding] writes,
    for keys from -1 on other than the key of ['<']. *)
Theorem parse_construct_keybinding (keys : list Z) :
  forallb readable_key keys = true ->
  parse_keybinding (construct_keybinding keys) = Ok keys.
Proof.
  intros H. unfold parse_keybinding, construct_keybinding.
  rewrite list_ascii_of_string_of_list_ascii. by apply parse_loop_construct.
Qed.

Lemma parse_construct_keybinding_witness :
  forallb readable_key [10; 9003; 260; 32; -1; 500; 0; 62; 113] = true /\
  parse_keybinding (construct_keybinding [10; 9003; 260; 32; -1; 500; 0; 62; 113]) =
    Ok [10; 9003; 260; 32; -1; 500; 0; 62; 113].
Proof.
  split; [reflexivity|].
  apply (parse_construct_keybinding [10; 9003; 260; 32; -1; 500; 0; 62; 113]). reflexivity.
Defined.

(** X5: Lexing is idempotent on its own unparsed output when no key of ['<']
    was lexed. *)
Theorem parse_unparse_parse_without_lt (x : string) (ks : list Z) :
  parse_keybinding x = Ok ks ->
  forallb (fun k => negb (k =? 60)) ks = true ->
  parse_unparse_parse x = Ok ks.
Proof.
  intros Hp Hlt. unfold parse_unparse_parse, unparse_parse. rewrite Hp.
  unfold parse_keybinding, construct_keybinding.
  rewrite list_ascii_of_string_of_list_ascii. apply parse_loop_construct.
  pose proof (parse_loop_bounds _ _ _ _ Hp) as Hb.
  rewrite forallb_forall in Hlt |- *. intros k Hk.
  unfold readable_key. rewrite (Hlt k Hk), andb_true_r.
  rewrite Forall_forall in Hb. apply Z.leb_le, Hb. by apply list_elem_of_In.
Qed.

Lemma parse_unparse_parse_without_lt_witness :
  parse_unparse_parse "x<CR><A-Left> <F5>" = Ok [120; 10; 9003; 260; 32; 269].
Proof.
  apply (parse_unparse_parse_without_lt "x<CR><A-Left> <F5>" [120; 10; 9003; 260; 32; 269]);
    reflexivity.
Defined.

End LexerMore.

(** ** Runs of the key buffer *)

Module BufferMore.

Import Lexer Store KeyBinding LexerNotions BufferNotions.

Lemma add_keys_log h ks : forall kb r kb',
  add_keys h ks kb = (r, kb') ->
  keymap kb' = keymap kb /\
  match r with
  | Ok _ => keys kb' = keys kb ++ ks
  | Raise _ => exists n, keys kb' = keys kb ++ take (S n) ks
  end.
Proof.
  assert (Hstep : forall key kb, keys (snd (add h key kb)) = keys kb ++ [key] /\
                                 keymap (snd (add h key kb)) = keymap kb).
  { intros key kb. unfold add. cbv zeta. cbn [finished_parsing_quantifier pointer].
    destruct (negb _ && _); [done|].
    destruct (pointer kb) as [[l|x]|]; [|done..].
    destruct ((h !!! l : dict) !! key) as [[?|?]|]; [done..|].
    destruct ((h !!! l : dict) !! any_key) as [[?|?]|]; [| |done];
      by destruct (bool_decide _). }
  induction ks as [|key ks IH]; intros kb r kb' Hrun; cbn [add_keys] in Hrun.
  - injection Hrun as <- <-. by rewrite app_nil_r.
  - destruct (Hstep key kb) as [Hk Hm].
    destruct (add h key kb) as [[[]|e] kb1]; cbn [snd] in Hk, Hm.
    + destruct (IH _ _ _ Hrun) as [Hm' Hk']. split; [congruence|].
      destruct r as [[]|e].
      * by rewrite Hk', Hk, <- app_assoc.
      * destruct Hk' as [n Hn]. exists (S n).
        rewrite Hn, Hk, <- app_assoc. done.
    + injection Hrun as <- <-. split; [done|]. exists 0%nat. by rewrite Hk.
Qed.

(** X6: The text of a key buffer lexes back to the keys that were fed to it
    since it was cleared, digits of a count and keys that matched
    nothing included. *)
Theorem buffer_text_lexes_back h km ks kb :
  add_keys h ks (KeyBuffer_init h km) = (Ok tt, kb) ->
  forallb readable_key ks = true ->
  keys kb = ks /\ parse_keybinding (KeyBuffer_str kb) = Ok ks.
Proof.
  intros Hrun Hks. destruct (add_keys_log h ks _ _ _ Hrun) as [_ Hkeys].
  cbn in Hkeys. split; [done|]. unfold KeyBuffer_str. rewrite Hkeys.
  unfold parse_keybinding. rewrite list_ascii_of_string_of_list_ascii.
  by apply LexerMore.parse_loop_construct.
Qed.

Lemma buffer_text_lexes_back_witness :
  let h := heap_of Sessions.counting_session in
  let kb := snd (add_keys h [51; 27] (KeyBuffer_init h (Some 1%positive))) in
  keys kb = [51; 27] /\ parse_keybinding (KeyBuffer_str kb) = Ok [51; 27].
Proof.
  apply (buffer_text_lexes_back (heap_of Sessions.counting_session) (Some 1%positive)
           [51; 27]); [vm_compute; reflexivity|reflexivity].
Defined.

(** What one [add] does to the lists and the quantifier state of the
    buffer, whether it returns or raises. *)
Lemma add_step h key kb :
  let kb' := snd (add h key kb) in
  keys kb' = keys kb ++ [key] /\
  (wildcards kb' = wildcards kb \/
   (wildcards kb' = wildcards kb ++ [key] /\ key ∉ exclude_from_anykey)) /\
  (finished_parsing_quantifier kb = true ->
   finished_parsing_quantifier kb' = true /\ quantifier kb' = quantifier kb).
Proof.
  assert (Hm1 : forall v kb0, keys (add_moved h v kb0) = keys kb0) by by intros [l|x] kb0.
  assert (Hm2 : forall v kb0, wildcards (add_moved h v kb0) = wildcards kb0)
    by by intros [l|x] kb0.
  assert (Hm3 : forall v kb0, finished_parsing_quantifier (add_moved h v kb0) =
                              finished_parsing_quantifier kb0) by by intros [l|x] kb0.
  assert (Hm4 : forall v kb0, quantifier (add_moved h v kb0) = quantifier kb0)
    by by intros [l|x] kb0.
  cbv zeta. unfold add. cbv zeta. cbn [finished_parsing_quantifier pointer quantifier].
  destruct (negb (finished_parsing_quantifier kb) && bool_decide (key ∈ DIGITS)) eqn:Hdig.
  - apply andb_prop in Hdig as [Hq%negb_true_iff _]. rewrite Hq.
    cbn [snd keys wildcards]. split; [done|]. split; [by left|done].
  - destruct (pointer kb) as [[l|x]|]; [|cbn [snd]; by auto..].
    destruct ((h !!! l : dict) !! key) as [v|].
    { cbn [snd]. rewrite Hm1, Hm2, Hm3, Hm4. by auto. }
    destruct ((h !!! l : dict) !! any_key) as [v|]; [|cbn [snd]; by auto].
    destruct (bool_decide (key ∉ exclude_from_anykey)) eqn:Hex; [|cbn [snd]; by auto].
    apply bool_decide_eq_true_1 in Hex.
    cbn [snd]. rewrite Hm1, Hm2, Hm3, Hm4. by auto.
Qed.



(** X8: A keymap that holds the string ['false'] under the quantifier key
    switches counts off: no run of [add] over it ever sets a
    quantifier, digits are looked up like any other key. *)
Theorem quantifier_switched_off h l (d : dict) kb :
  h !! l = Some d ->
  d !! quantifier_key = Some (VLeaf (Str "false")) ->
  reachable h (Some l) kb ->
  quantifier kb = None /\ finished_parsing_quantifier kb = true.
Proof.
  intros Hl Hq. induction 1 as [|kb key kb' _ [IHq IHf] ->].
  - cbn [KeyBuffer_init quantifier finished_parsing_quantifier truthy].
    rewrite (lookup_total_correct _ _ _ Hl), Hq.
    split; [done|]. apply andb_true_intro. split.
    + apply negb_true_iff, bool_decide_eq_false_2. intros ->.
      by rewrite lookup_empty in Hq.
    + by apply bool_decide_eq_true_2.
  - destruct (add_step h key kb) as (_ & _ & Hfix).
    destruct (Hfix IHf) as [-> ->]. done.
Qed.

Lemma quantifier_switched_off_witness :
  let st := Sessions.plain_digit_session in
  let kb := snd (add (heap_of st) 49 (keybuffer st)) in
  quantifier kb = None /\ finished_parsing_quantifier kb = true.
Proof.
  eapply (quantifier_switched_off (heap_of Sessions.plain_digit_session) 1%positive);
    [vm_compute; reflexivity|vm_compute; reflexivity|].
  eapply reachable_add; [|reflexivity].
  assert (keybuffer Sessions.plain_digit_session =
          KeyBuffer_init (heap_of Sessions.plain_digit_session) (Some 1%positive)) as ->
    by (vm_compute; reflexivity).
  apply reachable_fresh.
Defined.

(** [add] of a key that the node under the pointer holds, past the
    count or for a key that is no digit. *)
Lemma add_found h k kb l v' :
  pointer kb = Some (VDict l) ->
  (h !!! l : dict) !! k = Some v' ->
  finished_parsing_quantifier kb = true \/ k ∉ DIGITS ->
  add h k kb =
    (Ok tt, add_moved h v'
       {| keymap := keymap kb; keys := keys kb ++ [k]; wildcards := wildcards kb;
          pointer := pointer kb; result := None; quantifier := quantifier kb;
          finished_parsing_quantifier := true;
          finished_parsing := finished_parsing kb;
          parse_error := parse_error kb |}).
Proof.
  intros Hp Hk Hq. unfold add. cbv zeta.
  cbn [finished_parsing_quantifier pointer keymap keys wildcards
       result quantifier finished_parsing parse_error].
  assert (negb (finished_parsing_quantifier kb) && bool_decide (k ∈ DIGITS) = false) as ->.
  { destruct Hq as [->|Hk']; [done|].
    rewrite (bool_decide_eq_false_2 _ Hk'). apply andb_false_r. }
  rewrite Hp. by rewrite Hk.
Qed.

(** Past the count, the keys of a path of the trie that ends in a leaf
    take the pointer to that leaf: every [add] returns, the leaf is the
    result, and no wildcard is used ([key in self.pointer] is tested
    first). *)
Lemma add_keys_path h x ks : forall v kb,
  ks <> [] ->
  pointer kb = Some v ->
  finished_parsing_quantifier kb = true \/ hd 0 ks ∉ DIGITS ->
  lookup_path h v ks = Some (VLeaf x) ->
  exists kb',
    add_keys h ks kb = (Ok tt, kb') /\
    pointer kb' = Some (VLeaf x) /\ result kb' = Some (VLeaf x) /\
    finished_parsing kb' = true /\ parse_error kb' = parse_error kb /\
    wildcards kb' = wildcards kb /\ quantifier kb' = quantifier kb /\
    keymap kb' = keymap kb.
Proof.
  induction ks as [|k ks IH]; intros v kb Hne Hp Hq Hpath; [done|].
  cbn [lookup_path] in Hpath. destruct v as [l|y]; [|done].
  destruct ((h !!! l : dict) !! k) as [v'|] eqn:Hk; [|done].
  pose proof (add_found h k kb l v' Hp Hk Hq) as Hadd.
  cbn [add_keys]. rewrite Hadd.
  destruct ks as [|k' ks].
  - cbn [lookup_path] in Hpath. injection Hpath as ->.
    eexists. split; [reflexivity|]. done.
  - destruct v' as [l'|y]; [|done].
    match type of Hadd with _ = (_, ?b) => set (kb1 := b) in * end.
    destruct (IH (VDict l') kb1) as (kb' & Hrun & H1 & H2 & H3 & H4 & H5 & H6 & H7);
      [done|reflexivity|by left|exact Hpath|].
    exists kb'. split; [exact Hrun|]. done.
Qed.

(** [add] of a key that the node under the pointer lacks, when no
    wildcard takes it: a dead end. *)
Lemma add_dead_end h k kb l :
  pointer kb = Some (VDict l) ->
  (h !!! l : dict) !! k = None ->
  (h !!! l : dict) !! any_key = None \/ k ∈ exclude_from_anykey ->
  finished_parsing_quantifier kb = true \/ k ∉ DIGITS ->
  add h k kb =
    (Ok tt, add_stuck
       {| keymap := keymap kb; keys := keys kb ++ [k]; wildcards := wildcards kb;
          pointer := pointer kb; result := None; quantifier := quantifier kb;
          finished_parsing_quantifier := true;
          finished_parsing := finished_parsing kb;
          parse_error := parse_error kb |}).
Proof.
  intros Hp Hk Hany Hq. unfold add. cbv zeta.
  cbn [finished_parsing_quantifier pointer keymap keys wildcards
       result quantifier finished_parsing parse_error].
  assert (negb (finished_parsing_quantifier kb) && bool_decide (k ∈ DIGITS) = false) as ->.
  { destruct Hq as [->|Hk']; [done|].
    rewrite (bool_decide_eq_false_2 _ Hk'). apply andb_false_r. }
  rewrite Hp, Hk. destruct ((h !!! l : dict) !! any_key) as [v|] eqn:Hv; [|done].
  destruct Hany as [?|Hex]; [done|].
  by rewrite (bool_decide_eq_false_2 (k ∉ exclude_from_anykey)) by (by intros ?).
Qed.


End BufferMore.

(** ** Sessions of binds, aliases and unbinds *)

Module SessionMore.

Import Lexer Store KeyBinding Sessions BufferNotions.
Import BindFacts TrieFacts ShapeFacts AliasFacts UnbindFacts ForestFacts BufferMore.

(** The root that [context_root] gives owns its trie. *)
Lemma context_root_owns Fc c st :
  forest_with Fc st ->
  let root := fst (context_root c st) in
  let st1 := snd (context_root c st) in
  exists F,
    owns (heap_of st1) (VDict root) F /\ F ⊆ dom (heap_of st1) /\
    contexts st1 !! c = Some root /\
    dom (heap_of st) ⊆ dom (heap_of st1) /\
    (forall l, l ∈ dom (heap_of st) -> heap_of st1 !! l = heap_of st !! l) /\
    (forall c' r', c' <> c -> contexts st !! c' = Some r' ->
                   contexts st1 !! c' = Some r' /\ Fc c' ## F) /\
    (forall r, contexts st !! c = Some r -> r = root) /\
    (forall l, l ∈ dom (heap_of st) ->
               (is_Some (contexts st !! c) -> l ∉ Fc c) -> l ∉ F).
Proof.
  intros [Htrees Hapart]. cbv zeta. unfold context_root.
  destruct (contexts st !! c) as [root|] eqn:Hc.
  - cbn [fst snd]. destruct (Htrees _ _ Hc) as [Hown Hsub].
    exists (Fc c). repeat split; try done.
    + by eapply Hapart.
    + congruence.
    + intros l _ Hl. by apply Hl.
  - unfold alloc. cbn [fst snd heap_of contexts].
    set (l := new_loc (heap_of st)).
    assert (Hl : l ∉ dom (heap_of st)) by (apply not_elem_of_dom, new_loc_fresh).
    exists {[l]}. split; [|split; [|split; [|split; [|split; [|split; [|split]]]]]].
    + apply owns_empty_dict; [apply lookup_insert_eq|set_solver].
    + rewrite dom_insert_L. set_solver.
    + apply lookup_insert_eq.
    + rewrite dom_insert_L. set_solver.
    + intros l' Hl'. apply lookup_insert_ne. set_solver.
    + intros c' r' Hne Hc'. split; [by rewrite lookup_insert_ne|].
      destruct (Htrees _ _ Hc') as [_ Hsub]. set_solver.
    + done.
    + intros l' Hl' _. set_solver.
Qed.

(** What lies outside the trie of the context is left as it is by
    [bind], by [unbind] and by [copy]. *)
Lemma bind_frame_other Fc c keys v st l :
  forest_with Fc st -> l ∈ dom (heap_of st) ->
  (is_Some (contexts st !! c) -> l ∉ Fc c) ->
  heap_of (snd (bind c keys v st)) !! l = heap_of st !! l.
Proof.
  intros Hfw Hl Hout.
  destruct (context_root_owns Fc c st Hfw) as (F & Hown & Hsub & _ & Hdom & Hag & _ & _ & HF).
  unfold bind, _clean_input. destruct (context_root c st) as [root st1]. cbn [fst snd] in *.
  destruct (parse_keybinding keys) as [[|k ks]|e]; cbn [snd]; [by apply Hag| |by apply Hag].
  cbn [set_heap heap_of]. rewrite <- Hag by done.
  apply (bind_from_frame ks k _ root F); [done| |by apply HF].
  apply elem_of_dom. set_solver.
Qed.

Lemma unbind_frame_other Fc c keys st l :
  forest_with Fc st -> l ∈ dom (heap_of st) ->
  (is_Some (contexts st !! c) -> l ∉ Fc c) ->
  heap_of (snd (unbind c keys st)) !! l = heap_of st !! l.
Proof.
  intros Hfw Hl Hout.
  destruct (context_root_owns Fc c st Hfw) as (F & Hown & Hsub & _ & Hdom & Hag & _ & _ & HF).
  unfold unbind, _clean_input. destruct (context_root c st) as [root st1]. cbn [fst snd] in *.
  destruct (parse_keybinding keys) as [[|k ks]|e]; cbn [snd]; [by apply Hag| |by apply Hag].
  pose proof (unbind_frame (k :: ks) _ _ _ l Hown (HF l Hl Hout)) as Hfr.
  destruct (_unbind_traverse (VDict root) (k :: ks) (heap_of st1)) as [r h'].
  cbn [snd set_heap heap_of] in *. by rewrite Hfr, Hag.
Qed.

Lemma copy_frame_other Fc c source target st r st' l :
  forest_with Fc st -> l ∈ dom (heap_of st) ->
  (is_Some (contexts st !! c) -> l ∉ Fc c) ->
  copy c source target st = Some (r, st') ->
  heap_of st' !! l = heap_of st !! l.
Proof.
  intros Hfw Hl Hout.
  destruct (context_root_owns Fc c st Hfw)
    as (F & Hown & Hsub & Hroot & Hdom & Hag & _ & _ & HF).
  unfold copy, _clean_input. destruct (context_root c st) as [root st1]. cbn [fst snd] in *.
  destruct (parse_keybinding source) as [src|e]; [|intros [= <- <-]; by apply Hag].
  case_bool_decide; [intros [= <- <-]; by apply Hag|].
  destruct (copy_walk src (VDict root) (heap_of st1)) as [v|e] eqn:Hwalk;
    [|intros [= <- <-]; by apply Hag].
  set (h := heap_of st1) in *.
  pose proof (copy_walk_owns _ _ _ _ _ Hown Hwalk) as Hv.
  destruct (deepcopy_spec (S (size h)) v ∅ h F Hv Hsub)
    as (v' & memo' & hc & -> & Hagc & _ & Hv').
  { rewrite dom_empty_L. set_solver. }
  { apply Nat.lt_succ_r. rewrite <- size_dom. by apply subseteq_size. }
  intros [= Hbind]. 
  assert (Hc : contexts (set_heap hc st1) !! c = Some root) by done.
  assert (Hlh : l ∈ dom h) by set_solver.
  assert (Hstep : heap_of (snd (bind c target v' (set_heap hc st1))) !! l = hc !! l).
  { unfold bind, _clean_input. rewrite (context_root_present _ _ _ Hc).
    destruct (parse_keybinding target) as [[|k ks]|e]; [done| |done].
    cbn [snd set_heap heap_of].
    apply (bind_from_frame ks k _ root F); [| |by apply HF].
    - apply (owns_frame h); [done|]. intros l0 Hl0. apply Hagc. set_solver.
    - rewrite Hagc by done. by apply elem_of_dom. }
  rewrite Hbind in Hstep. cbn [snd] in Hstep. by rewrite Hstep, Hagc, Hag.
Qed.

(** X9: Contexts are independent: [bind], [unbind] and [copy] in one context
    leave what every key sequence leads to in every other context as it
    was, and the other context keeps its root. *)
Theorem other_contexts_untouched (c c' : string) (st : state) (r' : loc) :
  built st -> c <> c' -> contexts st !! c' = Some r' ->
  (forall keys x,
      let st' := snd (bind c keys (VLeaf x) st) in
      contexts st' !! c' = Some r' /\
      forall ks, lookup_path (heap_of st') (VDict r') ks =
                 lookup_path (heap_of st) (VDict r') ks) /\
  (forall keys,
      let st' := snd (unbind c keys st) in
      contexts st' !! c' = Some r' /\
      forall ks, lookup_path (heap_of st') (VDict r') ks =
                 lookup_path (heap_of st) (VDict r') ks) /\
  (forall source target r st',
      copy c source target st = Some (r, st') ->
      contexts st' !! c' = Some r' /\
      forall ks, lookup_path (heap_of st') (VDict r') ks =
                 lookup_path (heap_of st) (VDict r') ks).
Proof.
  intros Hb Hne Hc'. destruct (built_forest st Hb) as [Fc Hfw].
  pose proof Hfw as [Htrees Hapart]. destruct (Htrees _ _ Hc') as [Hown' Hsub'].
  assert (Hout : forall l, l ∈ Fc c' -> is_Some (contexts st !! c) -> l ∉ Fc c).
  { intros l Hl [r Hc]. pose proof (Hapart c' c _ _ (not_eq_sym Hne) Hc' Hc). set_solver. }
  assert (Hctx : contexts (snd (context_root c st)) !! c' = Some r').
  { unfold context_root. destruct (contexts st !! c); [done|].
    cbn [alloc snd contexts]. by rewrite lookup_insert_ne. }
  split; [|split].
  - intros keys x. cbv zeta. split.
    + unfold bind, _clean_input. destruct (context_root c st) as [root st1].
      cbn [snd] in Hctx. by destruct (parse_keybinding keys) as [[|k ks]|e].
    + intros ks. apply (lookup_path_frame _ _ _ _ (Fc c')); [done|].
      intros l Hl. apply (bind_frame_other Fc); [done|set_solver|by apply Hout].
  - intros keys. cbv zeta. split.
    + unfold unbind, _clean_input. destruct (context_root c st) as [root st1].
      cbn [snd] in Hctx. destruct (parse_keybinding keys) as [[|k ks]|e]; [done| |done].
      by destruct (_unbind_traverse (VDict root) (k :: ks) (heap_of st1)).
    + intros ks. apply (lookup_path_frame _ _ _ _ (Fc c')); [done|].
      intros l Hl. apply (unbind_frame_other Fc); [done|set_solver|by apply Hout].
  - intros source target r st' Hcopy. split.
    + revert Hcopy. unfold copy, _clean_input. destruct (context_root c st) as [root st1].
      cbn [snd] in Hctx.
      destruct (parse_keybinding source) as [src|e]; [|by intros [= <- <-]].
      case_bool_decide; [by intros [= <- <-]|].
      destruct (copy_walk src (VDict root) (heap_of st1)) as [v|e]; [|by intros [= <- <-]].
      destruct (deepcopy _ v ∅ (heap_of st1)) as [[[v' memo] hc]|]; [|done].
      intros [= Hbind].
      assert (contexts (snd (bind c target v' (set_heap hc st1))) !! c' = Some r') as Hgoal.
      { unfold bind, _clean_input, context_root. cbn [set_heap contexts].
        destruct (contexts st1 !! c) as [rc|] eqn:Hrc.
        - by destruct (parse_keybinding target) as [[|k ks]|e].
        - cbn [alloc].
          destruct (parse_keybinding target) as [[|k ks]|e]; cbn [snd set_heap contexts];
            by rewrite lookup_insert_ne. }
      by rewrite Hbind in Hgoal.
    + intros ks. apply (lookup_path_frame _ _ _ _ (Fc c')); [done|].
      intros l Hl. apply (copy_frame_other Fc c source target st r st');
        [done|set_solver|by apply Hout|done].
Qed.

Lemma other_contexts_untouched_witness :
  let st := snd (bind "process" "x" (VLeaf (Action 3)) alias_session) in
  lookup_path (heap_of (snd (bind "root" "ab" (VLeaf (Action 4)) st))) (VDict 2%positive) [120] =
    Some (VLeaf (Action 3)) /\
  lookup_path (heap_of (snd (unbind "root" "a" st))) (VDict 2%positive) [120] =
    Some (VLeaf (Action 3)).
Proof.
  assert (Hb : built (snd (bind "process" "x" (VLeaf (Action 3)) alias_session)))
    by (apply built_bind, built_bind, built_init).
  destruct (other_contexts_untouched "root" "process" _ 2%positive Hb)
    as (Hbind & Hunbind & _); [done|reflexivity|].
  cbv zeta. split.
  - destruct (Hbind "ab"%string (Action 4)) as [_ ->]. reflexivity.
  - destruct (Hunbind "a"%string) as [_ ->]. reflexivity.
Defined.

(** Where [lookup_path] finds a value, the walk of [copy] finds it
    too. *)
Lemma copy_walk_lookup (h : heap) ks : forall v v',
  lookup_path h v ks = Some v' -> copy_walk ks v h = Ok v'.
Proof.
  induction ks as [|k ks IH]; intros v v' Hpath; cbn [lookup_path copy_walk] in *.
  - by injection Hpath as ->.
  - destruct v as [l|x]; [|done]. cbn [getitem].
    destruct ((h !!! l : dict) !! k) as [v1|]; [|done]. by apply IH.
Qed.

(** X10: A sequence that [bind] has bound is matched: in the session that
    [bind(context, text, leaf)] leaves, feeding the keys of the text to a
    new key buffer over the trie of the context ends on the leaf, with
    parsing finished, no parse error and no wildcard taken.  The first
    key is not a digit, which a new buffer would take for a count. *)
Theorem bound_sequence_matches (c text : string) (x : leaf) (st : state) k ks :
  built st ->
  parse_keybinding text = Ok (k :: ks) ->
  k ∉ DIGITS ->
  let st' := snd (bind c text (VLeaf x) st) in
  exists root kb,
    contexts st' !! c = Some root /\
    add_keys (heap_of st') (k :: ks) (KeyBuffer_init (heap_of st') (Some root)) = (Ok tt, kb) /\
    result kb = Some (VLeaf x) /\ finished_parsing kb = true /\
    parse_error kb = false /\ wildcards kb = [] /\ keys kb = k :: ks.
Proof.
  intros Hb Htext Hk. cbv zeta. destruct (built_forest st Hb) as [Fc Hfw].
  destruct (context_root_owns Fc c st Hfw) as (F & Hown & Hsub & Hroot & _).
  unfold bind, _clean_input. destruct (context_root c st) as [root st1]. cbn [fst snd] in *.
  rewrite Htext. cbn [snd set_heap heap_of contexts].
  set (h' := bind_from (k :: ks) root (VLeaf x) (heap_of st1)).
  pose proof (bind_from_lookup ks k (heap_of st1) root F (VLeaf x) Hown) as Hpath.
  fold h' in Hpath.
  destruct (add_keys_path h' x (k :: ks) (VDict root) (KeyBuffer_init h' (Some root)))
    as (kb & Hrun & _ & Hres & Hfin & Herr & Hwild & _); [done|done|by right|done|].
  exists root, kb. split; [done|]. split; [done|].
  destruct (add_keys_log h' _ _ _ _ Hrun) as [_ Hkeys]. done.
Qed.

Lemma bound_sequence_matches_witness :
  let st' := snd (bind "root" "g<A-x>" (VLeaf (Action 5)) alias_session) in
  exists root kb,
    contexts st' !! "root"%string = Some root /\
    add_keys (heap_of st') [103; 9003; 120] (KeyBuffer_init (heap_of st') (Some root)) =
      (Ok tt, kb) /\
    result kb = Some (VLeaf (Action 5)) /\ finished_parsing kb = true /\
    parse_error kb = false /\ wildcards kb = [] /\ keys kb = [103; 9003; 120].
Proof.
  apply (bound_sequence_matches "root" "g<A-x>" (Action 5) alias_session 103 [9003; 120]).
  - apply built_bind, built_init.
  - reflexivity.
  - rewrite BufferFacts.digits_spec. lia.
Defined.

(** X11: [unbind] of a sequence that leads somewhere returns and removes it:
    the sequence leads nowhere afterwards, and every sequence that parts
    from it (neither a prefix of the other) leads where it did. *)
Theorem unbind_removes_that_sequence (c text : string) (st : state) root ks :
  built st ->
  contexts st !! c = Some root ->
  parse_keybinding text = Ok ks -> ks <> [] ->
  is_Some (lookup_path (heap_of st) (VDict root) ks) ->
  let st' := snd (unbind c text st) in
  fst (unbind c text st) = Ok tt /\
  contexts st' !! c = Some root /\
  lookup_path (heap_of st') (VDict root) ks = None /\
  (forall q, diverge ks q = true ->
             lookup_path (heap_of st') (VDict root) q =
             lookup_path (heap_of st) (VDict root) q).
Proof.
  intros Hb Hroot Htext Hne Hpath. cbv zeta.
  destruct (built_forest st Hb) as [Fc [Htrees _]].
  destruct (Htrees _ _ Hroot) as [Hown _].
  unfold unbind, _clean_input. rewrite (context_root_present _ _ _ Hroot), Htext.
  destruct ks as [|k ks]; [done|].
  destruct (unbind_removes (k :: ks) _ _ _ Hown Hne Hpath) as [Hret Hgone].
  pose proof (fun q => unbind_diverge (k :: ks) _ _ _ q Hown) as Hdiv.
  destruct (_unbind_traverse (VDict root) (k :: ks) (heap_of st)) as [r h'].
  cbn [fst snd set_heap heap_of contexts] in *. done.
Qed.

Lemma unbind_removes_that_sequence_witness :
  let st := snd (bind "root" "gg" (VLeaf (Action 5)) alias_session) in
  fst (unbind "root" "gg" st) = Ok tt /\
  lookup_path (heap_of (snd (unbind "root" "gg" st))) (VDict 1%positive) [103; 103] = None /\
  lookup_path (heap_of (snd (unbind "root" "gg" st))) (VDict 1%positive) [97] =
    Some (VLeaf (Action 1)).
Proof.
  assert (Hb : built (snd (bind "root" "gg" (VLeaf (Action 5)) alias_session)))
    by (apply built_bind, built_bind, built_init).
  destruct (unbind_removes_that_sequence "root" "gg" _ 1%positive [103; 103] Hb)
    as (Hret & _ & Hgone & Hrest); [reflexivity|reflexivity|done|by eexists|].
  cbv zeta. split; [exact Hret|]. split; [exact Hgone|].
  rewrite (Hrest [97]) by reflexivity. reflexivity.
Defined.

(** A node of a tree is reached by one key sequence only. *)
Lemma owns_lookup_in (h : heap) ks : forall v F l,
  owns h v F -> lookup_path h v ks = Some (VDict l) -> l ∈ F.
Proof.
  induction ks as [|k ks IH]; intros v F l Hown Hpath; cbn [lookup_path] in Hpath.
  - injection Hpath as ->. by apply owns_root_in in Hown as [? _].
  - destruct v as [l0|x]; [|done].
    inversion Hown as [|? d Fs ? Hl0 Hin Hkids Hsub Hdisj]; subst.
    rewrite (lookup_total_correct _ _ _ Hl0) in Hpath.
    destruct (d !! k) as [v1|] eqn:Hk; [|done].
    pose proof (IH _ _ _ (Hkids _ _ Hk) Hpath). pose proof (Hsub _ _ Hk). set_solver.
Qed.

Lemma owns_lookup_inj (h : heap) ks1 : forall ks2 v F l,
  owns h v F ->
  lookup_path h v ks1 = Some (VDict l) -> lookup_path h v ks2 = Some (VDict l) ->
  ks1 = ks2.
Proof.
  assert (Hroot : forall l0 F k ks l,
            owns h (VDict l0) F -> lookup_path h (VDict l0) (k :: ks) = Some (VDict l) ->
            l <> l0).
  { intros l0 F k ks l Hown Hpath.
    inversion Hown as [|? d Fs ? Hl0 Hin Hkids Hsub Hdisj]; subst.
    cbn [lookup_path] in Hpath. rewrite (lookup_total_correct _ _ _ Hl0) in Hpath.
    destruct (d !! k) as [v1|] eqn:Hk; [|done].
    pose proof (owns_lookup_in _ _ _ _ _ (Hkids _ _ Hk) Hpath).
    pose proof (Hsub _ _ Hk). set_solver. }
  induction ks1 as [|k1 ks1 IH]; intros ks2 v F l Hown H1 H2.
  - cbn [lookup_path] in H1. injection H1 as ->.
    destruct ks2 as [|k2 ks2]; [done|]. by destruct (Hroot _ _ _ _ _ Hown H2).
  - destruct ks2 as [|k2 ks2].
    + cbn [lookup_path] in H2. injection H2 as ->. by destruct (Hroot _ _ _ _ _ Hown H1).
    + destruct v as [l0|x]; [|done].
      inversion Hown as [|? d Fs ? Hl0 Hin Hkids Hsub Hdisj]; subst.
      cbn [lookup_path] in H1, H2. rewrite (lookup_total_correct _ _ _ Hl0) in H1, H2.
      destruct (d !! k1) as [v1|] eqn:Hk1; [|done].
      destruct (d !! k2) as [v2|] eqn:Hk2; [|done].
      pose proof (owns_lookup_in _ _ _ _ _ (Hkids _ _ Hk1) H1) as Hin1.
      pose proof (owns_lookup_in _ _ _ _ _ (Hkids _ _ Hk2) H2) as Hin2.
      destruct (decide (k1 = k2)) as [->|Hne].
      * rewrite Hk1 in Hk2. injection Hk2 as <-. f_equal.
        by apply (IH ks2 v1 (Fs k2) l); [apply (Hkids _ _ Hk1)|..].
      * pose proof (Hdisj _ _ _ _ Hne Hk1 Hk2). set_solver.
Qed.

(** X13: No node is shared: in every session that binds, aliases and unbinds
    lead to, a node of a trie is reached from one context only, and
    there by one key sequence only. *)
Theorem node_has_one_address (st : state) c1 c2 r1 r2 ks1 ks2 (l : loc) :
  built st ->
  contexts st !! c1 = Some r1 -> contexts st !! c2 = Some r2 ->
  lookup_path (heap_of st) (VDict r1) ks1 = Some (VDict l) ->
  lookup_path (heap_of st) (VDict r2) ks2 = Some (VDict l) ->
  c1 = c2 /\ ks1 = ks2.
Proof.
  intros Hb Hc1 Hc2 H1 H2. destruct (built_forest st Hb) as [Fc [Htrees Hapart]].
  destruct (Htrees _ _ Hc1) as [Hown1 _]. destruct (Htrees _ _ Hc2) as [Hown2 _].
  pose proof (owns_lookup_in _ _ _ _ _ Hown1 H1) as Hin1.
  pose proof (owns_lookup_in _ _ _ _ _ Hown2 H2) as Hin2.
  destruct (decide (c1 = c2)) as [->|Hne].
  - split; [done|]. rewrite Hc1 in Hc2. injection Hc2 as <-.
    by apply (owns_lookup_inj _ _ _ _ _ _ Hown1 H1 H2).
  - pose proof (Hapart _ _ _ _ Hne Hc1 Hc2). set_solver.
Qed.


Lemma node_has_one_address_witness :
  let st := snd (bind "root" "gg" (VLeaf (Action 5)) alias_session) in
  lookup_path (heap_of st) (VDict 1%positive) [103] = Some (VDict 2%positive) /\
  ("root"%string = "root"%string /\ [103] = [103]).
Proof.
  cbv zeta. split; [reflexivity|].
  apply (node_has_one_address (snd (bind "root" "gg" (VLeaf (Action 5)) alias_session))
           "root" "root" 1%positive 1%positive [103] [103] 2%positive);
    [apply built_bind, built_bind, built_init|reflexivity..].
Defined.

(** X14: An alias matches like its source: after [copy(context, source,
    target)] of a source that is bound to a leaf, feeding the keys of
    the target to a new key buffer over the trie of the context ends on
    that same leaf. *)
Theorem alias_matches_like_source (c source target : string) (st : state) root src k tgt x :
  built st ->
  contexts st !! c = Some root ->
  parse_keybinding source = Ok src -> src <> [] ->
  parse_keybinding target = Ok (k :: tgt) -> k ∉ DIGITS ->
  lookup_path (heap_of st) (VDict root) src = Some (VLeaf x) ->
  exists st' kb,
    copy c source target st = Some (Ok tt, st') /\
    contexts st' !! c = Some root /\
    add_keys (heap_of st') (k :: tgt) (KeyBuffer_init (heap_of st') (Some root)) = (Ok tt, kb) /\
    result kb = Some (VLeaf x) /\ finished_parsing kb = true /\ parse_error kb = false.
Proof.
  intros Hb Hroot Hsrc Hne Htgt Hk Hpath.
  destruct (built_forest st Hb) as [Fc [Htrees _]].
  destruct (Htrees _ _ Hroot) as [Hown Hsub].
  destruct (copy_spec c source target st root (Fc c) src k tgt (VLeaf x)
              Hroot Hown Hsub Hsrc Hne Htgt (copy_walk_lookup _ _ _ _ Hpath))
    as (v' & h1 & Hcopy & Hleaf & Hlook & _).
  rewrite (Hleaf x eq_refl) in Hlook.
  destruct (add_keys_path h1 x (k :: tgt) (VDict root) (KeyBuffer_init h1 (Some root)))
    as (kb & Hrun & _ & Hres & Hfin & Herr & _); [done|done|by right|done|].
  exists (set_heap h1 st), kb. done.
Qed.

Lemma alias_matches_like_source_witness :
  exists st' kb,
    copy "root" "a" "<C-a>" alias_session = Some (Ok tt, st') /\
    contexts st' !! "root"%string = Some 1%positive /\
    add_keys (heap_of st') [1] (KeyBuffer_init (heap_of st') (Some 1%positive)) = (Ok tt, kb) /\
    result kb = Some (VLeaf (Action 1)) /\ finished_parsing kb = true /\
    parse_error kb = false.
Proof.
  apply (alias_matches_like_source "root" "a" "<C-a>" alias_session 1%positive [97] 1 []
           (Action 1)); try reflexivity.
  - apply built_bind, built_init.
  - done.
  - rewrite BufferFacts.digits_spec. lia.
Defined.


(** X12: [unbind] of a sequence that is not there is a silent no-op.  In a
    context that the key maps hold, when the walk comes to a node that
    lacks the next key, and the nodes it went through are not empty (an
    empty one would be pruned on the way back), [unbind] returns and the
    session is as it was.  In a context that the key maps do not hold,
    [unbind] returns as well, and the session differs by the new, empty
    trie that [_clean_input] stores for the context, and by nothing
    else. *)
Theorem unbind_missing_is_noop (c text : string) (st : state) pre k rest :
  parse_keybinding text = Ok (pre ++ k :: rest) ->
  (forall root l,
      contexts st !! c = Some root ->
      lookup_path (heap_of st) (VDict root) pre = Some (VDict l) ->
      (heap_of st !!! l : dict) !! k = None ->
      (forall pre1 pre2 l',
          pre = pre1 ++ pre2 -> pre1 <> [] ->
          lookup_path (heap_of st) (VDict root) pre1 = Some (VDict l') ->
          heap_of st !!! l' <> (∅ : dict)) ->
      unbind c text st = (Ok tt, st)) /\
  (contexts st !! c = None ->
   unbind c text st =
     (Ok tt,
      mkState (<[new_loc (heap_of st) := ∅]> (heap_of st))
        (<[c := new_loc (heap_of st)]> (contexts st))
        (used_keymap st) (keybuffer st))).
Proof.
  intros Htext. split.
  - intros root l Hroot Hpath Hk Hfull.
    unfold unbind, _clean_input. rewrite (context_root_present _ _ _ Hroot), Htext.
    rewrite (unbind_missing_noop pre (heap_of st) (VDict root) l k rest Hpath Hk Hfull).
    destruct (pre ++ k :: rest) eqn:Hks; [by destruct pre|]. by destruct st.
  - intros Hnone. unfold unbind, _clean_input, context_root, alloc.
    rewrite Hnone, Htext.
    destruct (pre ++ k :: rest) as [|a ks] eqn:Hks; [by destruct pre|].
    cbn [heap_of _unbind_traverse].
    by rewrite lookup_total_insert_eq, lookup_empty.
Qed.

Lemma unbind_missing_is_noop_witness :
  let st := snd (bind "root" "gg" (VLeaf (Action 5)) alias_session) in
  unbind "root" "gx<F5>" st = (Ok tt, st) /\
  unbind "process" "gx<F5>" st =
    (Ok tt,
     mkState (<[3%positive := ∅]> (heap_of st)) (<["process"%string := 3%positive]> (contexts st))
       (used_keymap st) (keybuffer st)).
Proof.
  cbv zeta.
  destruct (unbind_missing_is_noop "root" "gx<F5>"
              (snd (bind "root" "gg" (VLeaf (Action 5)) alias_session))
              [103] 120 [269] eq_refl) as [Hthere _].
  destruct (unbind_missing_is_noop "process" "gx<F5>"
              (snd (bind "root" "gg" (VLeaf (Action 5)) alias_session))
              [103] 120 [269] eq_refl) as [_ Hnew].
  split.
  - apply (Hthere 1%positive 2%positive); [reflexivity..|].
    intros [|k1 [|k2 pre1]] pre2 l' Heq Hne Hlook; [done| |by destruct pre1].
    injection Heq as <- _. vm_compute in Hlook. injection Hlook as <-. by vm_compute.
  - apply Hnew. reflexivity.
Defined.

End SessionMore.

(** ** Reading the terminal and the default keys *)

Module TopMore.

Import Lexer Store KeyBinding Sessions BufferNotions TopInput.
Import BindFacts TrieFacts ShapeFacts AliasFacts UnbindFacts ForestFacts BufferMore.

Lemma clear_awaiting h kb : is_Some (keymap kb) -> awaiting (clear h kb).
Proof.
  intros [l Hl]. unfold clear, awaiting. rewrite Hl.
  cbn [KeyBuffer_init keymap finished_parsing parse_error pointer fmap option_fmap option_map].
  split; [by eexists|]. split; [done|]. split; [done|]. by eexists.
Qed.

(** On a buffer that awaits a key, [add] returns; the buffer it leaves
    awaits the next key unless parsing is finished. *)
Lemma add_awaiting h key kb :
  awaiting kb ->
  exists kb',
    add h key kb = (Ok tt, kb') /\ keymap kb' = keymap kb /\
    (finished_parsing kb' = false -> awaiting kb').
Proof.
  intros (Hkm & Hfin & Herr & l & Hp). unfold add. cbv zeta.
  cbn [finished_parsing_quantifier pointer keymap]. rewrite Hp.
  destruct (negb (finished_parsing_quantifier kb) && bool_decide (key ∈ DIGITS)).
  { eexists. split; [reflexivity|]. split; [done|]. intros _.
    split; [done|]. split; [done|]. split; [done|]. by exists l. }
  assert (Hmoved : forall v kb0,
            keymap kb0 = keymap kb -> finished_parsing kb0 = false ->
            parse_error kb0 = false ->
            keymap (add_moved h v kb0) = keymap kb /\
            (finished_parsing (add_moved h v kb0) = false -> awaiting (add_moved h v kb0))).
  { intros [l'|x] kb0 H1 H2 H3; cbn [add_moved]; (split; [done|]); [|done].
    intros _. split; [by rewrite <- H1 in Hkm|]. split; [done|]. split; [done|].
    by exists l'. }
  destruct ((h !!! l : dict) !! key) as [v|].
  { eexists. split; [reflexivity|]. by apply Hmoved. }
  destruct ((h !!! l : dict) !! any_key) as [v|]; [|by eexists].
  destruct (bool_decide (key ∉ exclude_from_anykey)); [|by eexists].
  eexists. split; [reflexivity|]. by apply Hmoved.
Qed.

(** A new object leaves the objects of the store as they are. *)
Lemma alloc_agree (h : heap) l : l ∈ dom h -> <[new_loc h := ∅]> h !! l = h !! l.
Proof.
  intros Hl. apply lookup_insert_ne. intros <-.
  apply elem_of_dom in Hl. by rewrite new_loc_fresh in Hl.
Qed.

Lemma alloc_agree_total (h : heap) l :
  l ∈ dom h -> (<[new_loc h := ∅]> h !!! l : dict) = h !!! l.
Proof.
  intros Hl. pose proof (alloc_agree h l Hl) as Hag.
  apply elem_of_dom in Hl as [d Hd]. rewrite Hd in Hag.
  by rewrite (lookup_total_correct _ _ _ Hag), (lookup_total_correct _ _ _ Hd).
Qed.

(** The trie that [init_keybindings] builds holds the functions of the
    table under their keys, and nothing else. *)
Lemma default_trie key :
  (heap_of default_keys !!! 1%positive : dict) !! key =
    (fun a => VLeaf (Action a)) <$> default_action key.
Proof.
  unfold default_action. rewrite <- lookup_fmap.
  apply (f_equal (fun m : dict => m !! key)). vm_compute. reflexivity.
Qed.

Lemma default_keys_state :
  used_keymap default_keys = Some "root"%string /\
  contexts default_keys !! "root"%string = Some 1%positive /\
  keybuffer default_keys = KeyBuffer_init (heap_of default_keys) (Some 1%positive) /\
  1%positive ∈ dom (heap_of default_keys).
Proof.
  split; [by vm_compute|]. split; [by vm_compute|]. split; [by vm_compute|].
  apply elem_of_dom. eexists. vm_compute. reflexivity.
Qed.

Section Dispatch.

Variable UI : Type.
Variable invoke : nat -> UI -> option exn * UI.
Variable container_press : Z -> UI -> bool * UI.
Variable getch : UI -> Z * UI.
Variable flushinp : UI -> UI.
Variable note_input : UI -> UI.
Variable handle_mouse : UI -> option exn * UI.
Variable update_size : UI -> option exn * UI.
Variable redraw : UI -> option exn * UI.
Variable idle : UI -> UI.

Local Abbreviation top := (Top.top UI).
Local Abbreviation mkTop := (Top.mkTop UI).
Local Abbreviation keys_state := (Top.keys_state UI).
Local Abbreviation ui := (Top.ui UI).
Local Abbreviation call := (Top.call UI invoke).
Local Abbreviation press := (Top.press UI invoke).
Local Abbreviation handle_key := (Top.handle_key UI invoke container_press).
Local Abbreviation handle_keys := (TopInput.handle_keys UI invoke container_press).
Local Abbreviation handle_input :=
  (TopInput.handle_input UI invoke container_press getch flushinp note_input
     handle_mouse update_size).

Local Abbreviation loop :=
  (TopInput.loop UI invoke container_press getch flushinp note_input
     handle_mouse update_size redraw idle).

Local Abbreviation buffer_of t := (keybuffer (keys_state t)).

Lemma call_state f (t : top) : keys_state (snd (call f t)) = keys_state t.
Proof.
  unfold Top.call. destruct f as [l|[a|x]]; [done| |done].
  by destruct (invoke a (ui t)) as [[e|] u].
Qed.

(** [press] on a buffer that awaits a key leaves one that does, and
    raises only what the call of the matched result raises. *)
Lemma press_awaiting key (t : top) :
  awaiting (buffer_of t) ->
  awaiting (buffer_of (snd (press key t))) /\
  (forall e, fst (press key t) = Raise e ->
             exists f t1, fst (call f t1) = Raise e).
Proof.
  intros Haw. unfold Top.press. cbv zeta.
  destruct (add_awaiting (heap_of (keys_state t)) key _ Haw) as (kb & -> & Hkm & Hnext).
  assert (Hsome : is_Some (keymap kb)) by (rewrite Hkm; apply Haw).
  destruct (result kb) as [f|].
  - pose proof (call_state f (Top.set_keybuffer UI kb t)) as Hst.
    destruct (call f (Top.set_keybuffer UI kb t)) as [r' t2] eqn:Hcall. cbn [snd] in Hst.
    assert (Hkb2 : buffer_of t2 = kb) by (by rewrite Hst).
    rewrite Hkb2. split.
    + destruct (finished_parsing kb) eqn:Hfin.
      * destruct r'; cbn [snd Top.set_keybuffer Top.keys_state keybuffer];
          by apply clear_awaiting.
      * destruct r'; cbn [snd]; rewrite Hkb2; by apply Hnext.
    + intros e He. exists f, (Top.set_keybuffer UI kb t). rewrite Hcall. cbn [fst].
      destruct r'; cbn [fst] in He; congruence.
  - destruct (finished_parsing kb) eqn:Hfin; cbn [fst snd].
    + split; [by apply clear_awaiting|done].
    + split; [by apply Hnext|done].
Qed.

Lemma use_keymap_awaiting name st :
  finished_parsing (keybuffer st) = false -> parse_error (keybuffer st) = false ->
  (exists l, pointer (keybuffer st) = Some (VDict l)) ->
  awaiting (keybuffer (use_keymap name st)).
Proof.
  intros Hfin Herr Hp. unfold use_keymap, alloc.
  case_bool_decide; cbn [keybuffer].
  - apply clear_awaiting. by eexists.
  - split; [by eexists|]. done.
Qed.

Lemma handle_key_awaiting key (t : top) :
  awaiting (buffer_of t) ->
  awaiting (buffer_of (snd (handle_key key t))) /\
  (forall e, fst (handle_key key t) = Raise e ->
             exists f t1, fst (call f t1) = Raise e).
Proof.
  intros Haw. unfold Top.handle_key. destruct (key <? 0).
  { cbn [fst snd]. split; [|done]. apply clear_awaiting, Haw. }
  destruct (container_press key (ui t)) as [consumed u]. cbv zeta.
  destruct consumed; cbn [negb]; [done|].
  cbn [Top.keys_state Top.ui].
  set (t2 := mkTop (use_keymap "root" (keys_state t)) u).
  assert (Haw2 : awaiting (buffer_of t2)).
  { destruct Haw as (_ & ? & ? & ?). by apply use_keymap_awaiting. }
  destruct (press_awaiting key t2 Haw2) as [Hnext Hraise].
  destruct (press key t2) as [[b|e] t3]; cbn [fst snd] in *; [done|].
  split; [done|]. intros e' [= <-]. by apply Hraise.
Qed.

Lemma handle_keys_awaiting keys : forall (t : top),
  awaiting (buffer_of t) ->
  awaiting (buffer_of (snd (handle_keys keys t))) /\
  (forall e, fst (handle_keys keys t) = Raise e ->
             exists f t1, fst (call f t1) = Raise e).
Proof.
  induction keys as [|key keys IH]; intros t Haw; cbn [TopInput.handle_keys]; [done|].
  destruct (handle_key_awaiting key t Haw) as [Hnext Hraise].
  destruct (handle_key key t) as [[[]|e] t1]; cbn [fst snd] in *.
  - by apply IH.
  - split; [done|]. intros e' [= <-]. by apply Hraise.
Qed.

(** X15: Between two inputs the key buffer awaits a key: whatever the
    terminal delivers and whatever the actions do, [handle_input] leaves
    a buffer whose parsing is not finished, that has no parse error and
    whose pointer is on a node, on return and on raise alike. *)
Theorem handle_input_keeps_awaiting (t : top) :
  awaiting (buffer_of t) -> awaiting (buffer_of (snd (handle_input t))).
Proof.
  intros Haw. unfold TopInput.handle_input.
  destruct (getch (ui t)) as [key u]. cbv zeta.
  destruct (key =? ERR); [done|]. cbn [Top.keys_state Top.ui].
  set (key' := if key =? KEY_ENTER then ord "010" else key).
  destruct ((key' =? 27) || ((128 <=? key') && (key' <? 256))).
  - destruct (read_ahead UI getch 4 [key'] (note_input u)) as [keys u'].
    set (keys' := if (length keys =? 1)%nat then _ else _).
    set (t1 := mkTop (keys_state t) u').
    destruct (handle_keys_awaiting keys' t1 Haw) as [Hnext _].
    by destruct (handle_keys keys' t1) as [[[]|e] t2].
  - destruct (key' >=? 0); [|done].
    set (t1 := mkTop (keys_state t) (flushinp (note_input u))).
    destruct (key' =? KEY_MOUSE).
    { unfold on_ui. by destruct (handle_mouse _) as [[e|] u']. }
    destruct (key' =? KEY_RESIZE).
    { unfold on_ui. by destruct (update_size _) as [[e|] u']. }
    by apply (handle_key_awaiting key' t1).
Qed.

(** A key that the node under the pointer holds, when the panels leave
    it to the key maps.  The key leads to a node without passive action:
    the pointer moves there and nothing is called. *)
Lemma handle_key_moves k (t : top) l l' :
  used_keymap (keys_state t) = Some "root"%string ->
  pointer (buffer_of t) = Some (VDict l) ->
  finished_parsing (buffer_of t) = false ->
  finished_parsing_quantifier (buffer_of t) = true \/ k ∉ DIGITS ->
  l ∈ dom (heap_of (keys_state t)) -> l' ∈ dom (heap_of (keys_state t)) ->
  (heap_of (keys_state t) !!! l : dict) !! k = Some (VDict l') ->
  (heap_of (keys_state t) !!! l' : dict) !! passive_key = None ->
  0 <= k -> fst (container_press k (ui t)) = false ->
  exists t',
    handle_key k t = (Ok tt, t') /\
    used_keymap (keys_state t') = Some "root"%string /\
    contexts (keys_state t') = contexts (keys_state t) /\
    heap_of (keys_state t') = <[new_loc (heap_of (keys_state t)) := ∅]> (heap_of (keys_state t)) /\
    ui t' = snd (container_press k (ui t)) /\
    pointer (buffer_of t') = Some (VDict l') /\
    finished_parsing (buffer_of t') = false /\
    finished_parsing_quantifier (buffer_of t') = true.
Proof.
  intros Hused Hp Hfin Hq Hl Hl' Hlk Hnop Hk Hcont.
  unfold Top.handle_key. rewrite (proj2 (Z.ltb_ge k 0) Hk).
  destruct (container_press k (ui t)) as [c u1]. cbn [fst snd] in *. subst c.
  cbv zeta. cbn [negb Top.keys_state Top.ui].
  unfold use_keymap, alloc. rewrite Hused.
  rewrite (bool_decide_eq_false_2 (Some "root"%string ≠ Some "root"%string)) by (by intros ?).
  unfold Top.press. cbv zeta. cbn [Top.keys_state heap_of keybuffer].
  rewrite (add_found _ k _ l (VDict l')); cbn [pointer finished_parsing_quantifier];
    [|done|by rewrite (alloc_agree_total _ l Hl)|done].
  cbn [add_moved result finished_parsing].
  rewrite (alloc_agree_total _ l' Hl'), Hnop, Hfin.
  eexists. split; [reflexivity|]. done.
Qed.

(** The key leads to a function: it is called, and the buffer is
    cleared whether the call returns or raises. *)
Lemma handle_key_fires k (t : top) l a :
  used_keymap (keys_state t) = Some "root"%string ->
  pointer (buffer_of t) = Some (VDict l) ->
  finished_parsing_quantifier (buffer_of t) = true \/ k ∉ DIGITS ->
  l ∈ dom (heap_of (keys_state t)) ->
  (heap_of (keys_state t) !!! l : dict) !! k = Some (VLeaf (Action a)) ->
  0 <= k -> fst (container_press k (ui t)) = false ->
  let o := invoke a (snd (container_press k (ui t))) in
  exists t',
    handle_key k t = (match fst o with None => Ok tt | Some e => Raise e end, t') /\
    ui t' = snd o /\
    contexts (keys_state t') = contexts (keys_state t) /\
    exists h' km, buffer_of t' = KeyBuffer_init h' km.
Proof.
  intros Hused Hp Hq Hl Hlk Hk Hcont. cbv zeta.
  unfold Top.handle_key. rewrite (proj2 (Z.ltb_ge k 0) Hk).
  destruct (container_press k (ui t)) as [c u1]. cbn [fst snd] in *. subst c.
  cbv zeta. cbn [negb Top.keys_state Top.ui].
  unfold use_keymap, alloc. rewrite Hused.
  rewrite (bool_decide_eq_false_2 (Some "root"%string ≠ Some "root"%string)) by (by intros ?).
  unfold Top.press. cbv zeta. cbn [Top.keys_state heap_of keybuffer].
  rewrite (add_found _ k _ l (VLeaf (Action a))); cbn [pointer finished_parsing_quantifier];
    [|done|by rewrite (alloc_agree_total _ l Hl)|done].
  cbn [add_moved result]. unfold Top.call, Top.set_keybuffer.
  cbn [Top.ui Top.keys_state keybuffer finished_parsing heap_of contexts].
  destruct (invoke a u1) as [[e|] u2]; cbn [fst snd Top.keys_state Top.ui keybuffer contexts];
    (eexists; split; [reflexivity|]); (split; [done|]); (split; [done|]); by eexists _, _.
Qed.

(** Typing the keys of a path of the trie: every key but the last moves
    the pointer, the last one calls the leaf. *)
Lemma handle_keys_path a ks : forall k (t : top) v F,
  used_keymap (keys_state t) = Some "root"%string ->
  pointer (buffer_of t) = Some v ->
  finished_parsing (buffer_of t) = false ->
  finished_parsing_quantifier (buffer_of t) = true \/ k ∉ DIGITS ->
  owns (heap_of (keys_state t)) v F -> F ⊆ dom (heap_of (keys_state t)) ->
  lookup_path (heap_of (keys_state t)) v (k :: ks) = Some (VLeaf (Action a)) ->
  (forall pre suf l,
      k :: ks = pre ++ suf -> pre <> [] ->
      lookup_path (heap_of (keys_state t)) v pre = Some (VDict l) ->
      (heap_of (keys_state t) !!! l : dict) !! passive_key = None) ->
  Forall (fun key => 0 <= key /\ forall u, fst (container_press key u) = false) (k :: ks) ->
  let u := fold_left (fun u key => snd (container_press key u)) (k :: ks) (ui t) in
  let r := handle_keys (k :: ks) t in
  fst r = match fst (invoke a u) with None => Ok tt | Some e => Raise e end /\
  ui (snd r) = snd (invoke a u) /\
  contexts (keys_state (snd r)) = contexts (keys_state t) /\
  exists h' km, buffer_of (snd r) = KeyBuffer_init h' km.
Proof.
  induction ks as [|k' ks IH]; intros k t v F Hused Hp Hfin Hq Hown HF Hpath Hpass Hkeys;
    cbv zeta.
  - (* the last key *)
    apply Forall_cons in Hkeys as [[Hk Hcont] _].
    cbn [lookup_path] in Hpath. destruct v as [l|y]; [|done].
    destruct ((heap_of (keys_state t) !!! l : dict) !! k) as [v'|] eqn:Hlk; [|done].
    injection Hpath as ->.
    apply owns_root_in in Hown as [Hl _].
    destruct (handle_key_fires k t l a) as (t' & Hstep & Hu & Hc & Hkb);
      [done|done|done|by apply HF|done|done|by apply Hcont|].
    cbn [TopInput.handle_keys fold_left]. rewrite Hstep.
    destruct (fst (invoke a (snd (container_press k (ui t))))); by cbn [fst snd].
  - (* a key before the last *)
    pose proof Hkeys as Hkeys'. apply Forall_cons in Hkeys' as [[Hk Hcont] Hrest].
    cbn [lookup_path] in Hpath. destruct v as [l|y]; [|done].
    destruct ((heap_of (keys_state t) !!! l : dict) !! k) as [v'|] eqn:Hlk; [|done].
    destruct v' as [l'|y]; [|done].
    set (h := heap_of (keys_state t)) in *.
    inversion Hown as [|? d Fs ? Hl0 Hin Hkids Hsub Hdisj]; subst.
    rewrite (lookup_total_correct _ _ _ Hl0) in Hlk.
    pose proof (Hkids _ _ Hlk) as Hown'.
    assert (HF' : Fs k ⊆ dom h).
    { intros l0 Hl0'. apply HF. apply (Hsub _ _ Hlk) in Hl0'.
      by apply elem_of_difference in Hl0' as [? _]. }
    assert (Hlin : l ∈ dom h) by (apply elem_of_dom; by eexists).
    assert (Hl'in : l' ∈ dom h).
    { pose proof Hown' as Hr. apply owns_root_in in Hr as [? _]. by apply HF'. }
    assert (Hnop : (h !!! l' : dict) !! passive_key = None).
    { apply (Hpass [k] (k' :: ks)); [done|done|].
      cbn [lookup_path]. fold h. by rewrite (lookup_total_correct _ _ _ Hl0), Hlk. }
    destruct (handle_key_moves k t l l') as (t' & Hstep & Hused' & Hc' & Hh' & Hu' & Hp' & Hfin' & Hq');
      [done|done|done|done|done|done|
       by (fold h; rewrite (lookup_total_correct _ _ _ Hl0))|done|done|by apply Hcont|].
    fold h in Hh'. set (h1 := <[new_loc h := ∅]> h) in *.
    assert (Hag : forall l0, l0 ∈ dom h -> h1 !! l0 = h !! l0) by apply alloc_agree.
    assert (Hagt : forall l0, l0 ∈ dom h -> (h1 !!! l0 : dict) = h !!! l0)
      by apply alloc_agree_total.
    cbn [TopInput.handle_keys fold_left]. rewrite Hstep.
    change (TopInput.handle_keys UI invoke container_press (k' :: ks) t')
      with (handle_keys (k' :: ks) t').
    destruct (IH k' t' (VDict l') (Fs k)) as (Hr & Hu & Hc & Hkb); try done.
    + by left.
    + rewrite Hh'. apply (owns_frame h); [done|]. intros l0 Hl0'. by apply Hag, HF'.
    + rewrite Hh'. intros l0 Hl0'. unfold h1. rewrite dom_insert_L.
      apply elem_of_union_r. by apply HF'.
    + rewrite Hh'.
      rewrite (lookup_path_frame h h1 (k' :: ks) (VDict l') (Fs k)); [done|done|].
      intros l0 Hl0'. by apply Hag, HF'.
    + rewrite Hh'. intros pre suf l0 Heq Hne Hlook.
      rewrite (lookup_path_frame h h1 pre (VDict l') (Fs k)) in Hlook;
        [|done|intros l1 Hl1; by apply Hag, HF'].
      pose proof (SessionMore.owns_lookup_in _ _ _ _ _ Hown' Hlook) as Hl0F.
      rewrite (Hagt l0) by (by apply HF').
      apply (Hpass (k :: pre) suf); [by rewrite Heq|done|].
      cbn [lookup_path]. fold h. by rewrite (lookup_total_correct _ _ _ Hl0), Hlk.
    + cbv zeta in Hr, Hu. cbn [fold_left] in Hr, Hu. rewrite Hu' in Hr, Hu.
      split; [exact Hr|]. split; [exact Hu|]. split; [by etrans; [exact Hc|]|]. exact Hkb.
Qed.

(** The key leads nowhere: nothing is called, and the buffer is
    cleared. *)
Lemma handle_key_dead_end k (t : top) l :
  used_keymap (keys_state t) = Some "root"%string ->
  pointer (buffer_of t) = Some (VDict l) ->
  finished_parsing_quantifier (buffer_of t) = true \/ k ∉ DIGITS ->
  l ∈ dom (heap_of (keys_state t)) ->
  (heap_of (keys_state t) !!! l : dict) !! k = None ->
  (heap_of (keys_state t) !!! l : dict) !! any_key = None \/ k ∈ exclude_from_anykey ->
  0 <= k -> fst (container_press k (ui t)) = false ->
  exists t',
    handle_key k t = (Ok tt, t') /\
    ui t' = snd (container_press k (ui t)) /\
    contexts (keys_state t') = contexts (keys_state t) /\
    exists h' km, buffer_of t' = KeyBuffer_init h' km.
Proof.
  intros Hused Hp Hq Hl Hlk Hany Hk Hcont.
  unfold Top.handle_key. rewrite (proj2 (Z.ltb_ge k 0) Hk).
  destruct (container_press k (ui t)) as [c u1]. cbn [fst snd] in *. subst c.
  cbv zeta. cbn [negb Top.keys_state Top.ui].
  unfold use_keymap, alloc. rewrite Hused.
  rewrite (bool_decide_eq_false_2 (Some "root"%string ≠ Some "root"%string)) by (by intros ?).
  unfold Top.press. cbv zeta. cbn [Top.keys_state heap_of keybuffer].
  rewrite (add_dead_end _ k _ l); cbn [pointer finished_parsing_quantifier];
    [|done|by rewrite (alloc_agree_total _ l Hl)
     |by rewrite (alloc_agree_total _ l Hl)|done].
  cbn [add_stuck result finished_parsing]. unfold Top.set_keybuffer.
  cbn [Top.ui Top.keys_state keybuffer heap_of contexts].
  eexists. split; [reflexivity|]. split; [done|]. split; [done|]. by eexists _, _.
Qed.

(** X16: Typing a bound sequence runs its action.  In a session that binds,
    aliases and unbinds have led to, with [root] in use and the buffer
    on the root of its trie, the keys of a sequence that leads to a
    function, when the panels take none of them and no node on the way
    carries a passive action, are handled so: the function is called
    once, after the last key, on the controller as the panels left it;
    [handle_keys] returns or raises as the function does; the key
    buffer is left cleared. *)
Theorem typed_sequence_invokes (t : top) root k ks a :
  built (keys_state t) ->
  contexts (keys_state t) !! "root"%string = Some root ->
  used_keymap (keys_state t) = Some "root"%string ->
  pointer (buffer_of t) = Some (VDict root) ->
  finished_parsing (buffer_of t) = false ->
  k ∉ DIGITS ->
  lookup_path (heap_of (keys_state t)) (VDict root) (k :: ks) = Some (VLeaf (Action a)) ->
  (forall pre suf l,
      k :: ks = pre ++ suf -> pre <> [] ->
      lookup_path (heap_of (keys_state t)) (VDict root) pre = Some (VDict l) ->
      (heap_of (keys_state t) !!! l : dict) !! passive_key = None) ->
  Forall (fun key => 0 <= key /\ forall u, fst (container_press key u) = false) (k :: ks) ->
  let u := fold_left (fun u key => snd (container_press key u)) (k :: ks) (ui t) in
  let r := handle_keys (k :: ks) t in
  fst r = outcome (fst (invoke a u)) /\
  ui (snd r) = snd (invoke a u) /\
  contexts (keys_state (snd r)) = contexts (keys_state t) /\
  exists h' km, buffer_of (snd r) = KeyBuffer_init h' km.
Proof.
  intros Hb Hroot Hused Hp Hfin Hk Hpath Hpass Hkeys.
  destruct (built_forest _ Hb) as [Fc [Htrees _]].
  destruct (Htrees _ _ Hroot) as [Hown Hsub].
  apply (handle_keys_path a ks k t (VDict root) (Fc "root"%string)); try done. by right.
Qed.

(** What [handle_key] has done when it raises on a buffer that awaits a
    key: the key is not negative, the panels have left it to the key
    maps, [add] has returned with a result, and the exception is the one
    that the call of this result raises. *)
Lemma handle_key_raise key (t : top) e t' :
  awaiting (buffer_of t) ->
  handle_key key t = (Raise e, t') ->
  0 <= key /\ fst (container_press key (ui t)) = false /\
  let t1 := mkTop (use_keymap "root" (keys_state t)) (snd (container_press key (ui t))) in
  exists kb f,
    add (heap_of (keys_state t1)) key (buffer_of t1) = (Ok tt, kb) /\
    result kb = Some f /\
    fst (call f (Top.set_keybuffer UI kb t1)) = Raise e /\
    match f with
    | VLeaf (Action a) => fst (invoke a (ui t1)) = Some e
    | _ => e = TypeError
    end.
Proof.
  intros Haw. unfold Top.handle_key. destruct (key <? 0) eqn:Hneg; [done|].
  apply Z.ltb_ge in Hneg.
  destruct (container_press key (ui t)) as [consumed u]. cbv zeta.
  destruct consumed; cbn [negb fst snd]; [done|].
  cbn [Top.keys_state Top.ui].
  set (t1 := mkTop (use_keymap "root" (keys_state t)) u).
  assert (Haw1 : awaiting (buffer_of t1)).
  { destruct Haw as (_ & ? & ? & ?). by apply use_keymap_awaiting. }
  intros Hpress. split; [done|]. split; [done|].
  destruct (add_awaiting (heap_of (keys_state t1)) key _ Haw1) as (kb & Hadd & _).
  exists kb. unfold Top.press in Hpress. cbv zeta in Hpress. rewrite Hadd in Hpress.
  destruct (result kb) as [f|] eqn:Hres.
  - exists f. split; [done|]. split; [done|].
    destruct (call f (Top.set_keybuffer UI kb t1)) as [r' t2] eqn:Hcall.
    assert (Hr : r' = Raise e) by (destruct r'; simplify_eq/=; done).
    subst r'. split; [done|].
    unfold Top.call in Hcall. destruct f as [l|[a|x]]; [by simplify_eq/=| |by simplify_eq/=].
    unfold t1 in Hcall |- *. cbn [Top.set_keybuffer Top.ui] in Hcall |- *.
    destruct (invoke a u) as [[e'|] u']; cbn [fst] in *; congruence.
  - by destruct (finished_parsing kb); simplify_eq/=.
Qed.

(** X17: The key dispatch raises nothing of its own.  When [handle_keys]
    raises on a buffer that awaits a key, the keys before the one it
    stopped at were handled without error; that key is not negative and
    the panels left it to the key maps; [KeyBuffer.add] returned for it,
    with a result; and the exception is the one that calling this
    result has raised: the exception of the bound function, or the
    [TypeError] of calling a result that is no function. *)
Theorem handle_keys_raises_from_action keys (t : top) e :
  awaiting (buffer_of t) ->
  fst (handle_keys keys t) = Raise e ->
  exists pre key post t0 kb f,
    keys = pre ++ key :: post /\
    handle_keys pre t = (Ok tt, t0) /\
    0 <= key /\ fst (container_press key (ui t0)) = false /\
    let t1 := mkTop (use_keymap "root" (keys_state t0))
                (snd (container_press key (ui t0))) in
    add (heap_of (keys_state t1)) key (buffer_of t1) = (Ok tt, kb) /\
    result kb = Some f /\
    fst (call f (Top.set_keybuffer UI kb t1)) = Raise e /\
    match f with
    | VLeaf (Action a) => fst (invoke a (ui t1)) = Some e
    | _ => e = TypeError
    end.
Proof.
  revert t. induction keys as [|key keys IH]; intros t Haw He; [done|].
  cbn [TopInput.handle_keys] in He.
  destruct (handle_key key t) as [[[]|e'] t'] eqn:Hk; cbn [fst] in He.
  - assert (Haw' : awaiting (buffer_of t')).
    { pose proof (handle_key_awaiting key t Haw) as [Hnext _]. by rewrite Hk in Hnext. }
    destruct (IH t' Haw' He) as (pre & key' & post & t0 & kb & f & -> & Hpre & Hrest).
    exists (key :: pre), key', post, t0, kb, f. split; [done|].
    split; [|exact Hrest]. cbn [TopInput.handle_keys]. by rewrite Hk.
  - injection He as ->.
    destruct (handle_key_raise key t e t' Haw Hk) as (Hpos & Hcont & kb & f & Hrest).
    exists [], key, keys, t, kb, f. done.
Qed.

(** X18: A lone [ESC] resets the key buffer.  When [getch] gives 27 and the
    four reads that follow find no key, [handle_input] handles 27 and
    then -1; if it returns, the buffer is the cleared one: no key, no
    count and no wildcard is kept, whatever sequence was under way. *)
Theorem lone_escape_clears (t : top) u1 u2 :
  getch (ui t) = (27, u1) ->
  read_ahead UI getch 4 [27] (note_input u1) = ([27], u2) ->
  fst (handle_input t) = Ok tt ->
  exists h km, buffer_of (snd (handle_input t)) = KeyBuffer_init h km.
Proof.
  intros Hget Hread. unfold TopInput.handle_input. rewrite Hget. cbv zeta.
  change (27 =? ERR) with false. change (27 =? KEY_ENTER) with false. cbv iota.
  change ((27 =? 27) || ((128 <=? 27) && (27 <? 256))) with true. cbv iota.
  cbn [Top.keys_state Top.ui]. rewrite Hread.
  cbn [length Nat.eqb app TopInput.handle_keys].
  destruct (handle_key 27 _) as [[[]|e] t1]; [|done].
  unfold Top.handle_key. change (-1 <? 0) with true. cbv iota. cbn [fst snd].
  intros _. unfold Top.set_keybuffer, clear. cbn [Top.keys_state keybuffer]. by eexists _, _.
Qed.

(** X19: The keys of the controller as it starts.  A key that is no digit
    and that the panels leave to the key maps calls the function that
    [init_keybindings] gives it, once, and [handle_key] returns or
    raises as that function does; a key without function calls nothing.
    Either way the buffer is cleared: no key of the default keys waits
    for a second one. *)
Theorem default_keys_dispatch (t : top) key :
  keys_state t = default_keys ->
  0 <= key -> key ∉ DIGITS ->
  fst (container_press key (ui t)) = false ->
  let u1 := snd (container_press key (ui t)) in
  let r := handle_key key t in
  match default_action key with
  | Some a => fst r = outcome (fst (invoke a u1)) /\ ui (snd r) = snd (invoke a u1)
  | None => fst r = Ok tt /\ ui (snd r) = u1
  end /\
  exists h km, buffer_of (snd r) = KeyBuffer_init h km.
Proof.
  intros Hst Hkey Hdig Hcont. cbv zeta.
  destruct default_keys_state as (Hused & Hroot & Hkb & Hdom).
  pose proof (default_trie key) as Htrie.
  pose proof (default_trie any_key) as Hany.
  change (default_action any_key) with (@None nat) in Hany.
  cbn [fmap option_fmap option_map] in Hany.
  assert (Hp : pointer (buffer_of t) = Some (VDict 1%positive)).
  { rewrite Hst, Hkb. reflexivity. }
  rewrite <- Hst in Hused, Hdom, Htrie, Hany.
  destruct (default_action key) as [a|]; cbn [fmap option_fmap option_map] in Htrie.
  - destruct (handle_key_fires key t 1%positive a Hused Hp (or_intror Hdig) Hdom Htrie
                Hkey Hcont) as (t' & -> & Hu & _ & Hclear).
    cbn [fst snd]. split; [split; [reflexivity|exact Hu]|exact Hclear].
  - destruct (handle_key_dead_end key t 1%positive Hused Hp (or_intror Hdig) Hdom Htrie
                (or_introl Hany) Hkey Hcont) as (t' & -> & Hu & _ & Hclear).
    cbn [fst snd]. split; [split; [reflexivity|exact Hu]|exact Hclear].
Qed.


End Dispatch.

Lemma init_keybindings_returns :
  exists st, init_keybindings KeyMaps_init = Some (Ok tt, st) /\
    contexts st !! "root"%string = Some 1%positive /\
    used_keymap st = Some "root"%string /\
    keybuffer st = KeyBuffer_init (heap_of st) (Some 1%positive).
Proof. eexists. split; [vm_compute; reflexivity|]. vm_compute. done. Qed.

(** *** The theorems at work on the console controller *)

Lemma default_keys_awaiting : awaiting (keybuffer default_keys).
Proof.
  destruct default_keys_state as (_ & _ & -> & _).
  apply (clear_awaiting (heap_of default_keys)
           (KeyBuffer_init (heap_of default_keys) (Some 1%positive))).
  by eexists.
Qed.

Lemma handle_input_keeps_awaiting_witness :
  awaiting (keybuffer (Top.keys_state _
    (snd (Console.handle_input (Console.start [27; 120]))))).
Proof.
  apply (handle_input_keeps_awaiting Console.console Console.invoke Console.container_press
           Console.getch Console.flushinp Console.same Console.quiet Console.quiet
           (Console.start [27; 120])).
  exact default_keys_awaiting.
Defined.

Lemma typed_sequence_invokes_witness :
  let r := Console.handle_keys [103; 103] (Console.with_gg []) in
  fst r = Ok tt /\ Top.ui _ (snd r) = ([], 1%nat) /\
  exists h' km, keybuffer (Top.keys_state _ (snd r)) = KeyBuffer_init h' km.
Proof.
  destruct (typed_sequence_invokes Console.console Console.invoke Console.container_press
              (Console.with_gg []) 1%positive 103 [103] auto_mode)
    as (Hr & Hu & _ & Hkb).
  - apply built_use_keymap, built_bind, built_init.
  - reflexivity.
  - reflexivity.
  - reflexivity.
  - reflexivity.
  - rewrite BufferFacts.digits_spec. lia.
  - reflexivity.
  - intros [|k1 [|k2 pre]] suf l Heq Hne Hlook; [done| |].
    + injection Heq as <- _. vm_compute in Hlook. injection Hlook as <-. reflexivity.
    + injection Heq as <- <- Heq. destruct pre; [|done]. by vm_compute in Hlook.
  - repeat constructor; lia.
  - cbv zeta. split; [exact Hr|]. split; [exact Hu|exact Hkb].
Defined.

Lemma handle_keys_raises_from_action_witness :
  exists pre key post t0 kb f,
    [97; 113; 102] = pre ++ key :: post /\
    Console.handle_keys pre (Console.start []) = (Ok tt, t0) /\
    0 <= key /\ fst (Console.container_press key (Top.ui _ t0)) = false /\
    let t1 := Top.mkTop _ (use_keymap "root" (Top.keys_state _ t0))
                (snd (Console.container_press key (Top.ui _ t0))) in
    add (heap_of (Top.keys_state _ t1)) key (keybuffer (Top.keys_state _ t1)) = (Ok tt, kb) /\
    result kb = Some f /\
    fst (Top.call _ Console.invoke f (Top.set_keybuffer _ kb t1)) = Raise BreakLoop /\
    match f with
    | VLeaf (Action a) => fst (Console.invoke a (Top.ui _ t1)) = Some BreakLoop
    | _ => BreakLoop = TypeError
    end.
Proof.
  apply (handle_keys_raises_from_action Console.console Console.invoke
           Console.container_press [97; 113; 102] (Console.start []) BreakLoop).
  - exact default_keys_awaiting.
  - vm_compute. reflexivity.
Defined.

Lemma lone_escape_clears_witness :
  exists h km,
    keybuffer (Top.keys_state _ (snd (Console.handle_input (Console.start [27])))) =
    KeyBuffer_init h km.
Proof.
  apply (lone_escape_clears Console.console Console.invoke Console.container_press
           Console.getch Console.flushinp Console.same Console.quiet Console.quiet
           (Console.start [27]) ([], 0%nat) ([], 0%nat)).
  - reflexivity.
  - reflexivity.
  - vm_compute. reflexivity.
Defined.

Lemma default_keys_dispatch_witness :
  let r := Top.handle_key _ Console.invoke Console.container_press curses.KEY_LEFT
             (Console.start []) in
  fst r = Ok tt /\ Top.ui _ (snd r) = ([], 1%nat).
Proof.
  destruct (default_keys_dispatch Console.console Console.invoke Console.container_press
              (Console.start []) curses.KEY_LEFT) as [Hact _].
  - reflexivity.
  - unfold curses.KEY_LEFT. lia.
  - rewrite BufferFacts.digits_spec. unfold curses.KEY_LEFT. lia.
  - reflexivity.
  - exact Hact.
Defined.



End TopMore.

(** ** The deep copy of [copy] keeps the shape *)

Module CopyMore.

Import Lexer Store KeyBinding Sessions ShapeNotions BufferNotions.
Import BindFacts TrieFacts ShapeFacts AliasFacts UnbindFacts ForestFacts.

Section DeepcopyShape.

(** The loop over the items of one node, given that copies with the
    fuel at hand come out right and with the shape of the original. *)
Variable fuel : nat.
Hypothesis deepcopy_below : forall x memo (h : heap) F,
  owns h x F -> F ⊆ dom h -> dom memo ## F -> (size F < fuel)%nat ->
  exists v' memo' h',
    deepcopy fuel x memo h = Some (v', memo', h') /\
    (forall l, l ∈ dom h -> h' !! l = h !! l) /\
    dom memo' ⊆ dom memo ∪ F /\
    owns h' v' (dom h' ∖ dom h) /\
    forall q, led_to (lookup_path h' v' q) = led_to (lookup_path h x q).

Variables (h : heap) (d : dict) (Fs : Z -> gset loc) (F M : gset loc) (l y : loc).
Hypothesis Hch : forall k v, d !! k = Some v -> owns h v (Fs k).
Hypothesis Hfs : forall k v, d !! k = Some v -> Fs k ⊆ F ∖ {[l]}.
Hypothesis Hdisj : forall k1 k2 v1 v2,
  k1 <> k2 -> d !! k1 = Some v1 -> d !! k2 = Some v2 -> Fs k1 ## Fs k2.
Hypothesis HF : F ⊆ dom h.
Hypothesis Hsize : (size F <= fuel)%nat.
Hypothesis Hl : l ∈ F.
Hypothesis Hy : y ∉ dom h.

(** The slots of the copy [y] that are filled so far are those of the
    keys [seen], and each leads where the slot of the original does. *)
Let copied (seen : gset Z) (h_i : heap) : Prop :=
  forall k0,
    (k0 ∈ seen ->
     exists v0 v0', d !! k0 = Some v0 /\ (h_i !!! y : dict) !! k0 = Some v0' /\
       forall q, led_to (lookup_path h_i v0' q) = led_to (lookup_path h v0 q)) /\
    (k0 ∉ seen -> (h_i !!! y : dict) !! k0 = None).

Lemma deepcopy_items_shape (items : list (Z * value)) : forall seen memo_i (h_i : heap),
  NoDup items.*1 ->
  (forall k v, (k, v) ∈ items -> d !! k = Some v) ->
  (forall k v, (k, v) ∈ items -> k ∉ seen) ->
  (forall l0, l0 ∈ dom h -> h_i !! l0 = h !! l0) ->
  (forall k v, (k, v) ∈ items -> dom memo_i ## Fs k) ->
  dom memo_i ⊆ M ∪ F ->
  owns h_i (VDict y) (dom h_i ∖ dom h) ->
  copied seen h_i ->
  exists memo' h',
    fold_left (deepcopy_item (deepcopy fuel) y) items (Some (memo_i, h_i)) = Some (memo', h') /\
    (forall l0, l0 ∈ dom h -> h' !! l0 = h !! l0) /\
    dom memo' ⊆ M ∪ F /\
    owns h' (VDict y) (dom h' ∖ dom h) /\
    copied (seen ∪ list_to_set items.*1) h'.
Proof.
  induction items as [|[k v] items IH];
    intros seen memo_i h_i Hnd Hitems Hnew Hagree Hmemo HM Hown Hcopied.
  - exists memo_i, h_i. cbn [fmap list_fmap list_to_set].
    rewrite (right_id_L ∅ (∪)). done.
  - cbn [fold_left deepcopy_item fst snd].
    assert (Hk : d !! k = Some v) by (apply Hitems; left).
    assert (Hkseen : k ∉ seen) by (apply (Hnew k v); left).
    pose proof (Hfs k v Hk) as Hfk.
    assert (Hdom_i : dom h ⊆ dom h_i).
    { intros l0 Hl0. apply elem_of_dom. rewrite Hagree by done. by apply elem_of_dom. }
    assert (Hown_v : owns h_i v (Fs k)).
    { apply (owns_frame h); [by eapply Hch|]. intros l0 Hl0. apply Hagree. set_solver. }
    assert (Hsz : (size (Fs k) < fuel)%nat).
    { eapply Nat.lt_le_trans; [|exact Hsize]. apply subset_size. set_solver. }
    destruct (deepcopy_below v memo_i h_i (Fs k) Hown_v)
      as (v' & memo2 & h2 & -> & Hag2 & Hm2 & Hv' & Hshape2);
      [set_solver|by eapply Hmemo; left|done|].
    assert (Hdom2 : dom h_i ⊆ dom h2).
    { intros l0 Hl0. apply elem_of_dom. rewrite Hag2 by done. by apply elem_of_dom. }
    destruct (owns_root_in _ _ _ Hown) as [Hy_in Hy_some].
    assert (Hy_i : y ∈ dom h_i) by (by apply elem_of_dom).
    assert (Hy2 : is_Some (h2 !! y)).
    { rewrite Hag2; [done|by apply elem_of_dom]. }
    assert (Hy2t : (h2 !!! y : dict) = h_i !!! y).
    { destruct Hy_some as [dy Hdy]. pose proof (Hag2 y Hy_i) as He. rewrite Hdy in He.
      by rewrite (lookup_total_correct _ _ _ He), (lookup_total_correct _ _ _ Hdy). }
    set (h3 := setitem y k v' h2).
    assert (Hy3 : (h3 !!! y : dict) = <[k := v']> (h_i !!! y)).
    { unfold h3, setitem. rewrite lookup_total_insert_eq. by rewrite Hy2t. }
    assert (Hag3 : forall l0, l0 ∈ dom h_i -> l0 <> y -> h3 !! l0 = h_i !! l0).
    { intros l0 Hl0 Hne. unfold h3. rewrite setitem_ne by done. by apply Hag2. }
    replace (seen ∪ list_to_set ((k, v) :: items).*1)
      with ((seen ∪ {[k]}) ∪ list_to_set items.*1)
      by (cbn [fmap list_fmap list_to_set fst]; set_solver).
    apply IH.
    + by inversion Hnd.
    + intros k2 v2 Hin. apply Hitems. by right.
    + intros k2 v2 Hin.
      assert (Hne : k <> k2).
      { intros ->. inversion Hnd as [|? ? Hnotin _]; subst. apply Hnotin.
        apply list_elem_of_fmap. by exists (k2, v2). }
      assert (k2 ∉ seen) by (apply (Hnew k2 v2); by right). set_solver.
    + intros l0 Hl0. rewrite Hag3; [by apply Hagree|by apply Hdom_i|by intros ->].
    + intros k2 v2 Hin.
      assert (Hk2 : d !! k2 = Some v2) by (apply Hitems; by right).
      assert (Hne : k <> k2).
      { intros ->. inversion Hnd as [|? ? Hnotin _]; subst. apply Hnotin.
        apply list_elem_of_fmap. by exists (k2, v2). }
      pose proof (Hdisj k k2 _ _ Hne Hk Hk2).
      assert (dom memo_i ## Fs k2) by (eapply Hmemo; by right).
      set_solver.
    + set_solver.
    + unfold h3. rewrite setitem_dom by done.
      eapply owns_weaken.
      * apply setitem_owns; [|exact Hv'|].
        -- apply (owns_frame h_i); [exact Hown|]. intros l0 Hl0. apply Hag2. set_solver.
        -- set_solver.
      * set_solver.
    + (* the slots filled so far *)
      intros k0. split.
      * intros Hk0. destruct (decide (k0 = k)) as [->|Hne].
        -- exists v, v'. split; [done|]. split; [by rewrite Hy3, lookup_insert_eq|].
           intros q. rewrite <- (lookup_path_frame h h_i q v (Fs k));
             [|by eapply Hch|intros l0 Hl0; apply Hagree; set_solver].
           rewrite <- Hshape2. f_equal.
           apply (lookup_path_frame h2 h3 q v' (dom h2 ∖ dom h_i)); [done|].
           intros l0 Hl0. unfold h3. apply setitem_ne. intros ->. set_solver.
        -- assert (Hk0s : k0 ∈ seen) by set_solver.
           destruct (proj1 (Hcopied k0) Hk0s) as (v0 & v0' & Hd0 & Hy0 & Hsh0).
           exists v0, v0'. split; [done|].
           split; [by rewrite Hy3, lookup_insert_ne|].
           intros q. rewrite <- Hsh0. f_equal.
           inversion Hown as [|? dy Fs' ? Hdy _ Hkids Hsub _]; subst.
           rewrite (lookup_total_correct _ _ _ Hdy) in Hy0.
           apply (lookup_path_frame h_i h3 q v0' (Fs' k0)); [by eapply Hkids|].
           intros l0 Hl0. pose proof (Hsub _ _ Hy0). apply Hag3; set_solver.
      * intros Hk0. assert (k0 <> k) by set_solver. assert (k0 ∉ seen) by set_solver.
        rewrite Hy3, lookup_insert_ne by done. by apply (Hcopied k0).
Qed.

End DeepcopyShape.

(** [deepcopy] of an owned tree returns a tree of new objects with the
    shape of the original: every key sequence leads to a leaf in the
    copy exactly when it does in the original, and to the same leaf. *)
Lemma deepcopy_shape fuel : forall x memo (h : heap) F,
  owns h x F -> F ⊆ dom h -> dom memo ## F -> (size F < fuel)%nat ->
  exists v' memo' h',
    deepcopy fuel x memo h = Some (v', memo', h') /\
    (forall l, l ∈ dom h -> h' !! l = h !! l) /\
    dom memo' ⊆ dom memo ∪ F /\
    owns h' v' (dom h' ∖ dom h) /\
    forall q, led_to (lookup_path h' v' q) = led_to (lookup_path h x q).
Proof.
  induction fuel as [|fuel IH]; intros x memo h F Hown HF Hmemo Hsize.
  - destruct Hown as [x F|l d Fs F Hl Hin Hch Hfs Hdisj]; [|lia].
    exists (VLeaf x), memo, h. repeat split; [set_solver|constructor].
  - destruct Hown as [x F|l d Fs F Hl Hin Hch Hfs Hdisj].
    { exists (VLeaf x), memo, h. repeat split; [set_solver|constructor]. }
    cbn [deepcopy].
    assert (Hml : memo !! l = None) by (apply not_elem_of_dom; set_solver).
    rewrite Hml, (lookup_total_Some _ _ _ Hl).
    set (y := new_loc h).
    assert (Hy : y ∉ dom h) by (apply not_elem_of_dom, new_loc_fresh).
    destruct (deepcopy_items_shape fuel IH h d Fs F (dom memo) l y Hch Hfs Hdisj HF
                ltac:(lia) Hin Hy (map_to_list d) ∅ (<[l := y]> memo) (<[y := ∅]> h))
      as (memo' & h' & -> & Hag & Hm & Hown' & Hcopied).
    + apply NoDup_fst_map_to_list.
    + intros k v Hkv. by apply elem_of_map_to_list.
    + intros k v _. apply not_elem_of_empty.
    + intros l0 Hl0. apply lookup_insert_ne. by intros <-.
    + intros k v Hkv. apply elem_of_map_to_list in Hkv. specialize (Hfs k v Hkv).
      rewrite dom_insert_L. set_solver.
    + rewrite dom_insert_L. set_solver.
    + apply owns_empty_dict; [apply lookup_insert_eq|].
      rewrite dom_insert_L. set_solver.
    + intros k0. split; [intros []%not_elem_of_empty|].
      intros _. rewrite lookup_total_insert_eq. apply lookup_empty.
    + exists (VDict y), memo', h'. split; [done|]. split; [done|]. split; [done|].
      split; [done|]. intros [|k q]; [done|]. cbn [lookup_path].
      rewrite (lookup_total_Some _ _ _ Hl).
      destruct (d !! k) as [v|] eqn:Hk.
      * destruct (proj1 (Hcopied k)) as (v0 & v0' & Hd0 & Hy0 & Hsh0).
        { apply elem_of_union_r, elem_of_list_to_set, list_elem_of_fmap.
          exists (k, v). split; [done|]. by apply elem_of_map_to_list. }
        rewrite Hy0. rewrite Hk in Hd0. injection Hd0 as <-. apply Hsh0.
      * rewrite (proj2 (Hcopied k)); [done|].
        rewrite elem_of_union, elem_of_list_to_set, list_elem_of_fmap.
        intros [[]%not_elem_of_empty|([k' v'] & -> & Hkv)].
        apply elem_of_map_to_list in Hkv. cbn [fst] in Hk. congruence.
Qed.

(** X21: An alias has the shape of its source.  In a session that binds,
    aliases and unbinds have led to, [copy(context, source, target)] of
    a source that leads somewhere, a leaf or a node, returns, and then
    the target followed by any keys leads to a leaf exactly when the
    source followed by the same keys did before, and to the same
    leaf. *)
Theorem alias_keeps_shape (c source target : string) (st : state) root src k tgt v :
  built st ->
  contexts st !! c = Some root ->
  parse_keybinding source = Ok src -> src <> [] ->
  parse_keybinding target = Ok (k :: tgt) ->
  lookup_path (heap_of st) (VDict root) src = Some v ->
  exists st',
    copy c source target st = Some (Ok tt, st') /\
    contexts st' !! c = Some root /\
    forall q,
      led_to (lookup_path (heap_of st') (VDict root) ((k :: tgt) ++ q)) =
      led_to (lookup_path (heap_of st) (VDict root) (src ++ q)).
Proof.
  intros Hb Hroot Hsrc Hne Htgt Hpath.
  destruct (built_forest st Hb) as [Fc [Htrees _]].
  destruct (Htrees _ _ Hroot) as [Hown HF].
  assert (Hwalk : copy_walk src (VDict root) (heap_of st) = Ok v).
  { by apply SessionMore.copy_walk_lookup. }
  rewrite (copy_present _ _ _ _ _ _ Hroot Hsrc Hne), Hwalk.
  set (h := heap_of st) in *.
  pose proof (copy_walk_owns _ _ _ _ _ Hown Hwalk) as Hv.
  destruct (deepcopy_shape (S (size h)) v ∅ h (Fc c) Hv HF)
    as (v' & memo' & hc & Hdc & Hag & _ & Hv' & Hshape).
  { rewrite dom_empty_L. set_solver. }
  { apply Nat.lt_succ_r. rewrite <- size_dom. by apply subseteq_size. }
  rewrite Hdc.
  assert (Hc : contexts (set_heap hc st) !! c = Some root) by done.
  rewrite (bind_nonempty _ _ _ _ _ _ Htgt), (context_root_present _ _ _ Hc).
  cbn [fst snd]. unfold set_heap at 2 3. cbn [heap_of contexts used_keymap keybuffer].
  eexists. split; [reflexivity|]. cbn [set_heap heap_of contexts]. split; [done|].
  assert (Hdom : dom h ⊆ dom hc).
  { intros l Hl. apply elem_of_dom. rewrite Hag by done. by apply elem_of_dom. }
  assert (Hownc : owns hc (VDict root) (Fc c)).
  { apply (owns_frame h); [done|]. intros l Hl. apply Hag. by apply HF. }
  intros q. rewrite !lookup_path_app, Hpath.
  rewrite (bind_from_lookup tgt k hc root (Fc c) v' Hownc).
  rewrite <- Hshape. f_equal.
  apply (lookup_path_frame hc _ q v' (dom hc ∖ dom h)); [done|].
  intros l Hl. apply (bind_from_frame tgt k hc root (Fc c)); [done| |].
  - apply elem_of_dom. set_solver.
  - intros Hin. apply HF in Hin. set_solver.
Qed.

Lemma alias_keeps_shape_witness :
  let st := snd (bind "root" "gx" (VLeaf (Action 5))
              (snd (bind "root" "gg" (VLeaf (Action 4)) KeyMaps_init))) in
  exists st',
    copy "root" "g" "z" st = Some (Ok tt, st') /\
    led_to (lookup_path (heap_of st') (VDict 1%positive) [122; 120]) = Some (Some (Action 5)) /\
    led_to (lookup_path (heap_of st') (VDict 1%positive) [122; 121]) = None.
Proof.
  cbv zeta.
  destruct (alias_keeps_shape "root" "g" "z"
              (snd (bind "root" "gx" (VLeaf (Action 5))
                 (snd (bind "root" "gg" (VLeaf (Action 4)) KeyMaps_init))))
              1%positive [103] 122 [] (VDict 2%positive))
    as (st' & Hcopy & _ & Hshape).
  - apply built_bind, built_bind, built_init.
  - reflexivity.
  - reflexivity.
  - done.
  - reflexivity.
  - reflexivity.
  - exists st'. split; [exact Hcopy|]. split.
    + etrans; [exact (Hshape [120])|reflexivity].
    + etrans; [exact (Hshape [121])|reflexivity].
Defined.


End CopyMore.

(** ** The process tree *)

Module HostFacts.

Import Host.

Lemma tree_get_append tree ppid pid q :
  tree_get (append_to tree ppid pid) q =
    if q =? ppid then Some (default [] (tree_get tree ppid) ++ [pid])
    else tree_get tree q.
Proof.
  induction tree as [|[k pids] rest IH]; cbn [append_to tree_get].
  - rewrite (Z.eqb_sym ppid q). by destruct (q =? ppid).
  - destruct (k =? ppid) eqn:Hk; cbn [tree_get].
    + apply Z.eqb_eq in Hk as ->. rewrite (Z.eqb_sym ppid q).
      by destruct (q =? ppid).
    + rewrite IH. destruct (q =? ppid) eqn:Hq; [|done].
      apply Z.eqb_eq in Hq as ->. by rewrite Hk.
Qed.

Lemma fold_tree_get items ppid : forall tree,
  tree_get (fold_left (fun tree item => append_to tree (snd item) (fst item)) items tree) ppid =
    match List.filter (fun item => snd item =? ppid) items with
    | [] => tree_get tree ppid
    | found => Some (default [] (tree_get tree ppid) ++ map fst found)
    end.
Proof.
  induction items as [|[pid pp] items IH]; intros tree; cbn [fold_left List.filter fst snd].
  - done.
  - rewrite IH, tree_get_append. destruct (pp =? ppid) eqn:Hpp.
    + apply Z.eqb_eq in Hpp as ->. rewrite Z.eqb_refl. cbn [default].
      destruct (List.filter _ items); cbn [map fst]; [done|].
      unfold id. by rewrite <- app_assoc.
    + rewrite (Z.eqb_sym ppid pp), Hpp. done.
Qed.

Lemma reverse_ppid_map_children_aux (items : list (Z * Z)) (ppid : Z) :
  tree_get (reverse_ppid_map items) ppid =
    match map fst (List.filter (fun item => snd item =? ppid) items) with
    | [] => None
    | pids => Some pids
    end.
Proof.
  unfold reverse_ppid_map. rewrite fold_tree_get.
  by destruct (List.filter _ items).
Qed.

(** X22: The entry of a parent lists its children, in the order of
    [ppid_map()], and a process without children has no entry. *)
Theorem reverse_ppid_map_children (items : list (Z * Z)) (ppid : Z) :
  tree_get (reverse_ppid_map items) ppid =
    match map fst (List.filter (fun item => snd item =? ppid) items) with
    | [] => None
    | pids => Some pids
    end.
Proof. apply reverse_ppid_map_children_aux. Qed.

(** X23: Reading the tree gives back the map: [pid] is listed under [ppid]
    exactly when [ppid_map()] holds the item [(pid, ppid)]. *)
Theorem reverse_ppid_map_member (items : list (Z * Z)) (pid ppid : Z) :
  (exists pids, tree_get (reverse_ppid_map items) ppid = Some pids /\ In pid pids) <->
  In (pid, ppid) items.
Proof.
  rewrite reverse_ppid_map_children_aux. split.
  - intros (pids & Hget & Hin).
    assert (Hin' : In pid (map fst (List.filter (fun item => snd item =? ppid) items))).
    { destruct (map fst _); [done|]. by injection Hget as <-. }
    apply in_map_iff in Hin' as ([pid' pp] & <- & Hf).
    apply filter_In in Hf as [Hitem Hpp]. cbn [snd fst] in *.
    by apply Z.eqb_eq in Hpp as ->.
  - intros Hin.
    assert (Hin' : In pid (map fst (List.filter (fun item => snd item =? ppid) items))).
    { apply in_map_iff. exists (pid, ppid). split; [done|].
      apply filter_In. split; [done|]. apply Z.eqb_refl. }
    destruct (map fst _) as [|p pids]; [done|]. by exists (p :: pids).
Qed.

End HostFacts.
